(** * envize: profile resolution, session state and shell text

    A shallow embedding of the core of envize (ProfileStore.parseVariables,
    ProfileResolver, StateManager, ShellAdapter and utils.sanitizeForShell)
    together with the properties its specification states about them.  The
    commands that drive the core ([use], [add], [remove], [reset]) and the
    writing of profiles follow, with properties read off the code.

    Conventions of the embedding.
    - A JavaScript string is a [string]: a sequence of code units.  Only code
      units below 256 are representable; the functions modelled here treat
      every code unit uniformly except the few they test for (quote, equals,
      hash, backslash, line feed, white space), all of which are below 256.
    - A plain object used as [Record<string, V>] is the finite map of its own
      enumerable properties, a [gmap string V].  Its prototype is
      [Object.prototype], and the operations that look through the prototype
      ([o[k]], [k in o], and an assignment to [__proto__]) are written out in
      [JsObject].  The enumeration order of [Object.entries] is that of
      [map_to_list]; nothing stated below depends on it.
    - A [Map] is an association list in insertion order.
    - A thrown exception is the [Throw] outcome of a [result].
    - The state file and the profile directories are explicit arguments; the
      clock and [process.env] are arguments of the calls that read them.
    - A state file that holds JSON holds the JSON text of a state, and
      writing the state file and reading a profile file that exists succeed.
      A property that says that a call returns is stated for the state
      files that can be written ([regular]).
    - The shells that evaluate the rendered text are modelled by their
      documented quoting rules ([Shell]), and a shell session by its
      exported variables. *)

From stdpp Require Import gmap strings list fin_maps.
From Stdlib Require Import Ascii.
From Stdlib Require String.

Local Open Scope stdpp_scope.

(* ===================================================================== *)
(** ** JavaScript strings *)
(* ===================================================================== *)

Module JsString.

Definition LF : ascii := "010"%char.
Definition APOSTROPHE : ascii := "'"%char.
Definition QUOTATION : ascii := "034"%char.
Definition BACKSLASH : ascii := "\"%char.
Definition EQUALS : ascii := "="%char.
Definition HASH : ascii := "#"%char.

Definition chr (c : ascii) : string := String c EmptyString.

(** The code units stripped by [String.prototype.trim]: ECMAScript's
    WhiteSpace and LineTerminator productions, restricted to code units
    below 256 (TAB, LF, VT, FF, CR, SP, NBSP). *)
Definition isWhiteSpace (c : ascii) : bool :=
  bool_decide (nat_of_ascii c ∈ [9; 10; 11; 12; 13; 32; 160]).

Definition isEmpty (s : string) : bool :=
  match s with EmptyString => true | String _ _ => false end.

Fixpoint take (n : nat) (s : string) : string :=
  match n, s with
  | S n', String c s' => String c (take n' s')
  | _, _ => EmptyString
  end.

Fixpoint drop (n : nat) (s : string) : string :=
  match n, s with
  | S n', String _ s' => drop n' s'
  | _, _ => s
  end.

(** [s.slice(start, stop)] for non-negative arguments (both are clamped to
    the length, and an empty string results when [stop <= start]). *)
Definition slice (s : string) (start stop : nat) : string :=
  take (stop - start) (drop start s).

(** [s.slice(start)]. *)
Definition sliceFrom (s : string) (start : nat) : string := drop start s.

Fixpoint startsWith (s prefix : string) {struct prefix} : bool :=
  match prefix, s with
  | EmptyString, _ => true
  | String p prefix', String c s' =>
      if decide (p = c) then startsWith s' prefix' else false
  | String _ _, EmptyString => false
  end.

Definition endsWith (s suffix : string) : bool :=
  if decide (String.length suffix ≤ String.length s)
  then bool_decide (drop (String.length s - String.length suffix) s = suffix)
  else false.

(** [s.indexOf(needle)]; [None] stands for [-1]. *)
Fixpoint indexOf (s needle : string) : option nat :=
  if startsWith s needle then Some 0
  else match s with
       | EmptyString => None
       | String _ s' => S <$> indexOf s' needle
       end.

Definition includes (s needle : string) : bool :=
  bool_decide (is_Some (indexOf s needle)).

Fixpoint trimStart (s : string) : string :=
  match s with
  | EmptyString => EmptyString
  | String c s' => if isWhiteSpace c then trimStart s' else s
  end.

Fixpoint trimEnd (s : string) : string :=
  match s with
  | EmptyString => EmptyString
  | String c s' =>
      let r := trimEnd s' in
      if isWhiteSpace c && isEmpty r then EmptyString else String c r
  end.

Definition trim (s : string) : string := trimEnd (trimStart s).

(** [s.split('\n')]: never empty; the empty string splits to one empty
    line. *)
Fixpoint split_lines (s : string) : list string :=
  match s with
  | EmptyString => [EmptyString]
  | String c s' =>
      if decide (c = LF) then EmptyString :: split_lines s'
      else match split_lines s' with
           | line :: rest => String c line :: rest
           | [] => [chr c]
           end
  end.

(** [lines.join('\n')]. *)
Fixpoint join_lines (lines : list string) : string :=
  match lines with
  | [] => EmptyString
  | [line] => line
  | line :: rest => line +:+ chr LF +:+ join_lines rest
  end.

(** [s.replace(/^\n+/, '')]. *)
Fixpoint stripLeadingNewlines (s : string) : string :=
  match s with
  | EmptyString => EmptyString
  | String c s' => if decide (c = LF) then stripLeadingNewlines s' else s
  end.

(** [s.replace(/\n+$/, '')]: without the [m] flag [$] is the end of the
    input, so the one match is the whole final run of line feeds. *)
Fixpoint stripTrailingNewlines (s : string) : string :=
  match s with
  | EmptyString => EmptyString
  | String c s' =>
      let r := stripTrailingNewlines s' in
      if decide (c = LF) then (if isEmpty r then EmptyString else String c r)
      else String c r
  end.

(** Number of positions at which [needle] occurs in [s]. *)
Fixpoint occurrences (s needle : string) : nat :=
  (if startsWith s needle then 1 else 0) +
  match s with
  | EmptyString => 0
  | String _ s' => occurrences s' needle
  end.

End JsString.

Import JsString.

(* ===================================================================== *)
(** ** Plain objects used as records *)
(* ===================================================================== *)

Module JsObject.

(** The property names every plain object inherits from
    [Object.prototype]. *)
Definition prototype_members : list string :=
  [ "constructor"; "__defineGetter__"; "__defineSetter__"; "hasOwnProperty";
    "__lookupGetter__"; "__lookupSetter__"; "isPrototypeOf";
    "propertyIsEnumerable"; "toString"; "valueOf"; "__proto__";
    "toLocaleString" ].

Definition inherited (k : string) : bool :=
  bool_decide (k ∈ prototype_members).

(** What a property read [o[k]] yields when it is not [undefined]: the own
    property's value, or the member of [Object.prototype] of that name (a
    function, or for [__proto__] the prototype object itself). *)
Inductive fetched (V : Type) : Type :=
| Own (v : V)
| Member (k : string).
Global Arguments Own {V} v.
Global Arguments Member {V} k.

(** [o[k]]; [None] stands for [undefined]. *)
Definition get {V} (o : gmap string V) (k : string) : option (fetched V) :=
  match o !! k with
  | Some v => Some (Own v)
  | None => if inherited k then Some (Member k) else None
  end.

(** Truthiness of [o[k]] where the own values are objects: an own value and
    an inherited member are both truthy, [undefined] is falsy. *)
Definition truthy {V} (o : gmap string V) (k : string) : bool :=
  bool_decide (is_Some (get o k)).

(** [k in o]. *)
Definition has {V} (o : gmap string V) (k : string) : bool :=
  bool_decide (is_Some (o !! k)) || inherited k.

(** [o[k] = v] on the own properties.  Every member of [Object.prototype]
    but [__proto__] is a writable data property, so the assignment creates
    an own property; [__proto__] is an accessor whose setter creates none
    (it ignores a primitive [v], and installs an object [v] as the
    prototype). *)
Definition assign {V} (o : gmap string V) (k : string) (v : V)
  : gmap string V :=
  if decide (k = "__proto__") then o else <[k := v]> o.

(** [Object.entries(o)] and [Object.keys(o)]. *)
Definition entries {V} (o : gmap string V) : list (string * V) :=
  map_to_list o.
Definition keys {V} (o : gmap string V) : list string :=
  (map_to_list o).*1.

End JsObject.

(** A [Map<string, V>]: entries in insertion order. *)
Module JsMap.

Fixpoint get {V} (m : list (string * V)) (k : string) : option V :=
  match m with
  | [] => None
  | (k', v) :: m' => if decide (k' = k) then Some v else get m' k
  end.

(** [m.set(k, v)]: an existing key keeps its position. *)
Fixpoint set {V} (m : list (string * V)) (k : string) (v : V)
  : list (string * V) :=
  match m with
  | [] => [(k, v)]
  | (k', v') :: m' =>
      if decide (k' = k) then (k, v) :: m' else (k', v') :: set m' k v
  end.

End JsMap.

(** The outcome of a call that may throw. *)
Inductive result (A : Type) : Type :=
| Ok (a : A)
| Throw (message : string).
Global Arguments Ok {A} a.
Global Arguments Throw {A} message.


(* ===================================================================== *)
(** ** types.ts *)
(* ===================================================================== *)

Record EnvVariable : Type := mkEnvVariable { value : string; source : string }.

Global Instance EnvVariable_eq_dec : EqDecision EnvVariable.
Proof. solve_decision. Defined.

(** [Profile]; the [path] and [metadata] fields, which neither the resolver
    nor the state manager reads, are left out. *)
Module Profile.
Record t : Type := make
  { name : string; isLocal : bool; variables : gmap string string }.
End Profile.

Record Conflict : Type := mkConflict
  { variable : string; profiles : list string; winner : string }.

Global Instance Conflict_eq_dec : EqDecision Conflict.
Proof. solve_decision. Defined.

Module ResolvedEnv.
Record t : Type := make
  { variables : gmap string EnvVariable; conflicts : list Conflict }.
End ResolvedEnv.

(** [StateData]; a snapshot value is a string or [null] ([None]). *)
Module StateData.
Record t : Type := make
  { active_profiles : list string;
    variables : gmap string EnvVariable;
    snapshot : gmap string (option string);
    applied_at : string }.
End StateData.

Inductive ShellType : Type := bash | zsh | fish | unknown.

(* ===================================================================== *)
(** ** utils.ts *)
(* ===================================================================== *)

(** [value.replace(/'/g, "'\\''")]: every apostrophe becomes the four
    code units apostrophe, backslash, apostrophe, apostrophe. *)
Fixpoint sanitizeForShell (value : string) : string :=
  match value with
  | EmptyString => EmptyString
  | String c rest =>
      if decide (c = APOSTROPHE) then "'\''" +:+ sanitizeForShell rest
      else String c (sanitizeForShell rest)
  end.

(* ===================================================================== *)
(** ** core/ProfileStore.ts *)
(* ===================================================================== *)

(** The two profile directories: each maps a profile name to the content of
    [<dir>/<name>.env] when that file exists.  A file that exists can be
    read. *)
Record ProfileStore : Type := mkProfileStore
  { localDir : string → option string; globalDir : string → option string }.

(** The quote removal of [parseVariables]: [value.slice(1, -1)] when the value
    starts and ends with the same kind of quote.  A negative end counts from
    the end of the string. *)
Definition stripQuotes (value : string) : string :=
  if (startsWith value (chr QUOTATION) && endsWith value (chr QUOTATION))
     || (startsWith value "'" && endsWith value "'")
  then slice value 1 (String.length value - 1)
  else value.

(** One iteration of the loop of [parseVariables]. *)
Definition parseLine (variables : gmap string string) (line : string)
  : gmap string string :=
  let trimmed := trim line in
  if isEmpty trimmed || startsWith trimmed "#" then variables
  else
    match indexOf trimmed "=" with
    | None => variables
    | Some eqIndex =>
        let key := trim (slice trimmed 0 eqIndex) in
        let value := stripQuotes (trim (sliceFrom trimmed (eqIndex + 1))) in
        if isEmpty key then variables else JsObject.assign variables key value
    end.

Definition parseVariables (content : string) : gmap string string :=
  foldl parseLine ∅ (split_lines content).

Definition loadProfileFromPath (content name : string) (isLocal : bool)
  : Profile.t :=
  Profile.make name isLocal (parseVariables content).

(** [loadProfile]: local first, then global; [None] stands for [null]. *)
Definition loadProfile (store : ProfileStore) (name : string)
  : option Profile.t :=
  match localDir store name with
  | Some content => Some (loadProfileFromPath content name true)
  | None =>
      match globalDir store name with
      | Some content => Some (loadProfileFromPath content name false)
      | None => None
      end
  end.

(* ===================================================================== *)
(** ** core/ProfileResolver.ts *)
(* ===================================================================== *)

(** The two accumulators of [resolve]: the [variables] object and the
    [variableSources] map. *)
Definition merge_state : Type :=
  (gmap string EnvVariable * list (string * list string))%type.

(** The body of the loop of [mergeProfile] for one entry of
    [profile.variables]. *)
Definition mergeEntry (profileName : string) (acc : merge_state)
    (entry : string * string) : merge_state :=
  let sources := default [] (JsMap.get acc.2 entry.1) ++ [profileName] in
  (JsObject.assign acc.1 entry.1 (mkEnvVariable entry.2 profileName),
   JsMap.set acc.2 entry.1 sources).

Definition mergeProfile (profile : Profile.t) (acc : merge_state)
  : merge_state :=
  foldl (mergeEntry (Profile.name profile)) acc
        (JsObject.entries (Profile.variables profile)).

(** The conflict-detection loop shared by [resolve] and [resolveProfiles]. *)
Definition detectConflicts (variableSources : list (string * list string))
  : list Conflict :=
  omap (λ entry : string * list string,
          if decide (1 < length entry.2)
          then Some (mkConflict entry.1 entry.2
                       (default EmptyString (entry.2 !! (length entry.2 - 1))))
          else None)
       variableSources.

Definition finish (acc : merge_state) : ResolvedEnv.t :=
  ResolvedEnv.make acc.1 (detectConflicts acc.2).

Fixpoint resolveLoop (store : ProfileStore) (profileNames : list string)
    (acc : merge_state) : result merge_state :=
  match profileNames with
  | [] => Ok acc
  | name :: rest =>
      match loadProfile store name with
      | None => Throw ("Profile not found: " +:+ name)
      | Some profile => resolveLoop store rest (mergeProfile profile acc)
      end
  end.

Definition resolve (store : ProfileStore) (profileNames : list string)
  : result ResolvedEnv.t :=
  match resolveLoop store profileNames (∅, []) with
  | Ok acc => Ok (finish acc)
  | Throw message => Throw message
  end.

Definition resolveProfiles (profiles : list Profile.t) : ResolvedEnv.t :=
  finish (foldl (λ acc profile, mergeProfile profile acc) (∅, []) profiles).

Module Diff.
Record t : Type := make { toSet : gmap string string; toUnset : list string }.
End Diff.

(** [current[key].value !== v], evaluated only when [current[key]] is truthy:
    a member of [Object.prototype] has no [value] property, and [undefined]
    differs from every string. *)
Definition valueDiffers (found : JsObject.fetched EnvVariable) (v : string)
  : bool :=
  match found with
  | JsObject.Own cur => bool_decide (value cur ≠ v)
  | JsObject.Member _ => true
  end.

(** The body of the first loop of [diff]: the test
    [!current[key] || current[key].value !== envVar.value]. *)
Definition diffSetStep (current : gmap string EnvVariable)
    (toSet : gmap string string) (entry : string * EnvVariable)
  : gmap string string :=
  match JsObject.get current entry.1 with
  | None => JsObject.assign toSet entry.1 (value entry.2)
  | Some found =>
      if valueDiffers found (value entry.2)
      then JsObject.assign toSet entry.1 (value entry.2)
      else toSet
  end.

Definition diff (current next : gmap string EnvVariable) : Diff.t :=
  Diff.make
    (foldl (diffSetStep current) ∅ (JsObject.entries next))
    (filter (λ key, JsObject.truthy next key = false) (JsObject.keys current)).

(** The result of [computeRemoval].  [toKeep[key]] receives whatever
    [remaining.variables[key]] evaluated to. *)
Module Removal.
Record t : Type := make
  { toUnset : list string;
    toKeep : gmap string (JsObject.fetched EnvVariable) }.
End Removal.

Definition removalStep (remaining : gmap string EnvVariable)
    (acc : Removal.t) (entry : string * EnvVariable) : Removal.t :=
  match JsObject.get remaining entry.1 with
  | Some found =>
      Removal.make (Removal.toUnset acc)
                   (JsObject.assign (Removal.toKeep acc) entry.1 found)
  | None =>
      Removal.make (Removal.toUnset acc ++ [entry.1]) (Removal.toKeep acc)
  end.

(** The re-resolution at the head of [computeRemoval]: an empty list of names
    gives an empty record without calling [resolve]. *)
Definition resolveRemaining (store : ProfileStore)
    (remainingProfileNames : list string)
  : result (gmap string EnvVariable) :=
  if decide (0 < length remainingProfileNames)
  then match resolve store remainingProfileNames with
       | Ok env => Ok (ResolvedEnv.variables env)
       | Throw message => Throw message
       end
  else Ok ∅.

Definition computeRemoval (store : ProfileStore)
    (currentVariables : gmap string EnvVariable)
    (remainingProfileNames : list string) : result Removal.t :=
  match resolveRemaining store remainingProfileNames with
  | Throw message => Throw message
  | Ok remainingVariables =>
      Ok (foldl (removalStep remainingVariables) (Removal.make [] ∅)
                (JsObject.entries currentVariables))
  end.

(* ===================================================================== *)
(** ** core/StateManager.ts *)
(* ===================================================================== *)

(** What the state file holds.  [JSON.parse] throws on text that is not JSON;
    the cast [as StateData] trusts the shape of what it returns, so JSON text
    is the text of a [StateData]. *)
Inductive FileContent : Type :=
| NotJson (text : string)
| Json (data : StateData.t).

(** The state file as [load] meets it: missing, present but failing to be
    read, or present with some content. *)
Inductive Backing : Type :=
| Absent
| Unreadable
| Present (content : FileContent).

Definition fileExists (file : Backing) : bool :=
  match file with Absent => false | _ => true end.

Definition readFile (file : Backing) : result FileContent :=
  match file with
  | Present content => Ok content
  | Unreadable => Throw "EACCES: permission denied"
  | Absent => Throw "ENOENT: no such file or directory"
  end.

Definition JSON_parse (content : FileContent) : result StateData.t :=
  match content with
  | Json data => Ok data
  | NotJson _ => Throw "SyntaxError: Unexpected token"
  end.

(** [try { body } catch { handler }]. *)
Definition try_catch {A} (body handler : result A) : result A :=
  match body with
  | Ok a => Ok a
  | Throw _ => handler
  end.

Definition getEmptyState (now : string) : StateData.t :=
  StateData.make [] ∅ ∅ now.

(** [load]; [now] is what [new Date().toISOString()] returns. *)
Definition load (now : string) (file : Backing) : result StateData.t :=
  if negb (fileExists file) then Ok (getEmptyState now)
  else
    try_catch
      (match readFile file with
       | Ok content => JSON_parse content
       | Throw message => Throw message
       end)
      (Ok (getEmptyState now)).

(** [save]: the file then holds the JSON text of [state]. *)
Definition save (state : StateData.t) : Backing := Present (Json state).

(** The snapshot loop shared by [update] and [addProfiles]; [env] is
    [process.env], and [currentValue ?? null] turns a missing variable into
    [null]. *)
Definition captureSnapshot (env : string → option string)
    (snapshot : gmap string (option string)) (keys : list string)
  : gmap string (option string) :=
  foldl (λ (snapshot : gmap string (option string)) (key : string),
           if JsObject.has snapshot key then snapshot
           else JsObject.assign snapshot key (env key))
        snapshot keys.

(** [update]: the new content of the state file and the returned state. *)
Definition update (now : string) (env : string → option string)
    (file : Backing) (profiles : list string)
    (variables : gmap string EnvVariable) : result (Backing * StateData.t) :=
  match load now file with
  | Throw message => Throw message
  | Ok currentState =>
      let snapshot :=
        captureSnapshot env (StateData.snapshot currentState)
                        (JsObject.keys variables) in
      let newState := StateData.make profiles variables snapshot now in
      Ok (save newState, newState)
  end.

Definition addProfiles (now : string) (env : string → option string)
    (file : Backing) (profilesToAdd : list string)
    (newVariables : gmap string EnvVariable)
  : result (Backing * StateData.t) :=
  match load now file with
  | Throw message => Throw message
  | Ok currentState =>
      let profiles :=
        foldl (λ (profiles : list string) (profile : string),
                 if decide (profile ∈ profiles) then profiles
                 else profiles ++ [profile])
              (StateData.active_profiles currentState) profilesToAdd in
      let snapshot :=
        captureSnapshot env (StateData.snapshot currentState)
                        (JsObject.keys newVariables) in
      let variables := newVariables ∪ StateData.variables currentState in
      let newState := StateData.make profiles variables snapshot now in
      Ok (save newState, newState)
  end.

(** A call of one of the two operations, with the clock and the process
    environment it runs under. *)
Inductive Call : Type :=
| CallUpdate (now : string) (env : string → option string)
    (profiles : list string) (variables : gmap string EnvVariable)
| CallAddProfiles (now : string) (env : string → option string)
    (profilesToAdd : list string) (newVariables : gmap string EnvVariable).

Definition perform (file : Backing) (call : Call)
  : result (Backing * StateData.t) :=
  match call with
  | CallUpdate now env profiles variables =>
      update now env file profiles variables
  | CallAddProfiles now env profilesToAdd newVariables =>
      addProfiles now env file profilesToAdd newVariables
  end.

(** The state file after a sequence of calls; a call that throws leaves the
    file as it was. *)
Definition run (file : Backing) (calls : list Call) : Backing :=
  foldl (λ (file : Backing) (call : Call),
           match perform file call with
           | Ok (file', _) => file'
           | Throw _ => file
           end)
        file calls.

(* ===================================================================== *)
(** ** core/ShellAdapter.ts *)
(* ===================================================================== *)

Definition generateExport (shell : ShellType) (key value : string) : string :=
  let sanitized := sanitizeForShell value in
  match shell with
  | fish => "set -gx " +:+ key +:+ " '" +:+ sanitized +:+ "'"
  | _ => "export " +:+ key +:+ "='" +:+ sanitized +:+ "'"
  end.

Definition generateUnset (shell : ShellType) (key : string) : string :=
  match shell with
  | fish => "set -e " +:+ key
  | _ => "unset " +:+ key
  end.

(** A text between double quotes, for the wrapper texts. *)
Definition quoted (s : string) : string :=
  chr QUOTATION +:+ s +:+ chr QUOTATION.

Definition getBashZshWrapper : string :=
  trim (chr LF +:+ join_lines
    [ "# envize shell function wrapper";
      "envize() {";
      "  case " +:+ quoted "$1" +:+ " in";
      "    use|add|remove|reset)";
      "      local output";
      "      output="
        +:+ quoted ("$(command envize " +:+ quoted "$@"
                    +:+ " --emit-shell 2>/dev/null)");
      "      if [ $? -eq 0 ]; then";
      "        eval " +:+ quoted "$output";
      "        command envize " +:+ quoted "$@" +:+ " --emit-human 1>&2";
      "      else";
      "        command envize " +:+ quoted "$@" +:+ " 1>&2";
      "      fi";
      "      ;;";
      "    *" +:+ ")";
      "      command envize " +:+ quoted "$@";
      "      ;;";
      "  esac";
      "}";
      EmptyString;
      "# Source persisted env vars if they exist";
      "if [ -f " +:+ quoted "$HOME/.envize/active.sh" +:+ " ]; then";
      "  source " +:+ quoted "$HOME/.envize/active.sh";
      "fi";
      EmptyString ]).

Definition getFishWrapper : string :=
  trim (chr LF +:+ join_lines
    [ "# envize shell function wrapper";
      "function envize";
      "  switch $argv[1]";
      "    case use add remove reset";
      "      set -l output (command envize $argv --emit-shell 2>/dev/null)";
      "      if test $status -eq 0";
      "        eval $output";
      "        command envize $argv --emit-human 1>&2";
      "      else";
      "        command envize $argv 1>&2";
      "      end";
      "    case '*'";
      "      command envize $argv";
      "  end";
      "end";
      EmptyString;
      "# Source persisted env vars if they exist";
      "if test -f " +:+ quoted "$HOME/.envize/active.fish";
      "  source " +:+ quoted "$HOME/.envize/active.fish";
      "end";
      EmptyString ]).

Definition getShellWrapper (shell : ShellType) : string :=
  match shell with
  | fish => getFishWrapper
  | _ => getBashZshWrapper
  end.

Definition getMarkerStart : string := "# >>> envize initialize >>>".
Definition getMarkerEnd : string := "# <<< envize initialize <<<".

Definition getFullWrapperBlock (shell : ShellType) : string :=
  getMarkerStart +:+ chr LF +:+ getShellWrapper shell +:+ chr LF
  +:+ getMarkerEnd.

Definition isWrapperInstalled (content : string) : bool :=
  includes content getMarkerStart.

Definition removeWrapper (content : string) : string :=
  match indexOf content getMarkerStart with
  | None => content
  | Some startIndex =>
      match indexOf content getMarkerEnd with
      | None => content
      | Some endIndex =>
          let before := stripTrailingNewlines (slice content 0 startIndex) in
          let after :=
            stripLeadingNewlines
              (sliceFrom content (endIndex + String.length getMarkerEnd)) in
          before
          +:+ (if negb (isEmpty before) && negb (isEmpty after)
               then chr LF +:+ chr LF else EmptyString)
          +:+ after
      end
  end.

Definition addWrapper (shell : ShellType) (content : string) : string :=
  let cleaned := removeWrapper content in
  let separator :=
    if endsWith cleaned (chr LF) then chr LF else chr LF +:+ chr LF in
  cleaned +:+ separator +:+ getFullWrapperBlock shell +:+ chr LF.

(* ===================================================================== *)
(** ** How the shells read the rendered statements *)
(* ===================================================================== *)

(** The quoting rules of the shells that evaluate the text, for the fragment
    the rendered statements are written in.  They follow the shells'
    documentation: the POSIX Shell Command Language (section 2.2, Quoting),
    which bash and zsh implement, and the fish language reference (Quotes).
    [None] means that the text leaves the fragment: an unterminated quote, or
    an unquoted character that the shell may interpret. *)
Module Shell.

Definition isDigit (c : ascii) : bool :=
  bool_decide (48 ≤ nat_of_ascii c ≤ 57).

Definition isNameStart (c : ascii) : bool :=
  bool_decide (65 ≤ nat_of_ascii c ≤ 90 ∨ 97 ≤ nat_of_ascii c ≤ 122
               ∨ nat_of_ascii c = 95).

Definition isNameChar (c : ascii) : bool := isNameStart c || isDigit c.

Fixpoint allNameChars (s : string) : bool :=
  match s with
  | EmptyString => true
  | String c s' => isNameChar c && allNameChars s'
  end.

(** A variable name: a letter or underscore, then letters, digits and
    underscores. *)
Definition isName (s : string) : bool :=
  match s with
  | EmptyString => false
  | String c s' => isNameStart c && allNameChars s'
  end.

(** The longest prefix of name characters, and what follows it. *)
Fixpoint spanName (s : string) : string * string :=
  match s with
  | EmptyString => (EmptyString, EmptyString)
  | String c s' =>
      if isNameChar c
      then (String c (spanName s').1, (spanName s').2)
      else (EmptyString, s)
  end.

(** Quote removal of one POSIX word.  Inside single quotes every character
    is literal up to the next single quote.  Outside, a backslash makes the
    next character literal (a backslash and line feed pair disappears), a
    single quote opens a quoted part, and name characters stand for
    themselves. *)
Fixpoint posixWord (quoted : bool) (s : string) : option string :=
  match s with
  | EmptyString => if quoted then None else Some EmptyString
  | String c rest =>
      if quoted then
        if decide (c = APOSTROPHE) then posixWord false rest
        else String c <$> posixWord true rest
      else if decide (c = APOSTROPHE) then posixWord true rest
      else if decide (c = BACKSLASH) then
        match rest with
        | EmptyString => None
        | String d rest' =>
            if decide (d = LF) then posixWord false rest'
            else String d <$> posixWord false rest'
        end
      else if isNameChar c then String c <$> posixWord false rest
      else None
  end.

(** [export NAME=word]: the variable assigned and its value. *)
Definition posixExport (statement : string) : option (string * string) :=
  if startsWith statement "export " then
    let parts := spanName (drop 7 statement) in
    if isName parts.1 then
      match parts.2 with
      | String c word =>
          if decide (c = EQUALS) then pair parts.1 <$> posixWord false word
          else None
      | EmptyString => None
      end
    else None
  else None.

(** Quote removal of one fish word.  Inside single quotes a backslash
    escapes a single quote or a backslash and is literal before anything
    else.  Outside, a backslash makes a following single quote or backslash
    literal. *)
Fixpoint fishWord (quoted : bool) (s : string) : option string :=
  match s with
  | EmptyString => if quoted then None else Some EmptyString
  | String c rest =>
      if quoted then
        if decide (c = APOSTROPHE) then fishWord false rest
        else if decide (c = BACKSLASH) then
          match rest with
          | EmptyString => None
          | String d rest' =>
              if decide (d = APOSTROPHE ∨ d = BACKSLASH)
              then String d <$> fishWord true rest'
              else String c <$> fishWord true rest
          end
        else String c <$> fishWord true rest
      else if decide (c = APOSTROPHE) then fishWord true rest
      else if decide (c = BACKSLASH) then
        match rest with
        | EmptyString => None
        | String d rest' =>
            if decide (d = APOSTROPHE ∨ d = BACKSLASH)
            then String d <$> fishWord false rest'
            else None
        end
      else if isNameChar c then String c <$> fishWord false rest
      else None
  end.

(** [set -gx NAME word]. *)
Definition fishSet (statement : string) : option (string * string) :=
  if startsWith statement "set -gx " then
    let parts := spanName (drop 8 statement) in
    if isName parts.1 then
      match parts.2 with
      | String c word =>
          if decide (c = " "%char) then pair parts.1 <$> fishWord false word
          else None
      | EmptyString => None
      end
    else None
  else None.

(** What evaluating [statement] assigns under the quoting rules of the shell
    the adapter renders for. *)
Definition evaluate (shell : ShellType) (statement : string)
  : option (string * string) :=
  match shell with
  | fish => fishSet statement
  | bash | zsh => posixExport statement
  | unknown => None
  end.

End Shell.

(* ===================================================================== *)
(** ** Vocabulary of the properties: resolver *)
(* ===================================================================== *)

Definition setters (key : string) (profiles : list Profile.t) : list Profile.t :=
  filter (λ p, is_Some (Profile.variables p !! key)) profiles.

Definition lastWins (key : string) (profiles : list Profile.t)
  : option EnvVariable :=
  p ← last (setters key profiles);
  v ← Profile.variables p !! key;
  Some (mkEnvVariable v (Profile.name p)).

Definition expectedConflicts (key : string) (profiles : list Profile.t)
  : list Conflict :=
  let names := Profile.name <$> setters key profiles in
  if decide (1 < length names)
  then [mkConflict key names (default EmptyString (last names))]
  else [].

Definition conflictsOn (key : string) (env : ResolvedEnv.t) : list Conflict :=
  filter (λ c, variable c = key) (ResolvedEnv.conflicts env).

Definition wellFormed (p : Profile.t) : Prop :=
  Profile.variables p !! "__proto__" = None.

Definition missing (store : ProfileStore) (name : string) : Prop :=
  localDir store name = None ∧ globalDir store name = None.

Definition Merged (ps : list Profile.t) (acc : merge_state) : Prop :=
  (∀ key, acc.1 !! key = lastWins key ps) ∧
  (∀ key, JsMap.get acc.2 key =
     match setters key ps with
     | [] => None
     | _ :: _ => Some (Profile.name <$> setters key ps)
     end) ∧
  NoDup acc.2.*1.


(** A store for the examples: [p1] is a local profile setting [KEY1], [p2] a
    global one setting [KEY1] and [KEY2]. *)
Definition exampleStore : ProfileStore :=
  mkProfileStore
    (λ name, if decide (name = "p1") then Some "KEY1=a" else None)
    (λ name, if decide (name = "p2")
             then Some ("KEY1=b" +:+ chr LF +:+ "KEY2=c") else None).

Definition exampleProfiles : list Profile.t :=
  [ Profile.make "p1" true {[ "KEY1" := "a" ]};
    Profile.make "p2" false {[ "KEY1" := "b"; "KEY2" := "c" ]} ].

(** A store for the third scenario of the specification: [p1] and [p2] both
    provide [SHARED]. *)
Definition sharedStore : ProfileStore :=
  mkProfileStore
    (λ name, if decide (name = "p1")
             then Some ("KEY1=1" +:+ chr LF +:+ "SHARED=a")
             else if decide (name = "p2") then Some "SHARED=b" else None)
    (λ _, None).

(** The store of the repository's resolver tests. *)
Definition testStore : ProfileStore :=
  mkProfileStore
    (λ _, None)
    (λ name,
       if decide (name = "profile1")
       then Some ("KEY1=value1" +:+ chr LF +:+ "SHARED=shared")
       else if decide (name = "profile2")
       then Some ("KEY2=value2" +:+ chr LF +:+ "SHARED=shared2")
       else None).

(* ===================================================================== *)
(** ** Vocabulary of the properties: diff *)
(* ===================================================================== *)

(** What the specification puts in [toSet] at [key]: the value of [next] when
    [current] has no such key or another value. *)
Definition expectedToSet (current next : gmap string EnvVariable)
    (key : string) : option string :=
  match next !! key with
  | Some nv =>
      match current !! key with
      | Some cv => if decide (value cv = value nv) then None else Some (value nv)
      | None => Some (value nv)
      end
  | None => None
  end.

(* ===================================================================== *)
(** ** Vocabulary of the properties: state file *)
(* ===================================================================== *)

(** The state file cannot be used: it is missing, it cannot be read, or its
    text does not parse. *)
Definition unusable (file : Backing) : Prop :=
  file = Absent ∨ file = Unreadable ∨ ∃ text, file = Present (NotJson text).

(** The snapshot recorded in the state file ([getSnapshot]). *)
Definition snapshotOf (file : Backing) : gmap string (option string) :=
  match file with
  | Present (Json data) => StateData.snapshot data
  | _ => ∅
  end.

(** The variables recorded in the state file ([getVariables]). *)
Definition variablesOf (file : Backing) : gmap string EnvVariable :=
  match file with
  | Present (Json data) => StateData.variables data
  | _ => ∅
  end.

(* ===================================================================== *)
(** ** Vocabulary of the properties: profile text *)
(* ===================================================================== *)

(** The parsing rules as the specification words them, for comparison with
    [parseVariables]. *)
Module Spec.

(** Stripping one pair of surrounding matching quotes: the value has an
    opening and a closing quote of the same kind, two characters at least. *)
Definition stripQuotePair (value : string) : string :=
  if decide (2 ≤ String.length value) then
    if (startsWith value (chr QUOTATION) && endsWith value (chr QUOTATION))
       || (startsWith value "'" && endsWith value "'")
    then slice value 1 (String.length value - 1)
    else value
  else value.

(** One line: blank lines and comments are ignored, lines without an equals
    sign are skipped, the others give a trimmed key and a trimmed, unquoted
    value, and an entry with an empty key is dropped. *)
Definition parseLine (variables : gmap string string) (line : string)
  : gmap string string :=
  let trimmed := trim line in
  if isEmpty trimmed || startsWith trimmed "#" then variables
  else
    match indexOf trimmed "=" with
    | None => variables
    | Some eqIndex =>
        let key := trim (slice trimmed 0 eqIndex) in
        let value := stripQuotePair (trim (sliceFrom trimmed (eqIndex + 1))) in
        if isEmpty key then variables else <[key := value]> variables
    end.

Definition parseVariables (content : string) : gmap string string :=
  foldl parseLine ∅ (split_lines content).

End Spec.

(* ===================================================================== *)
(** ** Vocabulary of the properties: wrapper block *)
(* ===================================================================== *)

(** A run of [n] line feeds. *)
Fixpoint newlines (n : nat) : string :=
  match n with
  | 0 => EmptyString
  | S n' => String LF (newlines n')
  end.

Fixpoint noLineFeed (s : string) : bool :=
  match s with
  | EmptyString => true
  | String c s' => if decide (c = LF) then false else noLineFeed s'
  end.

(** A text that fits on one line: not empty, no line feed.  Both markers
    are such. *)
Definition lineText (s : string) : bool := negb (isEmpty s) && noLineFeed s.

(** The text holds neither marker. *)
Definition markerFree (s : string) : Prop :=
  occurrences s getMarkerStart = 0 ∧ occurrences s getMarkerEnd = 0.

(** The text holds each marker once. *)
Definition oneBlock (s : string) : Prop :=
  occurrences s getMarkerStart = 1 ∧ occurrences s getMarkerEnd = 1.

(** What [addWrapper] appends after the separator. *)
Definition installed (shell : ShellType) : string :=
  getFullWrapperBlock shell +:+ chr LF.

(* ===================================================================== *)
(** ** Vocabulary of the properties: rendered statements *)
(* ===================================================================== *)

Fixpoint noBackslash (s : string) : bool :=
  match s with
  | EmptyString => true
  | String c s' => if decide (c = BACKSLASH) then false else noBackslash s'
  end.

(** The dialects and values for which the rendered statement reads back:
    bash and zsh with any value, fish with a value free of backslashes. *)
Definition readsBack (shell : ShellType) (value : string) : Prop :=
  shell = bash ∨ shell = zsh ∨ (shell = fish ∧ noBackslash value = true).

(** What precedes the quoted value in the statement. *)
Definition assignmentPrefix (shell : ShellType) (key : string) : string :=
  match shell with
  | fish => "set -gx " +:+ key +:+ " "
  | _ => "export " +:+ key +:+ "="
  end.

(** The values that fish reads back from between the single quotes: no
    backslash stands before a backslash or an apostrophe, or at the end.
    Inside single quotes fish takes a backslash before one of these two
    characters as an escape, and the closing quote follows the value. *)
Fixpoint fishPlain (s : string) : bool :=
  match s with
  | EmptyString => true
  | String c rest =>
      if decide (c = BACKSLASH)
      then match rest with
           | EmptyString => false
           | String d _ =>
               negb (bool_decide (d = APOSTROPHE ∨ d = BACKSLASH))
               && fishPlain rest
           end
      else fishPlain rest
  end.

(** A value that carries a command: backslash, apostrophe, the command
    between semicolons, backslash, apostrophe. *)
Definition fishInjection : string := "\'; id; echo \'".

(* ===================================================================== *)
(** ** core/ProfileStore.ts, continued *)
(* ===================================================================== *)

Record ProfileMetadata : Type := mkProfileMetadata
  { description : string; tags : list string }.

(** [loadProfile(name) !== null]. *)
Definition profileExists (store : ProfileStore) (name : string) : bool :=
  bool_decide (loadProfile store name ≠ None).

(** [parts.join(separator)]. *)
Fixpoint join (separator : string) (parts : list string) : string :=
  match parts with
  | [] => EmptyString
  | [part] => part
  | part :: rest => part +:+ separator +:+ join separator rest
  end.

(** The [replace] of [generateProfileContent]: a backslash goes before every
    double quote. *)
Fixpoint escapeQuotes (value : string) : string :=
  match value with
  | EmptyString => EmptyString
  | String c rest =>
      if decide (c = QUOTATION)
      then String BACKSLASH (String QUOTATION (escapeQuotes rest))
      else String c (escapeQuotes rest)
  end.

(** The line [generateProfileContent] writes for one variable. *)
Definition renderVariable (entry : string * string) : string :=
  if includes entry.2 " " || includes entry.2 (chr QUOTATION)
     || includes entry.2 "'"
  then entry.1 +:+ "=" +:+ quoted (escapeQuotes entry.2)
  else entry.1 +:+ "=" +:+ entry.2.

Definition generateProfileContent (metadata : ProfileMetadata)
    (variables : gmap string string) : string :=
  let header :=
    (if isEmpty (description metadata) then []
     else ["# @description: " +:+ description metadata])
    ++ (if decide (0 < length (tags metadata))
        then ["# @tags: " +:+ join ", " (tags metadata)] else []) in
  let lines :=
    header ++ (if decide (0 < length header) then [EmptyString] else [])
    ++ (renderVariable <$> JsObject.entries variables) in
  join_lines lines +:+ chr LF.

(* ===================================================================== *)
(** ** core/StateManager.ts, continued *)
(* ===================================================================== *)

Definition clear (now : string) : Backing * StateData.t :=
  let emptyState := getEmptyState now in (save emptyState, emptyState).

Definition getActiveProfiles (now : string) (file : Backing)
  : result (list string) :=
  match load now file with
  | Ok state => Ok (StateData.active_profiles state)
  | Throw message => Throw message
  end.

Definition hasActiveProfiles (now : string) (file : Backing) : result bool :=
  match getActiveProfiles now file with
  | Ok profiles => Ok (bool_decide (0 < length profiles))
  | Throw message => Throw message
  end.

Definition removeProfiles (now : string) (file : Backing)
    (profilesToRemove : list string)
    (remainingVariables : gmap string EnvVariable)
    (variablesToUnset : list string) : result (Backing * StateData.t) :=
  match load now file with
  | Throw message => Throw message
  | Ok currentState =>
      let profiles :=
        filter (λ p, p ∉ profilesToRemove)
               (StateData.active_profiles currentState) in
      let snapshot :=
        foldl (λ (snapshot : gmap string (option string)) (key : string),
                 delete key snapshot)
              (StateData.snapshot currentState) variablesToUnset in
      let newState :=
        StateData.make profiles remainingVariables snapshot now in
      Ok (save newState, newState)
  end.

(* ===================================================================== *)
(** ** core/ShellAdapter.ts, continued *)
(* ===================================================================== *)

Definition generateExports (shell : ShellType)
    (variables : gmap string string) : string :=
  join_lines ((λ entry : string * string,
                 generateExport shell entry.1 entry.2)
              <$> JsObject.entries variables).

Definition generateUnsets (shell : ShellType) (variables : list string)
  : string :=
  join_lines (generateUnset shell <$> variables).

Definition generateCommands (shell : ShellType)
    (toSet : gmap string string) (toUnset : list string) : string :=
  join_lines
    ((if decide (0 < length toUnset)
      then [generateUnsets shell toUnset] else [])
     ++ (if decide (0 < length (JsObject.keys toSet))
         then [generateExports shell toSet] else [])).

(* ===================================================================== *)
(** ** commands: the runs with [--emit-shell] *)
(* ===================================================================== *)

Global Instance fetched_eq_dec {V} `{EqDecision V}
  : EqDecision (JsObject.fetched V).
Proof. solve_decision. Defined.

(** Sequencing of calls that may throw. *)
Global Instance result_bind : MBind result :=
  λ _ _ f m, match m with Ok a => f a | Throw message => Throw message end.

(** The commands are modelled in the mode the shell wrapper runs them in
    first, [--emit-shell], and without [--persist] or [--global].

    What such a run leaves behind when it ends with status 0: the text it
    printed for the wrapper to evaluate, and the state file.  [toSet] and
    [toUnset] are the locals of those names (in [reset], [toRestore] and
    [toUnset]) from which the text was rendered.  A run that ends with
    status 1 is a [Throw]: it has printed no text and the state file is as
    it was.  The message is the one the [catch] block reports; it is empty
    for the silent [process.exit(1)]. *)
Module Emission.
Record t : Type := make
  { toSet : gmap string string;
    toUnset : list string;
    commands : string;
    stateFile : Backing }.
End Emission.

(** The check at the head of [use] and [add]; with [--emit-shell] a missing
    profile ends the process without a message. *)
Fixpoint validateProfiles (store : ProfileStore) (profileNames : list string)
  : result unit :=
  match profileNames with
  | [] => Ok tt
  | name :: rest =>
      if profileExists store name then validateProfiles store rest
      else Throw EmptyString
  end.

(** A record whose values were all found to be strings.  A value that is
    [undefined], a function or an object makes [sanitizeForShell], and so
    [generateExports], throw a [TypeError] with the given message. *)
Definition stringValues {V} (asString : V → option string)
    (message : string) (record : gmap string V)
  : result (gmap string string) :=
  if decide (map_Forall (λ _ v, is_Some (asString v)) record)
  then Ok (omap asString record)
  else Throw message.

Definition undefinedValue : string :=
  "Cannot read properties of undefined (reading 'replace')".
Definition notAString : string := "value.replace is not a function".

(** [use <profiles...> --emit-shell]. *)
Definition useCommand (shell : ShellType) (store : ProfileStore)
    (now : string) (env : string → option string) (file : Backing)
    (profileNames : list string) : result Emission.t :=
  _ ← validateProfiles store profileNames;
  resolved ← resolve store profileNames;
  currentState ← load now file;
  let currentVars := StateData.variables currentState in
  let toSet :=
    foldl (λ (toSet : gmap string string) (entry : string * EnvVariable),
             JsObject.assign toSet entry.1 (value entry.2))
          ∅ (JsObject.entries (ResolvedEnv.variables resolved)) in
  let toUnset :=
    filter (λ key, JsObject.truthy (ResolvedEnv.variables resolved) key = false)
           (JsObject.keys currentVars) in
  let commands := generateCommands shell toSet toUnset in
  updated ← update now env file profileNames (ResolvedEnv.variables resolved);
  Ok (Emission.make toSet toUnset commands updated.1).

(** [add <profiles...> --emit-shell]. *)
Definition addCommand (shell : ShellType) (store : ProfileStore)
    (now : string) (env : string → option string) (file : Backing)
    (profileNames : list string) : result Emission.t :=
  _ ← validateProfiles store profileNames;
  currentState ← load now file;
  let currentProfiles := StateData.active_profiles currentState in
  let newProfiles := filter (λ p, p ∉ currentProfiles) profileNames in
  if decide (length newProfiles = 0)
  then Ok (Emission.make ∅ [] EmptyString file)
  else
    let allProfiles := currentProfiles ++ newProfiles in
    resolved ← resolve store allProfiles;
    let toSet :=
      foldl (diffSetStep (StateData.variables currentState)) ∅
            (JsObject.entries (ResolvedEnv.variables resolved)) in
    let commands := generateExports shell toSet in
    updated ← addProfiles now env file newProfiles
                (ResolvedEnv.variables resolved);
    Ok (Emission.make toSet [] commands updated.1).

(** [envVar.value] where [envVar] is what [toKeep[key]] holds: a member of
    [Object.prototype] has no [value], so the read gives [undefined]. *)
Definition fetchedValue (found : JsObject.fetched EnvVariable)
  : option string :=
  match found with
  | JsObject.Own envVar => Some (value envVar)
  | JsObject.Member _ => None
  end.

(** The body of the loop of [remove] that fills [toSet]: the test
    [current && current.value !== envVar.value]. *)
Definition removeSetStep (currentVars : gmap string EnvVariable)
    (toSet : gmap string (option string))
    (entry : string * JsObject.fetched EnvVariable)
  : gmap string (option string) :=
  match JsObject.get currentVars entry.1 with
  | None => toSet
  | Some current =>
      if decide (fetchedValue current ≠ fetchedValue entry.2)
      then JsObject.assign toSet entry.1 (fetchedValue entry.2)
      else toSet
  end.

(** What [JSON.stringify] writes of a record of [toKeep]: a property whose
    value is a function is left out. *)
Definition stringified (toKeep : gmap string (JsObject.fetched EnvVariable))
  : gmap string EnvVariable :=
  omap (λ found, match found with
                 | JsObject.Own envVar => Some envVar
                 | JsObject.Member _ => None
                 end) toKeep.

(** [remove <profiles...> --emit-shell].  [removeProfiles] is handed
    [toKeep]; the state file then holds what [JSON.stringify] writes of
    it. *)
Definition removeCommand (shell : ShellType) (store : ProfileStore)
    (now : string) (file : Backing) (profileNames : list string)
  : result Emission.t :=
  currentState ← load now file;
  let currentProfiles := StateData.active_profiles currentState in
  let toRemove := filter (λ p, p ∈ currentProfiles) profileNames in
  if decide (length toRemove = 0)
  then Ok (Emission.make ∅ [] EmptyString file)
  else
    let remainingProfiles := filter (λ p, p ∉ toRemove) currentProfiles in
    removal ← computeRemoval store (StateData.variables currentState)
                remainingProfiles;
    let toSet :=
      foldl (removeSetStep (StateData.variables currentState)) ∅
            (JsObject.entries (Removal.toKeep removal)) in
    exported ← stringValues id undefinedValue toSet;
    let commands := generateCommands shell exported (Removal.toUnset removal) in
    updated ← removeProfiles now file toRemove
                (stringified (Removal.toKeep removal))
                (Removal.toUnset removal);
    Ok (Emission.make exported (Removal.toUnset removal) commands updated.1).

(** The body of the loop of [reset]; the accumulator is the pair of
    [toUnset] and [toRestore].  [state.snapshot[key]] is [null] or
    [undefined], a string, or a member of [Object.prototype]. *)
Definition resetStep (snapshot : gmap string (option string))
    (acc : list string * gmap string (JsObject.fetched string))
    (entry : string * EnvVariable)
  : list string * gmap string (JsObject.fetched string) :=
  match JsObject.get snapshot entry.1 with
  | None | Some (JsObject.Own None) => (acc.1 ++ [entry.1], acc.2)
  | Some (JsObject.Own (Some snapshotValue)) =>
      (acc.1, JsObject.assign acc.2 entry.1 (JsObject.Own snapshotValue))
  | Some (JsObject.Member k) =>
      (acc.1, JsObject.assign acc.2 entry.1 (JsObject.Member k))
  end.

Definition ownString (found : JsObject.fetched string) : option string :=
  match found with
  | JsObject.Own s => Some s
  | JsObject.Member _ => None
  end.

(** [reset --emit-shell]. *)
Definition resetCommand (shell : ShellType) (now : string) (file : Backing)
  : result Emission.t :=
  state ← load now file;
  active ← hasActiveProfiles now file;
  if negb active then Ok (Emission.make ∅ [] EmptyString file)
  else
    let collected :=
      foldl (resetStep (StateData.snapshot state)) ([], ∅)
            (JsObject.entries (StateData.variables state)) in
    let unsetCommands := generateUnsets shell collected.1 in
    toRestore ← stringValues ownString notAString collected.2;
    let restoreCommands := generateExports shell toRestore in
    let commands :=
      join_lines (filter (λ part, isEmpty part = false)
                         [unsetCommands; restoreCommands]) in
    Ok (Emission.make toRestore collected.1 commands (clear now).1).

(* ===================================================================== *)
(** ** A shell session driven through the wrapper *)
(* ===================================================================== *)

(** What evaluating the printed text does to the exported variables: the
    unset statements come first, then the assignments. *)
Definition applyPlan (toSet : gmap string string) (toUnset : list string)
    (environment : gmap string string) : gmap string string :=
  toSet ∪ foldl (λ (environment : gmap string string) (key : string),
                   delete key environment)
                environment toUnset.

(** The state file and the exported variables of the shell. *)
Record Session : Type := mkSession
  { sessionFile : Backing; environment : gmap string string }.

(** The commands the wrapper evaluates, each with the time of its run. *)
Inductive Invocation : Type :=
| Use (now : string) (profileNames : list string)
| Add (now : string) (profileNames : list string)
| Remove (now : string) (profileNames : list string)
| Reset (now : string).

(** The run with [--emit-shell] of an invocation; [process.env] is the
    environment of the shell. *)
Definition emit (shell : ShellType) (store : ProfileStore)
    (session : Session) (invocation : Invocation) : result Emission.t :=
  let env := λ key, environment session !! key in
  match invocation with
  | Use now profileNames =>
      useCommand shell store now env (sessionFile session) profileNames
  | Add now profileNames =>
      addCommand shell store now env (sessionFile session) profileNames
  | Remove now profileNames =>
      removeCommand shell store now (sessionFile session) profileNames
  | Reset now => resetCommand shell now (sessionFile session)
  end.

(** One invocation through the wrapper, when its run with [--emit-shell]
    ends with status 0 and the shell carries out the printed plan.  [None]
    when the run fails; the wrapper then runs the command again in its
    default mode. *)
Definition invoke (shell : ShellType) (store : ProfileStore)
    (session : Session) (invocation : Invocation) : option Session :=
  match emit shell store session invocation with
  | Ok emission =>
      Some (mkSession (Emission.stateFile emission)
              (applyPlan (Emission.toSet emission) (Emission.toUnset emission)
                         (environment session)))
  | Throw _ => None
  end.

(* ===================================================================== *)
(** ** How the shells read the printed text *)
(* ===================================================================== *)

(** The printed text as a script: one statement per line, read by the rules
    of [Shell].  This is how [eval "$output"] reads it in bash and zsh, and
    how fish reads it when it sources it.  A value that holds a line feed is
    outside this fragment. *)
Module Script.

Inductive statement : Type :=
| Assign (name value : string)
| Erase (name : string)
| Blank.

(** [unset NAME] in bash and zsh, [set -e NAME] in fish. *)
Definition unsetStatement (shell : ShellType) (line : string)
  : option string :=
  match shell with
  | bash | zsh =>
      if startsWith line "unset " && Shell.isName (drop 6 line)
      then Some (drop 6 line) else None
  | fish =>
      if startsWith line "set -e " && Shell.isName (drop 7 line)
      then Some (drop 7 line) else None
  | unknown => None
  end.

Definition read (shell : ShellType) (line : string) : option statement :=
  if isEmpty line then Some Blank
  else match Shell.evaluate shell line with
       | Some assigned => Some (Assign assigned.1 assigned.2)
       | None => Erase <$> unsetStatement shell line
       end.

Definition execute (st : statement) (environment : gmap string string)
  : gmap string string :=
  match st with
  | Assign name value => <[name := value]> environment
  | Erase name => delete name environment
  | Blank => environment
  end.

Fixpoint evalLines (shell : ShellType) (lines : list string)
    (environment : gmap string string) : option (gmap string string) :=
  match lines with
  | [] => Some environment
  | line :: rest =>
      match read shell line with
      | Some st => evalLines shell rest (execute st environment)
      | None => None
      end
  end.

(** Evaluating the whole text. *)
Definition eval (shell : ShellType) (text : string)
    (environment : gmap string string) : option (gmap string string) :=
  evalLines shell (split_lines text) environment.

End Script.





(* ===================================================================== *)
(** ** Vocabulary of the properties: sessions *)
(* ===================================================================== *)

(** The active profiles recorded in the state file ([getActiveProfiles]). *)
Definition activeOf (file : Backing) : list string :=
  match file with
  | Present (Json data) => StateData.active_profiles data
  | _ => []
  end.

(** Every variable the state file tracks is exported with the value the
    file records for it. *)
Definition consistent (session : Session) : Prop :=
  ∀ key envVar,
    variablesOf (sessionFile session) !! key = Some envVar →
    environment session !! key = Some (value envVar).




(** The state files on which the embedding stands for the code.  The
    embedding lets [save] succeed, takes the JSON text of a state file to be
    the text of a [StateData], and lets the profile files that exist be
    read.  A state path that cannot be read, a directory for one, cannot be
    written either, so it is left out where a property says that a call
    returns. *)
Definition regular (file : Backing) : Prop := file ≠ Unreadable.





(** The plan can be written in the fragment of [Shell]: the variables are
    names, and the values fit on a line and read back in the dialect. *)
Definition renderable (shell : ShellType) (toSet : gmap string string)
    (toUnset : list string) : Prop :=
  shell ≠ unknown ∧
  map_Forall (λ key v, Shell.isName key = true ∧ noLineFeed v = true
                       ∧ readsBack shell v) toSet ∧
  Forall (λ key, Shell.isName key = true) toUnset.

(** A state file for the third scenario of the specification: [p1] and [p2]
    of [sharedStore] are active, and [p2] won [SHARED]. *)
Definition sharedFile : Backing :=
  save (StateData.make ["p1"; "p2"]
          {[ "KEY1" := mkEnvVariable "1" "p1";
             "SHARED" := mkEnvVariable "b" "p2" ]}
          {[ "KEY1" := None; "SHARED" := Some "orig" ]} "t1").

(** A state file that tracks a variable named like a member of
    [Object.prototype], as [update] leaves it: without a snapshot entry. *)
Definition inheritedFile : Backing :=
  save (StateData.make ["p"]
          {[ "constructor" := mkEnvVariable "1" "p" ]} ∅ "t1").

(* ===================================================================== *)
(** ** Vocabulary of the properties: writing profiles *)
(* ===================================================================== *)

(** A variable name that [parseVariables] reads back as it is: not empty,
    without surrounding white space, without an equals sign or a line feed,
    not starting a comment, and not [__proto__]. *)
Definition plainKey (key : string) : Prop :=
  isEmpty key = false ∧ trim key = key ∧ includes key "=" = false
  ∧ startsWith key "#" = false ∧ noLineFeed key = true
  ∧ key ≠ "__proto__".

(** A value that [generateProfileContent] writes so that [parseVariables]
    reads it back: on one line, without a double quote, and either quoted
    when written (it holds a space or an apostrophe) or without surrounding
    white space. *)
Definition plainValue (v : string) : Prop :=
  noLineFeed v = true ∧ includes v (chr QUOTATION) = false
  ∧ (includes v " " = true ∨ includes v "'" = true ∨ trim v = v).

(** A profile for the examples of writing. *)
Definition exampleMetadata : ProfileMetadata :=
  mkProfileMetadata "Claude config" ["ai"; "dev"].

Definition exampleVariables : gmap string string :=
  {[ "CLAUDE_MODEL" := "opus"; "GREETING" := "it's a test" ]}.

(** What [use p1 p2] emits for [exampleStore] in a fresh session where
    [KEY1] is exported as [orig]. *)
Definition exampleSession : Session :=
  mkSession Absent {[ "KEY1" := "orig" ]}.

Definition exampleEmission : Emission.t :=
  Emission.make
    {[ "KEY1" := "b"; "KEY2" := "c" ]} []
    ("export KEY1='b'" +:+ chr LF +:+ "export KEY2='c'")
    (save (StateData.make ["p1"; "p2"]
             {[ "KEY1" := mkEnvVariable "b" "p2";
                "KEY2" := mkEnvVariable "c" "p2" ]}
             {[ "KEY1" := Some "orig"; "KEY2" := None ]} "t1")).

(* ===================================================================== *)
(** * Properties of the resolver *)
(* ===================================================================== *)

Lemma assign_lookup {V} (o : gmap string V) k v k' :
  k ≠ "__proto__" →
  JsObject.assign o k v !! k' = if decide (k = k') then Some v else o !! k'.
Proof.
  intros Hk. unfold JsObject.assign. rewrite decide_False by done.
  apply lookup_insert.
Qed.

Lemma assign_proto {V} (o : gmap string V) v :
  JsObject.assign o "__proto__" v = o.
Proof. done. Qed.

Lemma JsMap_get_set {V} (m : list (string * V)) k v k' :
  JsMap.get (JsMap.set m k v) k' = if decide (k = k') then Some v else JsMap.get m k'.
Proof.
  induction m as [|[k0 v0] m IH]; simpl.
  - done.
  - destruct (decide (k0 = k)) as [->|Hne]; simpl.
    + destruct (decide (k = k')); done.
    + destruct (decide (k0 = k')) as [->|]; [|done].
      by rewrite decide_False.
Qed.

Lemma JsMap_set_keys {V} (m : list (string * V)) k v k' :
  k' ∈ (JsMap.set m k v).*1 ↔ k' = k ∨ k' ∈ m.*1.
Proof.
  induction m as [|[k0 v0] m IH]; simpl.
  - rewrite list_elem_of_singleton, elem_of_nil. tauto.
  - destruct (decide (k0 = k)) as [->|Hne]; simpl;
      rewrite !elem_of_cons; [tauto|rewrite IH; tauto].
Qed.

Lemma JsMap_set_NoDup {V} (m : list (string * V)) k v :
  NoDup m.*1 → NoDup (JsMap.set m k v).*1.
Proof.
  induction m as [|[k0 v0] m IH]; simpl; intros Hnd.
  - apply NoDup_singleton.
  - apply NoDup_cons in Hnd as [Hni Hnd].
    destruct (decide (k0 = k)) as [->|Hne]; simpl.
    + by apply NoDup_cons.
    + apply NoDup_cons. split; [|by apply IH].
      rewrite JsMap_set_keys. intros [?|?]; [congruence|done].
Qed.

Lemma JsMap_get_None {V} (m : list (string * V)) k :
  JsMap.get m k = None ↔ k ∉ m.*1.
Proof.
  induction m as [|[k0 v0] m IH]; simpl.
  - split; [intros _; apply not_elem_of_nil|done].
  - rewrite not_elem_of_cons.
    destruct (decide (k0 = k)) as [->|Hne].
    + split; [done|]. intros [Hk _]. by destruct Hk.
    + rewrite IH. split; [by intros ?; split; [congruence|]|by intros [_ ?]].
Qed.

Lemma mergeEntries_spec (n : string) (l : list (string * string)) :
  ∀ acc : merge_state,
  NoDup l.*1 → "__proto__" ∉ l.*1 →
  (∀ key, (foldl (mergeEntry n) acc l).1 !! key =
     match (list_to_map l : gmap string string) !! key with
     | Some v => Some (mkEnvVariable v n)
     | None => acc.1 !! key
     end) ∧
  (∀ key, JsMap.get (foldl (mergeEntry n) acc l).2 key =
     match (list_to_map l : gmap string string) !! key with
     | Some _ => Some (default [] (JsMap.get acc.2 key) ++ [n])
     | None => JsMap.get acc.2 key
     end) ∧
  (NoDup acc.2.*1 → NoDup (foldl (mergeEntry n) acc l).2.*1).
Proof.
  induction l as [|[k v] l IH]; intros acc Hnd Hproto.
  - done.
  - simpl in Hnd, Hproto. apply NoDup_cons in Hnd as [Hk Hnd].
    apply not_elem_of_cons in Hproto as [Hkp Hproto].
    destruct (IH (mergeEntry n acc (k, v)) Hnd Hproto) as (Hv & Hs & Hd).
    assert (Hnone : (list_to_map l : gmap string string) !! k = None)
      by by apply not_elem_of_list_to_map_1.
    split_and!.
    + intros key. simpl. rewrite Hv. simpl.
      rewrite assign_lookup by done. rewrite lookup_insert.
      destruct (decide (k = key)) as [->|]; [by rewrite Hnone|done].
    + intros key. simpl. rewrite Hs. simpl.
      rewrite JsMap_get_set. rewrite lookup_insert.
      destruct (decide (k = key)) as [->|]; [by rewrite Hnone|done].
    + intros Hacc. simpl. apply Hd. simpl. by apply JsMap_set_NoDup.
Qed.

Lemma mergeProfile_spec (p : Profile.t) (acc : merge_state) :
  wellFormed p →
  (∀ key, (mergeProfile p acc).1 !! key =
     match Profile.variables p !! key with
     | Some v => Some (mkEnvVariable v (Profile.name p))
     | None => acc.1 !! key
     end) ∧
  (∀ key, JsMap.get (mergeProfile p acc).2 key =
     match Profile.variables p !! key with
     | Some _ => Some (default [] (JsMap.get acc.2 key) ++ [Profile.name p])
     | None => JsMap.get acc.2 key
     end) ∧
  (NoDup acc.2.*1 → NoDup (mergeProfile p acc).2.*1).
Proof.
  intros Hwf. unfold mergeProfile, JsObject.entries.
  pose proof (mergeEntries_spec (Profile.name p)
                (map_to_list (Profile.variables p)) acc) as H.
  rewrite list_to_map_to_list in H. apply H.
  - apply NoDup_fst_map_to_list.
  - intros Hin. apply list_elem_of_fmap in Hin as ([k v] & Heq & Hin).
    apply elem_of_map_to_list in Hin. simpl in Heq. subst k.
    unfold wellFormed in Hwf. congruence.
Qed.

Lemma setters_snoc key ps p :
  setters key (ps ++ [p]) =
  setters key ps ++ (if decide (is_Some (Profile.variables p !! key)) then [p] else []).
Proof.
  unfold setters. by rewrite filter_app.
Qed.

Lemma Merged_nil : Merged [] (∅, []).
Proof.
  split; [|split]; simpl.
  - intros key. apply lookup_empty.
  - done.
  - constructor.
Qed.

Lemma Merged_step ps acc p :
  wellFormed p → Merged ps acc → Merged (ps ++ [p]) (mergeProfile p acc).
Proof.
  intros Hwf (Hv & Hs & Hd).
  destruct (mergeProfile_spec p acc Hwf) as (Hv' & Hs' & Hd').
  split_and!.
  - intros key. rewrite Hv'. unfold lastWins. rewrite setters_snoc.
    destruct (Profile.variables p !! key) as [v|] eqn:Hp.
    + rewrite decide_True by eauto. rewrite last_snoc. simpl. by rewrite Hp.
    + rewrite decide_False by (intros [? ?]; done).
      rewrite app_nil_r. apply Hv.
  - intros key. rewrite Hs'. rewrite setters_snoc.
    destruct (Profile.variables p !! key) as [v|] eqn:Hp.
    + rewrite decide_True by eauto. rewrite Hs.
      destruct (setters key ps) as [|q qs]; simpl; [done|].
      by rewrite fmap_app.
    + rewrite decide_False by (intros [? ?]; done).
      rewrite app_nil_r. apply Hs.
  - by apply Hd'.
Qed.

Lemma Merged_foldl qs : ∀ ps acc,
  Forall wellFormed qs → Merged ps acc →
  Merged (ps ++ qs) (foldl (λ acc profile, mergeProfile profile acc) acc qs).
Proof.
  induction qs as [|q qs IH]; intros ps acc Hwf HM; simpl.
  - by rewrite app_nil_r.
  - apply Forall_cons in Hwf as [Hq Hqs].
    replace (ps ++ q :: qs) with ((ps ++ [q]) ++ qs) by by rewrite <- app_assoc.
    apply IH; [done|]. by apply Merged_step.
Qed.

Lemma detectConflicts_cons k srcs (m : list (string * list string)) :
  detectConflicts ((k, srcs) :: m) =
  (if decide (1 < length srcs)
   then [mkConflict k srcs (default EmptyString (srcs !! (length srcs - 1)))]
   else []) ++ detectConflicts m.
Proof.
  unfold detectConflicts. simpl. by destruct (decide (1 < length srcs)).
Qed.

Lemma detectConflicts_on (m : list (string * list string)) key :
  NoDup m.*1 →
  filter (λ c, variable c = key) (detectConflicts m) =
  match JsMap.get m key with
  | Some sources =>
      if decide (1 < length sources)
      then [mkConflict key sources
              (default EmptyString (sources !! (length sources - 1)))]
      else []
  | None => []
  end.
Proof.
  induction m as [|[k srcs] m IH]; intros Hnd; [done|].
  simpl in Hnd. apply NoDup_cons in Hnd as [Hk Hnd].
  rewrite detectConflicts_cons, filter_app, IH by done. simpl.
  destruct (decide (k = key)) as [->|Hne].
  - assert (JsMap.get m key = None) as -> by by apply JsMap_get_None.
    rewrite app_nil_r.
    destruct (decide (1 < length srcs)); [|done].
    rewrite filter_cons. simpl. by rewrite decide_True.
  - destruct (decide (1 < length srcs)); [|done].
    rewrite filter_cons. simpl. by rewrite decide_False.
Qed.

Lemma last_index {A} (l : list A) : l !! (length l - 1) = last l.
Proof.
  rewrite last_lookup. f_equal. lia.
Qed.

Lemma finish_Merged ps acc :
  Merged ps acc →
  (∀ key, ResolvedEnv.variables (finish acc) !! key = lastWins key ps) ∧
  (∀ key, conflictsOn key (finish acc) = expectedConflicts key ps).
Proof.
  intros (Hv & Hs & Hd). split; [exact Hv|].
  intros key. unfold conflictsOn, finish, expectedConflicts. simpl.
  rewrite detectConflicts_on by done. rewrite Hs.
  destruct (setters key ps) as [|q qs] eqn:Hq; [done|].
  rewrite last_index. done.
Qed.

Lemma resolveProfiles_spec ps :
  Forall wellFormed ps →
  (∀ key, ResolvedEnv.variables (resolveProfiles ps) !! key = lastWins key ps) ∧
  (∀ key, conflictsOn key (resolveProfiles ps) = expectedConflicts key ps).
Proof.
  intros Hwf. apply finish_Merged.
  apply (Merged_foldl ps [] (∅, []) Hwf Merged_nil).
Qed.

Lemma assign_no_proto {V} (o : gmap string V) k v :
  o !! "__proto__" = None → JsObject.assign o k v !! "__proto__" = None.
Proof.
  intros Ho. unfold JsObject.assign.
  destruct (decide (k = "__proto__")); [done|]. by rewrite lookup_insert_ne.
Qed.

Lemma parseLine_no_proto variables line :
  variables !! "__proto__" = None →
  parseLine variables line !! "__proto__" = None.
Proof.
  intros H. unfold parseLine.
  destruct (isEmpty (trim line) || startsWith (trim line) "#"); [done|].
  destruct (indexOf (trim line) "="); [|done].
  destruct (isEmpty _); [done|]. by apply assign_no_proto.
Qed.

Lemma parseVariables_wellFormed content :
  parseVariables content !! "__proto__" = None.
Proof.
  unfold parseVariables.
  assert (∀ lines (m : gmap string string),
            m !! "__proto__" = None →
            foldl parseLine m lines !! "__proto__" = None) as H.
  { induction lines as [|l lines IH]; intros m Hm; simpl; [done|].
    apply IH. by apply parseLine_no_proto. }
  apply H. apply lookup_empty.
Qed.

Lemma loadProfile_Some store name p :
  loadProfile store name = Some p → wellFormed p ∧ Profile.name p = name.
Proof.
  unfold loadProfile, loadProfileFromPath, wellFormed.
  destruct (localDir store name); [|destruct (globalDir store name)];
    intros [= <-]; simpl; split; auto using parseVariables_wellFormed.
Qed.

Lemma loadProfile_None store name :
  loadProfile store name = None ↔ missing store name.
Proof.
  unfold loadProfile, missing.
  destruct (localDir store name); [|destruct (globalDir store name)];
    split; try done; intros [? ?]; done.
Qed.

Lemma loadAll_wellFormed store names ps :
  mapM (loadProfile store) names = Some ps → Forall wellFormed ps.
Proof.
  rewrite mapM_Some. induction 1 as [|n p names ps Hp _ IH]; constructor.
  - by apply loadProfile_Some in Hp as [? _].
  - done.
Qed.

Lemma resolveLoop_loaded store names ps :
  mapM (loadProfile store) names = Some ps →
  ∀ acc, resolveLoop store names acc =
         Ok (foldl (λ acc profile, mergeProfile profile acc) acc ps).
Proof.
  rewrite mapM_Some. induction 1 as [|n p names ps Hp _ IH]; intros acc; simpl.
  - done.
  - rewrite Hp. apply IH.
Qed.

Lemma resolve_loaded store names ps :
  mapM (loadProfile store) names = Some ps →
  resolve store names = Ok (resolveProfiles ps).
Proof.
  intros H. unfold resolve, resolveProfiles.
  by rewrite (resolveLoop_loaded _ _ _ H).
Qed.

Lemma resolveLoop_missing store before name after :
  Forall (λ n, ¬ missing store n) before → missing store name →
  ∀ acc, resolveLoop store (before ++ name :: after) acc =
         Throw ("Profile not found: " +:+ name).
Proof.
  intros Hb Hm. induction Hb as [|n before Hn _ IH]; intros acc; simpl.
  - apply loadProfile_None in Hm. by rewrite Hm.
  - destruct (loadProfile store n) eqn:Hl.
    + apply IH.
    + apply loadProfile_None in Hl. done.
Qed.

Lemma loadAll_present store names :
  Forall (λ n, ¬ missing store n) names →
  ∃ ps, mapM (loadProfile store) names = Some ps.
Proof.
  induction 1 as [|n names Hn _ [ps IH]].
  - by exists [].
  - destruct (loadProfile store n) as [p|] eqn:Hl.
    + exists (p :: ps). apply mapM_Some. constructor; [done|].
      by apply mapM_Some.
    + apply loadProfile_None in Hl. done.
Qed.

Lemma setters_pair key p q :
  is_Some (Profile.variables p !! key) → is_Some (Profile.variables q !! key) →
  setters key [p; q] = [p; q].
Proof.
  intros Hp Hq. unfold setters.
  rewrite !filter_cons, filter_nil. by rewrite !decide_True.
Qed.

(** C1.  When every name of the list loads, [resolve] succeeds with the
    result of [resolveProfiles] on the loaded profiles; each key has the value
    and source given by the last profile of the list that sets it; the
    conflicts on a key are exactly one, listing the setters in order with the
    last as winner, when more than one profile sets it, and none otherwise;
    and swapping two profiles that share a key swaps the winner. *)
Theorem resolve_last_wins (store : ProfileStore) :
  (∀ names ps,
     mapM (loadProfile store) names = Some ps →
     ∃ env,
       resolve store names = Ok env ∧ resolveProfiles ps = env ∧
       (∀ key, ResolvedEnv.variables env !! key = lastWins key ps) ∧
       (∀ key, conflictsOn key env = expectedConflicts key ps)) ∧
  (∀ n1 n2 p1 p2 key v1 v2,
     loadProfile store n1 = Some p1 → loadProfile store n2 = Some p2 →
     Profile.variables p1 !! key = Some v1 →
     Profile.variables p2 !! key = Some v2 →
     ∃ e12 e21,
       resolve store [n1; n2] = Ok e12 ∧ resolve store [n2; n1] = Ok e21 ∧
       ResolvedEnv.variables e12 !! key = Some (mkEnvVariable v2 n2) ∧
       ResolvedEnv.variables e21 !! key = Some (mkEnvVariable v1 n1) ∧
       conflictsOn key e12 = [mkConflict key [n1; n2] n2] ∧
       conflictsOn key e21 = [mkConflict key [n2; n1] n1]).
Proof.
  assert (Hgen : ∀ names ps,
     mapM (loadProfile store) names = Some ps →
     ∃ env,
       resolve store names = Ok env ∧ resolveProfiles ps = env ∧
       (∀ key, ResolvedEnv.variables env !! key = lastWins key ps) ∧
       (∀ key, conflictsOn key env = expectedConflicts key ps)).
  { intros names ps Hload. exists (resolveProfiles ps).
    destruct (resolveProfiles_spec ps (loadAll_wellFormed _ _ _ Hload))
      as [Hv Hc].
    split_and!; auto using resolve_loaded. }
  split; [exact Hgen|].
  intros n1 n2 p1 p2 key v1 v2 H1 H2 Hk1 Hk2.
  destruct (loadProfile_Some _ _ _ H1) as [_ Hn1].
  destruct (loadProfile_Some _ _ _ H2) as [_ Hn2].
  destruct (Hgen [n1; n2] [p1; p2]) as (e12 & Hr12 & _ & Hv12 & Hc12).
  { simpl. by rewrite H1, H2. }
  destruct (Hgen [n2; n1] [p2; p1]) as (e21 & Hr21 & _ & Hv21 & Hc21).
  { simpl. by rewrite H1, H2. }
  exists e12, e21. split_and!; try done.
  - rewrite Hv12. unfold lastWins. rewrite setters_pair by eauto.
    simpl. rewrite Hk2, Hn2. reflexivity.
  - rewrite Hv21. unfold lastWins. rewrite setters_pair by eauto.
    simpl. rewrite Hk1, Hn1. reflexivity.
  - rewrite Hc12. unfold expectedConflicts. rewrite setters_pair by eauto.
    simpl. by rewrite Hn1, Hn2.
  - rewrite Hc21. unfold expectedConflicts. rewrite setters_pair by eauto.
    simpl. by rewrite Hn1, Hn2.
Qed.

Lemma resolve_last_wins_witness :
  mapM (loadProfile exampleStore) ["p1"; "p2"] = Some exampleProfiles ∧
  ∃ env,
    resolve exampleStore ["p1"; "p2"] = Ok env ∧
    resolveProfiles exampleProfiles = env ∧
    (∀ key, ResolvedEnv.variables env !! key = lastWins key exampleProfiles) ∧
    (∀ key, conflictsOn key env = expectedConflicts key exampleProfiles).
Proof.
  assert (H : mapM (loadProfile exampleStore) ["p1"; "p2"]
              = Some exampleProfiles) by (vm_compute; reflexivity).
  split; [exact H|].
  exact (proj1 (resolve_last_wins exampleStore) ["p1"; "p2"] exampleProfiles H).
Defined.

(** The first scenario of the specification. *)
Example resolve_scenario_1 :
  ∃ env, resolve exampleStore ["p1"; "p2"] = Ok env ∧
    ResolvedEnv.variables env
    = {[ "KEY1" := mkEnvVariable "b" "p2"; "KEY2" := mkEnvVariable "c" "p2" ]} ∧
    ResolvedEnv.conflicts env = [mkConflict "KEY1" ["p1"; "p2"] "p2"].
Proof. eexists. split; [reflexivity|]. split; vm_compute; reflexivity. Qed.

(** C5.  [resolve] throws the not-found error of the first name of the list
    that is in neither directory, and succeeds when every name is in one. *)
Theorem resolve_fail_fast (store : ProfileStore) (names : list string) :
  (∀ before name after,
     names = before ++ name :: after →
     Forall (λ n, ¬ missing store n) before → missing store name →
     resolve store names = Throw ("Profile not found: " +:+ name)) ∧
  (Forall (λ n, ¬ missing store n) names →
   ∃ env, resolve store names = Ok env).
Proof.
  split.
  - intros before name after -> Hb Hm. unfold resolve.
    by rewrite (resolveLoop_missing _ _ _ _ Hb Hm).
  - intros Hall. destruct (loadAll_present _ _ Hall) as [ps Hps].
    exists (resolveProfiles ps). by apply resolve_loaded.
Qed.

Lemma resolve_fail_fast_witness :
  ["p1"; "nope"; "p2"] = ["p1"] ++ "nope" :: ["p2"] ∧
  Forall (λ n, ¬ missing exampleStore n) ["p1"] ∧
  missing exampleStore "nope" ∧
  resolve exampleStore ["p1"; "nope"; "p2"] = Throw "Profile not found: nope".
Proof.
  assert (Hb : Forall (λ n, ¬ missing exampleStore n) ["p1"]).
  { constructor; [|constructor]. intros [H _]. discriminate H. }
  assert (Hm : missing exampleStore "nope") by (split; reflexivity).
  split; [reflexivity|]. split; [exact Hb|]. split; [exact Hm|].
  exact (proj1 (resolve_fail_fast exampleStore ["p1"; "nope"; "p2"])
           ["p1"] "nope" ["p2"] eq_refl Hb Hm).
Defined.

(** C10.  A name listed twice is loaded and merged twice: [resolve] succeeds
    and reports, for each variable of the profile, one conflict listing the
    name twice with that name as winner. *)
Theorem resolve_duplicate_name (store : ProfileStore) (name : string)
    (p : Profile.t) :
  loadProfile store name = Some p →
  ∃ env,
    resolve store [name; name] = Ok env ∧
    ∀ key, is_Some (Profile.variables p !! key) →
           conflictsOn key env = [mkConflict key [name; name] name].
Proof.
  intros Hl. exists (resolveProfiles [p; p]).
  destruct (loadProfile_Some _ _ _ Hl) as [Hwf Hn].
  split.
  - apply resolve_loaded. simpl. by rewrite Hl.
  - intros key Hk.
    destruct (resolveProfiles_spec [p; p]) as [_ Hc]; [by repeat constructor|].
    rewrite Hc. unfold expectedConflicts. rewrite setters_pair by done.
    simpl. by rewrite Hn.
Qed.

Lemma resolve_duplicate_name_witness :
  loadProfile exampleStore "p1" = Some (Profile.make "p1" true {[ "KEY1" := "a" ]}) ∧
  ∃ env,
    resolve exampleStore ["p1"; "p1"] = Ok env ∧
    ∀ key, is_Some (Profile.variables
                      (Profile.make "p1" true {[ "KEY1" := "a" ]}) !! key) →
           conflictsOn key env = [mkConflict key ["p1"; "p1"] "p1"].
Proof.
  assert (H : loadProfile exampleStore "p1"
              = Some (Profile.make "p1" true {[ "KEY1" := "a" ]}))
    by (vm_compute; reflexivity).
  split; [exact H|].
  exact (resolve_duplicate_name exampleStore "p1" _ H).
Defined.

(* ===================================================================== *)
(** * Properties of diff and computeRemoval *)
(* ===================================================================== *)

Lemma get_own {V} (o : gmap string V) k v :
  o !! k = Some v → JsObject.get o k = Some (JsObject.Own v).
Proof. intros H. unfold JsObject.get. by rewrite H. Qed.

Lemma get_absent {V} (o : gmap string V) k :
  o !! k = None →
  JsObject.get o k =
  if JsObject.inherited k then Some (JsObject.Member k) else None.
Proof. intros H. unfold JsObject.get. by rewrite H. Qed.

Lemma get_None {V} (o : gmap string V) k :
  JsObject.get o k = None ↔ o !! k = None ∧ JsObject.inherited k = false.
Proof.
  unfold JsObject.get.
  destruct (o !! k); [|destruct (JsObject.inherited k)]; split;
    try done; intros [? ?]; done.
Qed.

Lemma truthy_false {V} (o : gmap string V) k :
  JsObject.truthy o k = false ↔ o !! k = None ∧ JsObject.inherited k = false.
Proof.
  unfold JsObject.truthy. rewrite bool_decide_eq_false, <- get_None.
  rewrite <- eq_None_not_Some. done.
Qed.

Lemma diffSet_fold (current : gmap string EnvVariable)
    (l : list (string * EnvVariable)) :
  NoDup l.*1 → ∀ (init : gmap string string) key,
  foldl (diffSetStep current) init l !! key =
  match (list_to_map l : gmap string EnvVariable) !! key with
  | Some nv =>
      if decide (key = "__proto__") then init !! key
      else match JsObject.get current key with
           | None => Some (value nv)
           | Some found =>
               if valueDiffers found (value nv) then Some (value nv)
               else init !! key
           end
  | None => init !! key
  end.
Proof.
  induction l as [|[k nv] l IH]; intros Hnd init key; simpl; [done|].
  simpl in Hnd. apply NoDup_cons in Hnd as [Hk Hnd].
  assert (Hnone : (list_to_map l : gmap string EnvVariable) !! k = None)
    by by apply not_elem_of_list_to_map_1.
  rewrite IH by done. rewrite lookup_insert.
  destruct (decide (k = key)) as [->|Hne].
  - rewrite Hnone. unfold diffSetStep, JsObject.assign. simpl.
    destruct (decide (key = "__proto__")).
    + destruct (JsObject.get current key) as [found|]; [|done].
      by destruct (valueDiffers found (value nv)).
    + destruct (JsObject.get current key) as [found|].
      * destruct (valueDiffers found (value nv)); [|done].
        by rewrite lookup_insert_eq.
      * by rewrite lookup_insert_eq.
  - assert (Hstep : diffSetStep current init (k, nv) !! key = init !! key).
    { unfold diffSetStep, JsObject.assign. simpl.
      destruct (JsObject.get current k) as [found|];
        [destruct (valueDiffers found (value nv))|];
        try done; destruct (decide (k = "__proto__")); try done;
        by rewrite lookup_insert_ne. }
    rewrite Hstep. done.
Qed.

(** For every key but [__proto__], [toSet] is what the specification asks:
    the keys of [next] that are new or changed, with the value of [next]. *)
Lemma diff_toSet (current next : gmap string EnvVariable) key :
  key ≠ "__proto__" →
  Diff.toSet (diff current next) !! key = expectedToSet current next key.
Proof.
  intros Hkey. unfold diff, JsObject.entries, expectedToSet. simpl.
  rewrite diffSet_fold by apply NoDup_fst_map_to_list.
  rewrite list_to_map_to_list, lookup_empty.
  destruct (next !! key) as [nv|]; [|done].
  rewrite decide_False by done. unfold JsObject.get.
  destruct (current !! key) as [cv|]; simpl.
  - destruct (decide (value cv = value nv)) as [Heq|Hne].
    + by rewrite bool_decide_eq_false_2 by tauto.
    + by rewrite bool_decide_eq_true_2.
  - by destruct (JsObject.inherited key).
Qed.

(** [toUnset] holds the keys of [current] that [next] lacks, except those
    that name a member of [Object.prototype]. *)
Lemma diff_toUnset (current next : gmap string EnvVariable) key :
  key ∈ Diff.toUnset (diff current next) ↔
  is_Some (current !! key) ∧ next !! key = None
  ∧ JsObject.inherited key = false.
Proof.
  unfold diff, JsObject.keys. simpl.
  rewrite list_elem_of_filter, truthy_false, list_elem_of_fmap.
  split.
  - intros [[Hn Hi] ([k v] & -> & Hin)].
    apply elem_of_map_to_list in Hin. simpl in *. eauto.
  - intros ([v Hv] & Hn & Hi). split; [done|].
    exists (key, v). split; [done|]. by apply elem_of_map_to_list.
Qed.

Lemma filter_none {A} (P : A → Prop) `{∀ x, Decision (P x)} (l : list A) :
  (∀ x, x ∈ l → ¬ P x) → filter P l = [].
Proof.
  induction l as [|x l IH]; intros Hl; [done|].
  rewrite filter_cons, decide_False by (apply Hl; left).
  apply IH. intros y Hy. apply Hl. by right.
Qed.

(** [diff(A, A)] changes nothing. *)
Lemma diff_same (A : gmap string EnvVariable) :
  diff A A = Diff.make ∅ [].
Proof.
  unfold diff. f_equal.
  - apply map_eq. intros key. unfold JsObject.entries.
    rewrite diffSet_fold by apply NoDup_fst_map_to_list.
    rewrite list_to_map_to_list, lookup_empty.
    destruct (A !! key) as [v|] eqn:Hv; [|done].
    destruct (decide (key = "__proto__")); [done|].
    rewrite (get_own _ _ _ Hv). simpl.
    by rewrite bool_decide_eq_false_2 by tauto.
  - apply filter_none. intros key Hin. unfold JsObject.keys in Hin.
    apply list_elem_of_fmap in Hin as ([k v] & -> & Hin).
    apply elem_of_map_to_list in Hin. simpl in *.
    rewrite truthy_false. intros [Hn _]. congruence.
Qed.

(** C6.  [diff] at a key of [current] that [next] lacks and that names a
    member of [Object.prototype]: [!next[key]] sees the inherited member, and
    the key is not put in [toUnset]. *)
Theorem diff_keeps_inherited_key :
  let current : gmap string EnvVariable :=
    {[ "constructor" := mkEnvVariable "1" "p" ]} in
  let next : gmap string EnvVariable := ∅ in
  is_Some (current !! "constructor") ∧ next !! "constructor" = None ∧
  Diff.toUnset (diff current next) = [].
Proof.
  split; [|split].
  - eexists. apply lookup_singleton_eq.
  - apply lookup_empty.
  - vm_compute. reflexivity.
Qed.

Lemma removal_fold (remaining : gmap string EnvVariable)
    (l : list (string * EnvVariable)) :
  NoDup l.*1 → ∀ acc : Removal.t,
  (∀ key, key ≠ "__proto__" →
     Removal.toKeep (foldl (removalStep remaining) acc l) !! key =
     match (list_to_map l : gmap string EnvVariable) !! key with
     | Some _ =>
         match JsObject.get remaining key with
         | Some found => Some found
         | None => Removal.toKeep acc !! key
         end
     | None => Removal.toKeep acc !! key
     end) ∧
  Removal.toUnset (foldl (removalStep remaining) acc l) =
  Removal.toUnset acc ++ filter (λ key, JsObject.get remaining key = None) l.*1.
Proof.
  induction l as [|[k ev] l IH]; intros Hnd acc; simpl.
  - split; [done|]. by rewrite app_nil_r.
  - simpl in Hnd. apply NoDup_cons in Hnd as [Hk Hnd].
    assert (Hnone : (list_to_map l : gmap string EnvVariable) !! k = None)
      by by apply not_elem_of_list_to_map_1.
    destruct (IH Hnd (removalStep remaining acc (k, ev))) as [Hkeep Hunset].
    split.
    + intros key Hkey. rewrite Hkeep by done. rewrite lookup_insert.
      unfold removalStep. simpl.
      destruct (decide (k = key)) as [->|Hne].
      * rewrite Hnone.
        destruct (JsObject.get remaining key) as [found|]; simpl; [|done].
        unfold JsObject.assign. rewrite decide_False by done.
        by rewrite lookup_insert_eq.
      * destruct (JsObject.get remaining k) as [found|]; simpl.
        -- unfold JsObject.assign.
           destruct (decide (k = "__proto__")); [done|].
           by rewrite lookup_insert_ne.
        -- done.
    + rewrite Hunset. unfold removalStep. rewrite filter_cons. cbn [fst snd].
      destruct (JsObject.get remaining k) as [found|] eqn:Hget.
      * by rewrite decide_False.
      * rewrite decide_True by done. cbn [Removal.toUnset].
        by rewrite <- app_assoc.
Qed.

(** The partition computed by [computeRemoval], wherever the re-resolution
    succeeds: a key of the current map that the fresh resolution provides is
    kept with the fresh value and source; a key it does not provide is queued
    for unset unless it names a member of [Object.prototype], in which case
    the inherited member is kept under it. *)
Lemma computeRemoval_partition (store : ProfileStore)
    (current : gmap string EnvVariable) (names : list string)
    (remaining : gmap string EnvVariable) :
  resolveRemaining store names = Ok remaining →
  ∃ r, computeRemoval store current names = Ok r ∧
    (∀ key ev, key ≠ "__proto__" → is_Some (current !! key) →
       remaining !! key = Some ev →
       Removal.toKeep r !! key = Some (JsObject.Own ev) ∧
       key ∉ Removal.toUnset r) ∧
    (∀ key, key ∈ Removal.toUnset r ↔
       is_Some (current !! key) ∧ remaining !! key = None
       ∧ JsObject.inherited key = false) ∧
    (∀ key, key ≠ "__proto__" → is_Some (current !! key) →
       remaining !! key = None → JsObject.inherited key = true →
       Removal.toKeep r !! key = Some (JsObject.Member key)).
Proof.
  intros Hr. unfold computeRemoval. rewrite Hr. eexists. split; [done|].
  destruct (removal_fold remaining (JsObject.entries current)
              (NoDup_fst_map_to_list _) (Removal.make [] ∅)) as [Hkeep Hunset].
  unfold JsObject.entries in *. simpl in *.
  setoid_rewrite list_to_map_to_list in Hkeep.
  assert (Hmem : ∀ key, key ∈
      Removal.toUnset (foldl (removalStep remaining) (Removal.make [] ∅)
                         (map_to_list current)) ↔
      is_Some (current !! key) ∧ remaining !! key = None
      ∧ JsObject.inherited key = false).
  { intros key. rewrite Hunset, list_elem_of_filter, get_None, list_elem_of_fmap.
    split.
    - intros [[Hn Hi] ([k v] & -> & Hin)].
      apply elem_of_map_to_list in Hin. simpl in *. eauto.
    - intros ([v Hv] & Hn & Hi). split; [done|].
      exists (key, v). split; [done|]. by apply elem_of_map_to_list. }
  split; [|split].
  - intros key ev Hkey [cv Hcv] Hev. split.
    + rewrite Hkeep by done. rewrite Hcv. by rewrite (get_own _ _ _ Hev).
    + rewrite Hmem. intros (_ & Hn & _). congruence.
  - exact Hmem.
  - intros key Hkey [cv Hcv] Hn Hi.
    rewrite Hkeep by done. rewrite Hcv, (get_absent _ _ Hn), Hi. done.
Qed.

(** The third scenario of the specification: removing [p1] while [p2] still
    provides [SHARED] keeps [SHARED] with [p2] as source and does not unset
    it. *)
Example computeRemoval_scenario_3 :
  computeRemoval sharedStore
    {[ "KEY1" := mkEnvVariable "1" "p1"; "SHARED" := mkEnvVariable "b" "p2" ]}
    ["p2"]
  = Ok (Removal.make ["KEY1"]
          {[ "SHARED" := JsObject.Own (mkEnvVariable "b" "p2") ]}).
Proof. vm_compute. reflexivity. Qed.

(** C4.  [computeRemoval] at a current key that no remaining profile
    provides and that names a member of [Object.prototype]:
    [remaining.variables[key]] sees the inherited member, so the key is kept
    (with that member as its value) and is not queued for unset. *)
Theorem computeRemoval_keeps_inherited_key (store : ProfileStore) :
  let current : gmap string EnvVariable :=
    {[ "constructor" := mkEnvVariable "1" "p1" ]} in
  resolveRemaining store [] = Ok ∅ ∧
  computeRemoval store current [] =
  Ok (Removal.make [] {[ "constructor" := JsObject.Member "constructor" ]}).
Proof.
  split; [done|]. unfold computeRemoval. simpl. f_equal.
Qed.

(* ===================================================================== *)
(** * Properties of the state manager *)
(* ===================================================================== *)

Lemma load_total now file : ∃ state, load now file = Ok state.
Proof. destruct file as [| |[text|data]]; eexists; reflexivity. Qed.

(** C7.  [load] never throws, and a state file that is missing, unreadable or
    not parseable yields the empty state: no profiles, no variables, no
    snapshot, stamped with the current time. *)
Theorem load_lenient (now : string) (file : Backing) :
  (∃ state, load now file = Ok state) ∧
  (unusable file → load now file = Ok (getEmptyState now)) ∧
  StateData.active_profiles (getEmptyState now) = [] ∧
  StateData.variables (getEmptyState now) = ∅ ∧
  StateData.snapshot (getEmptyState now) = ∅ ∧
  StateData.applied_at (getEmptyState now) = now.
Proof.
  split; [|split; [|done]].
  - apply load_total.
  - intros [->|[->|[text ->]]]; reflexivity.
Qed.

Lemma load_lenient_witness :
  unusable (Present (NotJson "invalid json")) ∧
  load "2024-01-01T00:00:00.000Z" (Present (NotJson "invalid json")) =
  Ok (getEmptyState "2024-01-01T00:00:00.000Z").
Proof.
  assert (H : unusable (Present (NotJson "invalid json"))).
  { right. right. by eexists. }
  split; [exact H|].
  exact (proj1 (proj2 (load_lenient "2024-01-01T00:00:00.000Z"
                         (Present (NotJson "invalid json")))) H).
Defined.

Lemma load_snapshot now file state :
  load now file = Ok state → StateData.snapshot state = snapshotOf file.
Proof.
  destruct file as [| |[text|data]]; intros [= <-]; reflexivity.
Qed.

Lemma load_variables now file state :
  load now file = Ok state → StateData.variables state = variablesOf file.
Proof.
  destruct file as [| |[text|data]]; intros [= <-]; reflexivity.
Qed.


Lemma has_false {V} (o : gmap string V) key :
  JsObject.has o key = false ↔ o !! key = None ∧ JsObject.inherited key = false.
Proof.
  unfold JsObject.has. rewrite orb_false_iff, bool_decide_eq_false.
  rewrite <- eq_None_not_Some. done.
Qed.

Lemma inherited_proto : JsObject.inherited "__proto__" = true.
Proof. reflexivity. Qed.

(** The snapshot loop: captured values stay, every listed key that does not
    name a member of [Object.prototype] ends up captured, and whatever is new
    was read from the environment. *)
Lemma captureSnapshot_spec env keys : ∀ snapshot,
  (∀ key v, snapshot !! key = Some v →
            captureSnapshot env snapshot keys !! key = Some v) ∧
  (∀ key, key ∈ keys → JsObject.inherited key = false →
          is_Some (captureSnapshot env snapshot keys !! key)) ∧
  (∀ key v, captureSnapshot env snapshot keys !! key = Some v →
            snapshot !! key = Some v ∨ (key ∈ keys ∧ v = env key)).
Proof.
  induction keys as [|k keys IH]; intros snapshot; simpl.
  - split; [done|]. split; [|by left]. intros key Hin. by apply elem_of_nil in Hin.
  - set (snapshot' := if JsObject.has snapshot k then snapshot
                      else JsObject.assign snapshot k (env k)).
    assert (Hkeep : ∀ key v, snapshot !! key = Some v →
                             snapshot' !! key = Some v).
    { intros key v Hv. unfold snapshot'.
      destruct (JsObject.has snapshot k) eqn:Hhas; [done|].
      apply has_false in Hhas as [Hnone Hinh]. unfold JsObject.assign.
      destruct (decide (k = "__proto__")); [done|].
      rewrite lookup_insert_ne; [done|]. congruence. }
    assert (Hk : JsObject.inherited k = false → is_Some (snapshot' !! k)).
    { intros Hinh. unfold snapshot'.
      destruct (JsObject.has snapshot k) eqn:Hhas.
      - unfold JsObject.has in Hhas. rewrite Hinh, orb_false_r in Hhas.
        by apply bool_decide_eq_true in Hhas.
      - unfold JsObject.assign. rewrite decide_False.
        + rewrite lookup_insert_eq. by eexists.
        + intros ->. by rewrite inherited_proto in Hinh. }
    assert (Hnew : ∀ key v, snapshot' !! key = Some v →
                            snapshot !! key = Some v ∨ (key = k ∧ v = env key)).
    { intros key v. unfold snapshot'.
      destruct (JsObject.has snapshot k); [by left|].
      unfold JsObject.assign. destruct (decide (k = "__proto__")); [by left|].
      rewrite lookup_insert. destruct (decide (k = key)) as [->|]; [|by left].
      intros [= <-]. by right. }
    destruct (IH snapshot') as (IH1 & IH2 & IH3). split; [|split].
    + intros key v Hv. apply IH1. by apply Hkeep.
    + intros key Hin Hinh. apply elem_of_cons in Hin as [->|Hin].
      * destruct (Hk Hinh) as [v Hv]. exists v. by apply IH1.
      * by apply IH2.
    + intros key v Hv. destruct (IH3 key v Hv) as [H|[Hin ->]].
      * destruct (Hnew key v H) as [?|[-> ->]]; [by left|].
        right. split; [left|done].
      * right. split; [by right|done].
Qed.

(** Both operations succeed, and leave in the file the state they return. *)
Lemma perform_saves file call :
  ∃ state, perform file call = Ok (save state, state) ∧
    snapshotOf (save state) =
    match call with
    | CallUpdate _ env _ variables =>
        captureSnapshot env (snapshotOf file) (JsObject.keys variables)
    | CallAddProfiles _ env _ newVariables =>
        captureSnapshot env (snapshotOf file) (JsObject.keys newVariables)
    end ∧
    variablesOf (save state) =
    match call with
    | CallUpdate _ _ _ variables => variables
    | CallAddProfiles _ _ _ newVariables => newVariables ∪ variablesOf file
    end.
Proof.
  destruct call as [now env profiles variables|now env toAdd newVariables];
    simpl; unfold update, addProfiles;
    destruct (load_total now file) as [current Hload]; rewrite Hload;
    rewrite (load_snapshot _ _ _ Hload);
    try rewrite (load_variables _ _ _ Hload);
    eexists; split; try reflexivity; split; reflexivity.
Qed.

(** First capture wins: no call changes a snapshot value once it is in the
    state file. *)
Lemma snapshot_first_capture_wins calls : ∀ file key v,
  snapshotOf file !! key = Some v → snapshotOf (run file calls) !! key = Some v.
Proof.
  unfold run. induction calls as [|call calls IH]; intros file key v Hv; simpl.
  - done.
  - destruct (perform_saves file call) as (state & -> & Hsnap & _).
    apply IH. rewrite Hsnap.
    destruct call; by apply captureSnapshot_spec.
Qed.

(** Every tracked variable that does not name a member of [Object.prototype]
    has a snapshot entry, after any sequence of calls from the empty state. *)
Lemma snapshot_covers_ordinary_keys calls : ∀ file,
  (∀ key, is_Some (variablesOf file !! key) →
          JsObject.inherited key = false → is_Some (snapshotOf file !! key)) →
  ∀ key, is_Some (variablesOf (run file calls) !! key) →
         JsObject.inherited key = false →
         is_Some (snapshotOf (run file calls) !! key).
Proof.
  unfold run. induction calls as [|call calls IH]; intros file Hinv; simpl.
  - done.
  - destruct (perform_saves file call) as (state & -> & Hsnap & Hvars).
    apply IH. intros key. rewrite Hsnap, Hvars.
    destruct call as [now env profiles variables|now env toAdd newVariables].
    + intros [ev Hev] Hinh. apply captureSnapshot_spec; [|done].
      unfold JsObject.keys. apply list_elem_of_fmap. exists (key, ev).
      split; [done|]. by apply elem_of_map_to_list.
    + intros [ev Hev] Hinh. apply lookup_union_Some_raw in Hev as [Hev|[_ Hev]].
      * apply captureSnapshot_spec; [|done].
        unfold JsObject.keys. apply list_elem_of_fmap. exists (key, ev).
        split; [done|]. by apply elem_of_map_to_list.
      * destruct (Hinv key) as [v Hv]; [by eexists|done|].
        exists v. by apply captureSnapshot_spec.
Qed.

(** C3.  A first [update] from the empty state with a variable named after a
    member of [Object.prototype]: [key in snapshot] is true of the inherited
    member, nothing is captured, and the saved state tracks the variable
    without a snapshot entry. *)
Theorem update_skips_inherited_key (now : string) (env : string → option string) :
  let variables : gmap string EnvVariable :=
    {[ "constructor" := mkEnvVariable "1" "p" ]} in
  let file := run Absent [CallUpdate now env ["p"] variables] in
  file = Present (Json (StateData.make ["p"] variables ∅ now)) ∧
  is_Some (variablesOf file !! "constructor") ∧
  snapshotOf file !! "constructor" = None.
Proof.
  intros variables file.
  assert (H : file = Present (Json (StateData.make ["p"] variables ∅ now))).
  { unfold file, run. simpl. unfold update, save. simpl. do 3 f_equal. }
  rewrite H. split; [done|]. split.
  - eexists. apply lookup_singleton_eq.
  - apply lookup_empty.
Qed.

(* ===================================================================== *)
(** * Properties of parseVariables *)
(* ===================================================================== *)

Lemma str_app_cons c s t : String c s +:+ t = String c (s +:+ t).
Proof. reflexivity. Qed.

Lemma str_app_nil s : EmptyString +:+ s = s.
Proof. reflexivity. Qed.

Lemma str_app_nil_end s : s +:+ EmptyString = s.
Proof. induction s as [|c s IH]; [done|]. by rewrite str_app_cons, IH. Qed.

Lemma str_app_assoc s t u : (s +:+ t) +:+ u = s +:+ t +:+ u.
Proof. induction s as [|c s IH]; [done|]. by rewrite !str_app_cons, IH. Qed.

Lemma str_length_app s t :
  String.length (s +:+ t) = String.length s + String.length t.
Proof. induction s as [|c s IH]; [done|]. rewrite str_app_cons. simpl. by rewrite IH. Qed.

(** The quote removal of the source agrees with the specification's on every
    value but a lone quote character. *)
Lemma stripQuotes_pair value :
  value ≠ chr QUOTATION → value ≠ "'" →
  stripQuotes value = Spec.stripQuotePair value.
Proof.
  intros Hq Ha. unfold stripQuotes, Spec.stripQuotePair.
  destruct value as [|c [|d rest]]; [done| |].
  - destruct (decide (c = QUOTATION)) as [->|]; [done|].
    destruct (decide (c = APOSTROPHE)) as [->|]; [done|].
    simpl. by rewrite !decide_False by done.
  - rewrite decide_True by (simpl; lia). done.
Qed.

Lemma stripQuotes_lone c :
  c = QUOTATION ∨ c = APOSTROPHE → stripQuotes (chr c) = EmptyString.
Proof. by intros [->| ->]. Qed.

(** The source and the specification parse a line alike unless its value is
    a lone quote character or its key is [__proto__]. *)
Lemma parseLine_refines variables line :
  (∀ eqIndex, indexOf (trim line) "=" = Some eqIndex →
     let raw := trim (sliceFrom (trim line) (eqIndex + 1)) in
     raw ≠ chr QUOTATION ∧ raw ≠ "'"
     ∧ trim (slice (trim line) 0 eqIndex) ≠ "__proto__") →
  parseLine variables line = Spec.parseLine variables line.
Proof.
  intros H. unfold parseLine, Spec.parseLine.
  destruct (isEmpty (trim line) || startsWith (trim line) "#"); [done|].
  destruct (indexOf (trim line) "=") as [eqIndex|]; [|done].
  destruct (H eqIndex eq_refl) as (Hq & Ha & Hk).
  rewrite stripQuotes_pair by done.
  destruct (isEmpty _); [done|]. unfold JsObject.assign.
  by rewrite decide_False.
Qed.

(** C9.  A value that is one quote character starts and ends with that quote,
    so [slice(1, -1)] empties it although there is no pair to strip; and a
    line whose key is [__proto__] assigns nothing. *)
Theorem parseVariables_lone_quote :
  parseVariables ("A=" +:+ chr QUOTATION) = {[ "A" := EmptyString ]} ∧
  Spec.parseVariables ("A=" +:+ chr QUOTATION) = {[ "A" := chr QUOTATION ]} ∧
  parseVariables "__proto__=1" = ∅ ∧
  Spec.parseVariables "__proto__=1" = {[ "__proto__" := "1" ]}.
Proof. repeat split; vm_compute; reflexivity. Qed.

(* ===================================================================== *)
(** * Properties of generateExport *)
(* ===================================================================== *)

Lemma sanitizeForShell_app s t :
  sanitizeForShell (s +:+ t) = sanitizeForShell s +:+ sanitizeForShell t.
Proof.
  induction s as [|c s IH]; [done|]. rewrite str_app_cons. simpl.
  destruct (decide (c = APOSTROPHE)).
  - by rewrite IH, str_app_assoc.
  - by rewrite IH.
Qed.

Lemma sanitizeForShell_apostrophe : sanitizeForShell "'" = "'\''".
Proof. reflexivity. Qed.

Lemma sanitizeForShell_other c :
  c ≠ APOSTROPHE → sanitizeForShell (chr c) = chr c.
Proof. intros Hc. simpl. by rewrite decide_False. Qed.

(** The statement is the prefix of the dialect and the sanitized value
    between single quotes. *)
Lemma generateExport_form shell key value :
  generateExport shell key value
  = assignmentPrefix shell key +:+ "'" +:+ sanitizeForShell value +:+ "'".
Proof.
  destruct shell; unfold generateExport, assignmentPrefix;
    rewrite !str_app_assoc; reflexivity.
Qed.

(** Read inside single quotes, the sanitized value followed by the closing
    quote is the value itself. *)
Lemma posixWord_sanitized value :
  Shell.posixWord true (sanitizeForShell value +:+ "'") = Some value.
Proof.
  induction value as [|c value IH]; [reflexivity|].
  simpl sanitizeForShell. destruct (decide (c = APOSTROPHE)) as [->|Hc].
  - rewrite !str_app_cons, str_app_nil. simpl. by rewrite IH.
  - rewrite str_app_cons. simpl. rewrite decide_False by done. by rewrite IH.
Qed.

(** The same under fish, for a value without backslash. *)
Lemma fishWord_sanitized value :
  noBackslash value = true →
  Shell.fishWord true (sanitizeForShell value +:+ "'") = Some value.
Proof.
  induction value as [|c value IH]; intros Hv; [reflexivity|].
  simpl in Hv. destruct (decide (c = BACKSLASH)) as [|Hb]; [done|].
  simpl sanitizeForShell. destruct (decide (c = APOSTROPHE)) as [->|Hc].
  - rewrite !str_app_cons, str_app_nil. simpl. by rewrite IH.
  - rewrite str_app_cons. simpl. rewrite !decide_False by done.
    by rewrite IH.
Qed.

Lemma spanName_name key c rest :
  Shell.isNameChar c = false → Shell.allNameChars key = true →
  Shell.spanName (key +:+ String c rest) = (key, String c rest).
Proof.
  intros Hsep. induction key as [|d key IH]; intros Hkey.
  - rewrite str_app_nil. cbn [Shell.spanName]. by rewrite Hsep.
  - simpl in Hkey. apply andb_true_iff in Hkey as [Hd Hkey].
    rewrite str_app_cons. cbn [Shell.spanName]. by rewrite Hd, (IH Hkey).
Qed.

Lemma isName_allNameChars key :
  Shell.isName key = true → Shell.allNameChars key = true.
Proof.
  destruct key as [|c key]; [done|]. simpl.
  intros [Hc Hk]%andb_true_iff. unfold Shell.isNameChar. by rewrite Hc, Hk.
Qed.

Lemma posixExport_round_trip key value :
  Shell.isName key = true →
  Shell.posixExport
    ("export " +:+ key +:+ "='" +:+ sanitizeForShell value +:+ "'")
  = Some (key, value).
Proof.
  intros Hkey. unfold Shell.posixExport.
  rewrite !str_app_cons, str_app_nil. simpl startsWith. simpl drop.
  rewrite spanName_name by (done || by apply isName_allNameChars).
  simpl. rewrite Hkey, str_app_nil. by rewrite posixWord_sanitized.
Qed.

Lemma fishSet_round_trip key value :
  Shell.isName key = true → noBackslash value = true →
  Shell.fishSet
    ("set -gx " +:+ key +:+ " '" +:+ sanitizeForShell value +:+ "'")
  = Some (key, value).
Proof.
  intros Hkey Hvalue. unfold Shell.fishSet.
  rewrite !str_app_cons, str_app_nil. simpl startsWith. simpl drop.
  rewrite spanName_name by (done || by apply isName_allNameChars).
  simpl. rewrite Hkey, str_app_nil. by rewrite fishWord_sanitized.
Qed.

(** The same under fish, for every value that is [fishPlain]. *)
Lemma fishWord_plain value :
  fishPlain value = true →
  Shell.fishWord true (sanitizeForShell value +:+ "'") = Some value.
Proof.
  induction value as [|c value IH]; intros Hv; [reflexivity|].
  simpl sanitizeForShell. destruct (decide (c = APOSTROPHE)) as [->|Hc].
  - simpl in Hv. rewrite !str_app_cons, str_app_nil. simpl. by rewrite IH.
  - rewrite str_app_cons. cbn [Shell.fishWord]. rewrite decide_False by done.
    cbn [fishPlain] in Hv. destruct (decide (c = BACKSLASH)) as [->|Hb].
    + destruct value as [|d value]; [done|].
      apply andb_true_iff in Hv as [Hd Hv].
      apply negb_true_iff, bool_decide_eq_false in Hd.
      assert (Hd' : d ≠ APOSTROPHE) by tauto.
      rewrite (IH Hv). simpl sanitizeForShell. rewrite decide_False by done.
      rewrite str_app_cons. by rewrite decide_False by done.
    + by rewrite (IH Hv).
Qed.

Lemma fishWord_backslash (quoted : bool) d rest :
  d ≠ APOSTROPHE → d ≠ BACKSLASH →
  Shell.fishWord quoted (String BACKSLASH (String d rest))
  = if quoted then String BACKSLASH <$> Shell.fishWord true (String d rest)
    else None.
Proof.
  intros Hd Hd'. destruct quoted.
  - change (Shell.fishWord true (String BACKSLASH (String d rest)))
      with (if decide (d = APOSTROPHE ∨ d = BACKSLASH)
            then String d <$> Shell.fishWord true rest
            else String BACKSLASH <$> Shell.fishWord true (String d rest)).
    by rewrite decide_False by tauto.
  - change (Shell.fishWord false (String BACKSLASH (String d rest)))
      with (if decide (d = APOSTROPHE ∨ d = BACKSLASH)
            then String d <$> Shell.fishWord false rest
            else None).
    by rewrite decide_False by tauto.
Qed.

(** Reading the sanitized value inside and outside single quotes never
    gives more characters than the value has. *)
Lemma fishWord_length n : ∀ value,
  String.length value ≤ n →
  (∀ w, Shell.fishWord true (sanitizeForShell value +:+ "'") = Some w →
        String.length w ≤ String.length value) ∧
  (∀ w, Shell.fishWord false (sanitizeForShell value +:+ "'") = Some w →
        String.length w ≤ String.length value).
Proof.
  induction n as [|n IH]; intros value Hn.
  - destruct value; [|simpl in Hn; lia]. split; intros w; simpl.
    + intros [= <-]. done.
    + done.
  - destruct value as [|c value].
    { split; intros w; simpl; [intros [= <-]; done|done]. }
    simpl in Hn. assert (Hvalue : String.length value ≤ n) by lia.
    simpl sanitizeForShell. destruct (decide (c = APOSTROPHE)) as [->|Hc].
    { rewrite !str_app_cons, str_app_nil. split; intros w; simpl.
      - destruct (Shell.fishWord true _) as [w'|] eqn:Hw'; [|done].
        intros [= <-]. simpl.
        pose proof (proj1 (IH value Hvalue) _ Hw'). lia.
      - destruct (Shell.fishWord false _) as [w'|] eqn:Hw'; [|done].
        intros [= <-]. simpl.
        pose proof (proj2 (IH value Hvalue) _ Hw'). lia. }
    rewrite str_app_cons.
    destruct (decide (c = BACKSLASH)) as [->|Hb].
    + destruct value as [|d value].
      { split; intros w; simpl; [done|]. intros [= <-]. simpl. lia. }
      simpl in Hvalue. assert (Hvalue' : String.length value ≤ n) by lia.
      simpl sanitizeForShell. destruct (decide (d = APOSTROPHE)) as [->|Hd].
      { rewrite !str_app_cons, str_app_nil. split; intros w; simpl.
        - destruct (Shell.fishWord false _) as [w'|] eqn:Hw'; [|done].
          intros [= <-]. simpl.
          pose proof (proj2 (IH value Hvalue') _ Hw'). lia.
        - destruct (Shell.fishWord true _) as [w'|] eqn:Hw'; [|done].
          intros [= <-]. simpl.
          pose proof (proj1 (IH value Hvalue') _ Hw'). lia. }
      rewrite str_app_cons. destruct (decide (d = BACKSLASH)) as [->|Hd'].
      { split; intros w; simpl.
        - destruct (Shell.fishWord true _) as [w'|] eqn:Hw'; [|done].
          intros [= <-]. simpl.
          pose proof (proj1 (IH value Hvalue') _ Hw'). lia.
        - destruct (Shell.fishWord false _) as [w'|] eqn:Hw'; [|done].
          intros [= <-]. simpl.
          pose proof (proj2 (IH value Hvalue') _ Hw'). lia. }
      assert (Htail : sanitizeForShell (String d value) +:+ "'"
                      = String d (sanitizeForShell value +:+ "'")).
      { simpl sanitizeForShell. rewrite decide_False by done.
        by rewrite str_app_cons. }
      rewrite !fishWord_backslash by done. rewrite <- Htail.
      split; intros w; [|done].
      intros (w' & Hw' & ->)%fmap_Some. simpl.
      assert (Hlen : String.length (String d value) ≤ n) by (simpl; lia).
      pose proof (proj1 (IH _ Hlen) _ Hw') as Hq. simpl in Hq. lia.
    + split; intros w.
      * cbn [Shell.fishWord]. rewrite !decide_False by done.
        destruct (Shell.fishWord true _) as [w'|] eqn:Hw'; [|done].
        intros [= <-]. simpl.
        pose proof (proj1 (IH value Hvalue) _ Hw'). lia.
      * cbn [Shell.fishWord]. rewrite !decide_False by done.
        destruct (Shell.isNameChar c); [|done].
        destruct (Shell.fishWord false _) as [w'|] eqn:Hw'; [|done].
        intros [= <-]. simpl.
        pose proof (proj2 (IH value Hvalue) _ Hw'). lia.
Qed.

(** Fish reads the value back only if it is [fishPlain]. *)
Lemma fishWord_exact value :
  Shell.fishWord true (sanitizeForShell value +:+ "'") = Some value →
  fishPlain value = true.
Proof.
  induction value as [|c value IH]; [done|].
  simpl sanitizeForShell. destruct (decide (c = APOSTROPHE)) as [->|Hc].
  - rewrite !str_app_cons, str_app_nil. simpl.
    intros (w' & Hw' & [= <-])%fmap_Some. by apply IH.
  - rewrite str_app_cons. cbn [fishPlain].
    destruct (decide (c = BACKSLASH)) as [->|Hb].
    + destruct value as [|d value]; [done|].
      simpl sanitizeForShell. destruct (decide (d = APOSTROPHE)) as [->|Hd].
      { rewrite !str_app_cons, str_app_nil. simpl.
        destruct (Shell.fishWord false _); [|done]. done. }
      rewrite str_app_cons. destruct (decide (d = BACKSLASH)) as [->|Hd'].
      { simpl. intros (w' & Hw' & [= <-])%fmap_Some. exfalso.
        destruct (fishWord_length _ value (le_n _)) as [Hq _].
        specialize (Hq _ Hw'). simpl in Hq. lia. }
      assert (Htail : sanitizeForShell (String d value) +:+ "'"
                      = String d (sanitizeForShell value +:+ "'")).
      { simpl sanitizeForShell. rewrite decide_False by done.
        by rewrite str_app_cons. }
      rewrite fishWord_backslash by done.
      rewrite <- Htail. intros (w' & Hw' & [= <-])%fmap_Some.
      rewrite (IH Hw'), andb_true_r.
      apply negb_true_iff, bool_decide_eq_false. tauto.
    + cbn [Shell.fishWord]. rewrite !decide_False by done.
      intros (w' & Hw' & [= <-])%fmap_Some. by apply IH.
Qed.

(** What fish makes of the rendered statement for a key that is a name. *)
Lemma fishSet_rendered key value :
  Shell.isName key = true →
  Shell.fishSet
    ("set -gx " +:+ key +:+ " '" +:+ sanitizeForShell value +:+ "'")
  = pair key <$> Shell.fishWord true (sanitizeForShell value +:+ "'").
Proof.
  intros Hkey. unfold Shell.fishSet.
  rewrite !str_app_cons, str_app_nil. simpl startsWith. simpl drop.
  rewrite spanName_name by (done || by apply isName_allNameChars).
  simpl. by rewrite Hkey, str_app_nil.
Qed.

(** What holds of the round trip.  For every key that is a variable name,
    the statement assigns the original value to the key under bash and zsh
    for every value, and under fish exactly for the values that are
    [fishPlain]. *)
Lemma generateExport_reads_back shell key value :
  Shell.isName key = true → shell ≠ unknown →
  Shell.evaluate shell (generateExport shell key value) = Some (key, value)
  ↔ shell = bash ∨ shell = zsh ∨ fishPlain value = true.
Proof.
  intros Hkey Hshell. destruct shell; [| | |done].
  - split; [by left|]. intros _. by apply posixExport_round_trip.
  - split; [by right; left|]. intros _. by apply posixExport_round_trip.
  - unfold Shell.evaluate, generateExport. rewrite fishSet_rendered by done.
    split.
    + intros (w & Hw & [= <-])%fmap_Some. right. right.
      by apply fishWord_exact.
    + intros [?|[?|Hplain]]; [done|done|]. by rewrite fishWord_plain.
Qed.

(** The same statement read by fish. *)
Example generateExport_fish_example :
  Shell.evaluate fish (generateExport fish "API_KEY" "it's `id` $(id)")
  = Some ("API_KEY", "it's `id` $(id)").
Proof. vm_compute. reflexivity. Qed.

(** A Windows path keeps its backslashes under fish. *)
Example generateExport_fish_path :
  Shell.evaluate fish (generateExport fish "HOME_DIR" "C:\Users\me")
  = Some ("HOME_DIR", "C:\Users\me").
Proof. vm_compute. reflexivity. Qed.

(** The key is written as it is: one that is not a variable name is not
    assigned. *)
Example generateExport_key_not_name :
  Shell.evaluate bash (generateExport bash "A B" "v") = None.
Proof. vm_compute. reflexivity. Qed.

(** C2.  The fish statement is written with the escaping of the POSIX
    shells, and fish reads it otherwise.  For the value [fishInjection] the
    quoted part of the rendered statement ends after two apostrophes, which
    leaves the command of the value outside the quotes: the statement is
    not an assignment of the value, while the bash statement for the same
    value is.  Two backslashes in a value are read back by fish as one. *)
Theorem generateExport_fish_escape :
  generateExport fish "K" fishInjection
  = "set -gx K '\'\''; id; echo \'\'''" ∧
  Shell.fishWord false "'\'\''" = Some "''" ∧
  Shell.evaluate fish (generateExport fish "K" fishInjection) = None ∧
  Shell.evaluate bash (generateExport bash "K" fishInjection)
  = Some ("K", fishInjection) ∧
  Shell.evaluate fish (generateExport fish "K" "a\\b") = Some ("K", "a\b").
Proof. repeat split; vm_compute; reflexivity. Qed.

(* ===================================================================== *)
(** * Properties of the wrapper block *)
(* ===================================================================== *)

Section OneLineNeedle.

Variable needle : string.
Hypothesis needle_line : lineText needle = true.

Lemma needle_cons : ∃ p n, needle = String p n ∧ p ≠ LF ∧ noLineFeed n = true.
Proof.
  unfold lineText in needle_line. destruct needle as [|p n]; [done|].
  simpl in needle_line. exists p, n.
  destruct (decide (p = LF)); [done|]. done.
Qed.

Lemma startsWith_nil_needle : startsWith EmptyString needle = false.
Proof. destruct needle_cons as (p & n & -> & _). done. Qed.

Lemma startsWith_LF_needle y : startsWith (String LF y) needle = false.
Proof.
  destruct needle_cons as (p & n & -> & Hp & _). simpl.
  by rewrite decide_False.
Qed.

End OneLineNeedle.

(** A text without line feed that starts [x], a line feed and [y] starts
    [x]. *)
Lemma startsWith_before_LF n : ∀ x y,
  noLineFeed n = true →
  startsWith (x +:+ String LF y) n = startsWith x n.
Proof.
  induction n as [|p n IH]; intros x y Hn; [by destruct x|].
  simpl in Hn. destruct (decide (p = LF)) as [|Hp]; [done|].
  destruct x as [|c x].
  - rewrite str_app_nil. simpl. by rewrite decide_False.
  - rewrite str_app_cons. simpl. destruct (decide (p = c)); [|done].
    by apply IH.
Qed.

Lemma lineText_noLineFeed needle :
  lineText needle = true → noLineFeed needle = true.
Proof. unfold lineText. by intros [_ ?]%andb_true_iff. Qed.

Lemma occurrences_nil needle :
  lineText needle = true → occurrences EmptyString needle = 0.
Proof. intros H. simpl. by rewrite startsWith_nil_needle. Qed.

Lemma occurrences_LF needle y :
  lineText needle = true →
  occurrences (String LF y) needle = occurrences y needle.
Proof. intros H. simpl. by rewrite startsWith_LF_needle. Qed.

(** Occurrences of a one-line text do not straddle a line feed. *)
Lemma occurrences_app_LF needle x y :
  lineText needle = true →
  occurrences (x +:+ String LF y) needle
  = occurrences x needle + occurrences y needle.
Proof.
  intros H. induction x as [|c x IH].
  - rewrite str_app_nil, occurrences_LF, occurrences_nil by done. done.
  - rewrite str_app_cons. simpl.
    rewrite <- str_app_cons, startsWith_before_LF
      by by apply lineText_noLineFeed.
    rewrite IH. lia.
Qed.

Lemma indexOf_app_LF needle x y :
  lineText needle = true →
  indexOf (x +:+ String LF y) needle =
  match indexOf x needle with
  | Some i => Some i
  | None => (λ j, String.length x + 1 + j) <$> indexOf y needle
  end.
Proof.
  intros H. induction x as [|c x IH].
  - rewrite str_app_nil. simpl.
    rewrite startsWith_LF_needle, startsWith_nil_needle by done.
    by destruct (indexOf y needle).
  - rewrite str_app_cons. simpl.
    rewrite <- str_app_cons, startsWith_before_LF
      by by apply lineText_noLineFeed.
    destruct (startsWith (String c x) needle); [done|].
    rewrite IH. destruct (indexOf x needle); [done|].
    by destruct (indexOf y needle).
Qed.

Lemma occurrences_none needle s :
  occurrences s needle = 0 → indexOf s needle = None.
Proof.
  induction s as [|c s IH]; simpl.
  - by destruct (startsWith EmptyString needle).
  - destruct (startsWith (String c s) needle); [done|].
    intros Hs. by rewrite IH.
Qed.

Lemma take_app x y n :
  take (String.length x + n) (x +:+ y) = x +:+ take n y.
Proof.
  induction x as [|c x IH]; [done|]. rewrite !str_app_cons. simpl.
  by rewrite IH.
Qed.

Lemma drop_app x y n : drop (String.length x + n) (x +:+ y) = drop n y.
Proof. induction x as [|c x IH]; [done|]. by rewrite str_app_cons. Qed.

Lemma stripTrailingNewlines_newlines n :
  stripTrailingNewlines (newlines n) = EmptyString.
Proof.
  induction n as [|n IH]; [done|]. simpl. by rewrite IH.
Qed.

Lemma stripTrailingNewlines_app x n :
  stripTrailingNewlines (x +:+ newlines n) = stripTrailingNewlines x.
Proof.
  induction x as [|c x IH].
  - rewrite str_app_nil. apply stripTrailingNewlines_newlines.
  - rewrite str_app_cons. simpl. by rewrite IH.
Qed.

(** A text is what remains of it without its final line feeds, followed by
    those line feeds. *)
Lemma stripTrailingNewlines_split x :
  ∃ n, x = stripTrailingNewlines x +:+ newlines n.
Proof.
  induction x as [|c x [n IH]]; [by exists 0|]. simpl.
  destruct (decide (c = LF)) as [->|Hc].
  - destruct (stripTrailingNewlines x) as [|d r] eqn:Hr.
    + exists (S n). rewrite str_app_nil in IH. by rewrite IH at 1.
    + exists n. simpl. rewrite str_app_cons. by rewrite IH at 1.
  - exists n. rewrite str_app_cons. by rewrite IH at 1.
Qed.

Lemma stripTrailingNewlines_idemp x :
  stripTrailingNewlines (stripTrailingNewlines x) = stripTrailingNewlines x.
Proof.
  destruct (stripTrailingNewlines_split x) as [n Hn].
  rewrite Hn at 2. by rewrite stripTrailingNewlines_app.
Qed.

Lemma occurrences_newlines needle n :
  lineText needle = true → occurrences (newlines n) needle = 0.
Proof.
  intros H. induction n as [|n IH].
  - by apply occurrences_nil.
  - simpl newlines. by rewrite occurrences_LF.
Qed.

Lemma occurrences_stripped needle x :
  lineText needle = true →
  occurrences (stripTrailingNewlines x) needle = occurrences x needle.
Proof.
  intros H. destruct (stripTrailingNewlines_split x) as [[|n] Hn].
  - rewrite str_app_nil_end in Hn. by rewrite <- Hn.
  - rewrite Hn at 2. simpl newlines.
    rewrite occurrences_app_LF, occurrences_newlines by done. lia.
Qed.

Lemma str_take_drop n s : take n s +:+ drop n s = s.
Proof.
  revert s. induction n as [|n IH]; intros [|c s]; try done.
  simpl. by rewrite str_app_cons, IH.
Qed.

Lemma endsWith_app s t : endsWith (s +:+ t) t = true.
Proof.
  unfold endsWith. rewrite str_length_app.
  rewrite decide_True by lia. apply bool_decide_eq_true.
  replace (String.length s + String.length t - String.length t)
    with (String.length s + 0) by lia.
  by rewrite drop_app.
Qed.

Lemma endsWith_split s t : endsWith s t = true → ∃ s', s = s' +:+ t.
Proof.
  unfold endsWith. destruct (decide _); [|done].
  intros Hd%bool_decide_eq_true.
  exists (take (String.length s - String.length t) s).
  transitivity (take (String.length s - String.length t) s
                +:+ drop (String.length s - String.length t) s).
  - symmetry. apply str_take_drop.
  - by rewrite Hd.
Qed.

Lemma stripTrailingNewlines_length x :
  String.length (stripTrailingNewlines x) ≤ String.length x.
Proof.
  destruct (stripTrailingNewlines_split x) as [n Hn].
  rewrite Hn at 2. rewrite str_length_app. lia.
Qed.

(** What remains after the final line feeds are stripped does not end with
    a line feed. *)
Lemma endsWith_stripped x :
  endsWith (stripTrailingNewlines x) (chr LF) = false.
Proof.
  destruct (endsWith (stripTrailingNewlines x) (chr LF)) eqn:He; [|done].
  apply endsWith_split in He as [s' Hs'].
  pose proof (stripTrailingNewlines_idemp x) as Hi.
  rewrite Hs' in Hi at 1.
  change (chr LF) with (newlines 1) in Hi.
  rewrite stripTrailingNewlines_app in Hi.
  pose proof (stripTrailingNewlines_length s') as Hl.
  rewrite Hi, Hs', str_length_app in Hl. simpl in Hl. lia.
Qed.

Lemma newlines_plus a b : newlines (a + b) = newlines a +:+ newlines b.
Proof. induction a as [|a IH]; [done|]. simpl. by rewrite IH. Qed.

(** Appending the separator of [addWrapper] to a text that does not end
    with two line feeds gives the stripped text and a blank line. *)
Lemma separator_after x :
  endsWith x (newlines 2) = false →
  x +:+ newlines (if endsWith x (chr LF) then 1 else 2)
  = stripTrailingNewlines x +:+ newlines 2.
Proof.
  intros H2. destruct (stripTrailingNewlines_split x) as [[|[|n]] Hn].
  - rewrite str_app_nil_end in Hn. rewrite <- Hn.
    by rewrite Hn, endsWith_stripped.
  - rewrite Hn at 1 2. change (chr LF) with (newlines 1).
    rewrite endsWith_app, str_app_assoc. done.
  - exfalso. rewrite Hn in H2.
    replace (S (S n)) with (n + 2) in H2 by lia.
    rewrite newlines_plus, <- str_app_assoc, endsWith_app in H2. done.
Qed.

Lemma markers_lineText :
  lineText getMarkerStart = true ∧ lineText getMarkerEnd = true.
Proof. split; reflexivity. Qed.

Lemma removeWrapper_free content :
  occurrences content getMarkerStart = 0 → removeWrapper content = content.
Proof.
  intros H. unfold removeWrapper. by rewrite (occurrences_none _ _ H).
Qed.

Lemma removeWrapper_appended x rest j k :
  markerFree x →
  indexOf rest getMarkerStart = Some j → indexOf rest getMarkerEnd = Some k →
  removeWrapper (x +:+ String LF rest) =
  let before := stripTrailingNewlines (x +:+ String LF (take j rest)) in
  let after :=
    stripLeadingNewlines (drop (k + String.length getMarkerEnd) rest) in
  before
  +:+ (if negb (isEmpty before) && negb (isEmpty after)
       then chr LF +:+ chr LF else EmptyString)
  +:+ after.
Proof.
  intros [Hs He] Hj Hk. destruct markers_lineText as [Ls Le].
  unfold removeWrapper.
  rewrite !indexOf_app_LF by done.
  rewrite (occurrences_none _ _ Hs), (occurrences_none _ _ He), Hj, Hk.
  cbn [fmap option_fmap option_map]. unfold slice, sliceFrom.
  cbn [drop]. rewrite Nat.sub_0_r.
  replace (String.length x + 1 + j) with (String.length x + S j) by lia.
  replace (String.length x + 1 + k + String.length getMarkerEnd)
    with (String.length x + S (k + String.length getMarkerEnd)) by lia.
  rewrite take_app, drop_app. done.
Qed.

(** The appended block: where its markers are, and what follows them. *)
Lemma installed_markers shell :
  ∃ k, indexOf (installed shell) getMarkerStart = Some 0 ∧
       indexOf (installed shell) getMarkerEnd = Some k ∧
       drop (k + String.length getMarkerEnd) (installed shell) = chr LF ∧
       oneBlock (installed shell).
Proof.
  destruct shell; eexists; (split; [|split; [|split; [|split]]]);
    vm_compute; reflexivity.
Qed.

(** A marker-free text followed by the separator and the block holds one
    block, and [removeWrapper] gives back the text without its final line
    feeds. *)
Lemma installed_after_free shell x (two : bool) :
  markerFree x →
  oneBlock (x +:+ newlines (if two then 2 else 1) +:+ installed shell) ∧
  removeWrapper (x +:+ newlines (if two then 2 else 1) +:+ installed shell)
  = stripTrailingNewlines x.
Proof.
  intros Hx. destruct markers_lineText as [Ls Le].
  destruct (installed_markers shell) as (k & Hs & He & Hd & [H1 H2]).
  destruct Hx as [Hxs Hxe]. destruct two.
  - change (newlines 2 +:+ installed shell)
      with (String LF (String LF (installed shell))).
    split.
    + split; rewrite occurrences_app_LF, occurrences_LF by done; lia.
    + rewrite (removeWrapper_appended x _ 1 (S k)); [|done| |].
      * cbn [take]. change (String LF (String LF EmptyString)) with (newlines 2).
        rewrite stripTrailingNewlines_app.
        change (drop (S k + String.length getMarkerEnd)
                     (String LF (installed shell)))
          with (drop (k + String.length getMarkerEnd) (installed shell)).
        rewrite Hd. cbn [stripLeadingNewlines chr]. rewrite decide_True by done.
        cbn [stripLeadingNewlines isEmpty negb].
        by rewrite andb_false_r, !str_app_nil_end.
      * cbn [indexOf]. rewrite startsWith_LF_needle by done. by rewrite Hs.
      * cbn [indexOf]. rewrite startsWith_LF_needle by done. by rewrite He.
  - change (newlines 1 +:+ installed shell) with (String LF (installed shell)).
    split.
    + split; rewrite occurrences_app_LF by done; lia.
    + rewrite (removeWrapper_appended x _ 0 k) by done.
      cbn [take]. change (String LF EmptyString) with (newlines 1).
      rewrite stripTrailingNewlines_app, Hd.
      cbn [stripLeadingNewlines chr]. rewrite decide_True by done.
      cbn [stripLeadingNewlines isEmpty negb].
      by rewrite andb_false_r, !str_app_nil_end.
Qed.

Lemma addWrapper_form shell content :
  addWrapper shell content =
  removeWrapper content
  +:+ newlines (if endsWith (removeWrapper content) (chr LF) then 1 else 2)
  +:+ installed shell.
Proof.
  unfold addWrapper. by destruct (endsWith (removeWrapper content) (chr LF)).
Qed.

(** C8, as the code has it.  When the cleaned content holds no marker, the
    result of [addWrapper] holds one block; installing again replaces the
    block, giving the cleaned content without its final line feeds, a blank
    line and the block, which holds one block and is a fixed point; and
    installing twice equals installing once when the cleaned content does not
    end with two line feeds. *)
Theorem addWrapper_reinstall (shell : ShellType) (content : string) :
  markerFree (removeWrapper content) →
  oneBlock (addWrapper shell content) ∧
  addWrapper shell (addWrapper shell content)
  = stripTrailingNewlines (removeWrapper content) +:+ newlines 2
    +:+ installed shell ∧
  oneBlock (addWrapper shell (addWrapper shell content)) ∧
  addWrapper shell (addWrapper shell (addWrapper shell content))
  = addWrapper shell (addWrapper shell content) ∧
  (endsWith (removeWrapper content) (newlines 2) = false →
   addWrapper shell (addWrapper shell content) = addWrapper shell content).
Proof.
  intros Hfree. destruct markers_lineText as [Ls Le].
  set (x := removeWrapper content) in *.
  assert (Hfree' : markerFree (stripTrailingNewlines x)).
  { destruct Hfree. split; by rewrite occurrences_stripped. }
  assert (Hform : ∀ y (two : bool),
            markerFree y →
            addWrapper shell
              (y +:+ newlines (if two then 2 else 1) +:+ installed shell)
            = stripTrailingNewlines y +:+ newlines 2 +:+ installed shell).
  { intros y two Hy. rewrite addWrapper_form.
    destruct (installed_after_free shell y two Hy) as [_ ->].
    by rewrite endsWith_stripped. }
  assert (H1 : addWrapper shell content
               = x +:+ newlines (if negb (endsWith x (chr LF)) then 2 else 1)
                 +:+ installed shell).
  { rewrite addWrapper_form. fold x. by destruct (endsWith x (chr LF)). }
  assert (H2 : addWrapper shell (addWrapper shell content)
               = stripTrailingNewlines x +:+ newlines 2 +:+ installed shell).
  { rewrite H1. by apply Hform. }
  split; [|split; [|split; [|split]]].
  - rewrite H1. by apply installed_after_free.
  - exact H2.
  - rewrite H2. by apply (installed_after_free shell _ true).
  - rewrite H2. rewrite (Hform _ true Hfree').
    by rewrite stripTrailingNewlines_idemp.
  - intros Hend. rewrite H2, addWrapper_form. fold x.
    rewrite <- !str_app_assoc. f_equal. symmetry. by apply separator_after.
Qed.

(** The fourth scenario of the specification: installing twice leaves one
    block. *)
Example addWrapper_scenario_4 :
  oneBlock (addWrapper bash (addWrapper bash ("existing content" +:+ chr LF))).
Proof. split; vm_compute; reflexivity. Qed.

Lemma addWrapper_reinstall_witness :
  markerFree (removeWrapper "export PATH=/bin") ∧
  addWrapper bash (addWrapper bash "export PATH=/bin")
  = addWrapper bash "export PATH=/bin".
Proof.
  assert (H : markerFree (removeWrapper "export PATH=/bin"))
    by (split; reflexivity).
  split; [exact H|].
  apply (addWrapper_reinstall bash "export PATH=/bin" H). reflexivity.
Defined.

(** C8 as stated fails: with two final line feeds in the content the second
    installation differs from the first, and a lone start marker in the
    content stays beside the one of the block. *)
Lemma addWrapper_not_idempotent :
  addWrapper bash (addWrapper bash ("foo" +:+ newlines 2))
  ≠ addWrapper bash ("foo" +:+ newlines 2) ∧
  occurrences (addWrapper bash getMarkerStart) getMarkerStart = 2.
Proof.
  split; [|reflexivity].
  intros H. apply (f_equal String.length) in H. vm_compute in H. done.
Qed.

(* ===================================================================== *)
(** * The repository's unit tests, replayed on the embedding *)
(* ===================================================================== *)

(** ProfileStore.test.ts, parseVariables. *)
Example test_parse_simple : parseVariables "KEY=value" = {[ "KEY" := "value" ]}.
Proof. vm_compute. reflexivity. Qed.

Example test_parse_quoted :
  parseVariables ("KEY=" +:+ quoted "value with spaces" +:+ chr LF
                  +:+ "KEY2='single quoted'")
  = {[ "KEY" := "value with spaces"; "KEY2" := "single quoted" ]}.
Proof. vm_compute. reflexivity. Qed.

Example test_parse_comments :
  parseVariables (join_lines
    [ "# comment"; "KEY=value"; EmptyString; "# another comment";
      "KEY2=value2" ])
  = {[ "KEY" := "value"; "KEY2" := "value2" ]}.
Proof. vm_compute. reflexivity. Qed.

(** ProfileResolver.test.ts. *)
Example test_resolve_merge :
  ∃ env, resolve testStore ["profile1"; "profile2"] = Ok env ∧
    ResolvedEnv.variables env !! "SHARED"
    = Some (mkEnvVariable "shared2" "profile2") ∧
    ResolvedEnv.conflicts env
    = [mkConflict "SHARED" ["profile1"; "profile2"] "profile2"].
Proof. eexists. split; [reflexivity|]. split; vm_compute; reflexivity. Qed.

Example test_resolve_missing :
  resolve testStore ["nonexistent"] = Throw "Profile not found: nonexistent".
Proof. reflexivity. Qed.

Example test_diff :
  diff {[ "KEEP" := mkEnvVariable "keep" "p1";
          "CHANGE" := mkEnvVariable "old" "p1";
          "REMOVE" := mkEnvVariable "remove" "p1" ]}
       {[ "KEEP" := mkEnvVariable "keep" "p1";
          "CHANGE" := mkEnvVariable "new" "p2";
          "ADD" := mkEnvVariable "add" "p2" ]}
  = Diff.make {[ "CHANGE" := "new"; "ADD" := "add" ]} ["REMOVE"].
Proof. vm_compute. reflexivity. Qed.

Example test_computeRemoval :
  computeRemoval testStore
    {[ "KEY1" := mkEnvVariable "value1" "profile1";
       "KEY2" := mkEnvVariable "value2" "profile2";
       "SHARED" := mkEnvVariable "shared2" "profile2" ]}
    ["profile1"]
  = Ok (Removal.make ["KEY2"]
          {[ "KEY1" := JsObject.Own (mkEnvVariable "value1" "profile1");
             "SHARED" := JsObject.Own (mkEnvVariable "shared" "profile1") ]}).
Proof. vm_compute. reflexivity. Qed.

Example test_computeRemoval_none_left :
  ∃ r, computeRemoval testStore
         {[ "KEY1" := mkEnvVariable "value1" "profile1";
            "KEY2" := mkEnvVariable "value2" "profile2" ]} [] = Ok r ∧
       Removal.toKeep r = ∅ ∧
       ∀ key, key ∈ Removal.toUnset r ↔ key = "KEY1" ∨ key = "KEY2".
Proof.
  eexists. split; [reflexivity|]. split; [vm_compute; reflexivity|].
  intros key. vm_compute Removal.toUnset.
  rewrite !elem_of_cons, elem_of_nil. tauto.
Qed.

(** StateManager.test.ts. *)
Example test_update_snapshot :
  ∃ file state,
    update "now"
      (λ key, if decide (key = "EXISTING_KEY") then Some "existing" else None)
      Absent ["profile1"]
      {[ "EXISTING_KEY" := mkEnvVariable "new" "profile1";
         "NEW_KEY" := mkEnvVariable "new" "profile1" ]}
    = Ok (file, state) ∧
    StateData.snapshot state !! "EXISTING_KEY" = Some (Some "existing") ∧
    StateData.snapshot state !! "NEW_KEY" = Some None ∧
    load "later" file = Ok state.
Proof.
  eexists _, _. split; [reflexivity|]. repeat split; vm_compute; reflexivity.
Qed.

Example test_addProfiles_no_duplicates :
  ∃ file1 state1 file2 state2,
    update "t1" (λ _, None) Absent ["p1"] ∅ = Ok (file1, state1) ∧
    addProfiles "t2" (λ _, None) file1 ["p1"; "p2"] ∅ = Ok (file2, state2) ∧
    StateData.active_profiles state2 = ["p1"; "p2"].
Proof. eexists _, _, _, _. repeat split; reflexivity. Qed.

(** utils.test.ts and ShellAdapter.test.ts. *)
Example test_sanitize : sanitizeForShell "a'b'c" = "a'\''b'\''c".
Proof. reflexivity. Qed.

Example test_export_bash :
  generateExport bash "KEY" "value'with'quotes"
  = "export KEY='value'\''with'\''quotes'".
Proof. reflexivity. Qed.

Example test_export_fish :
  generateExport fish "KEY" "value" = "set -gx KEY 'value'".
Proof. reflexivity. Qed.

Example test_wrapper_detected :
  isWrapperInstalled (join_lines
    [ "some stuff"; getMarkerStart; "wrapper code"; getMarkerEnd;
      "more stuff" ]) = true ∧
  isWrapperInstalled "some other content" = false.
Proof. split; vm_compute; reflexivity. Qed.

Example test_wrapper_removed :
  removeWrapper (join_lines
    [ "before"; getMarkerStart; "wrapper"; getMarkerEnd; "after" ])
  = join_lines [ "before"; EmptyString; "after" ].
Proof. vm_compute. reflexivity. Qed.

(* ===================================================================== *)
(** ** The state manager, continued *)
(* ===================================================================== *)

Lemma load_active now file state :
  load now file = Ok state → StateData.active_profiles state = activeOf file.
Proof.
  destruct file as [| |[text|data]]; intros [= <-]; reflexivity.
Qed.

Lemma foldl_delete_lookup {V} (keys : list string) : ∀ (m : gmap string V) key,
  foldl (λ (m : gmap string V) (k : string), delete k m) m keys !! key
  = if decide (key ∈ keys) then None else m !! key.
Proof.
  induction keys as [|k keys IH]; intros m key; cbn [foldl].
  - case_decide as Hin; [by apply elem_of_nil in Hin|done].
  - rewrite IH. destruct (decide (key ∈ keys)) as [Hin|Hout].
    + case_decide as Hc; [done|]. destruct Hc. by right.
    + destruct (decide (k = key)) as [->|Hne].
      * rewrite lookup_delete_eq. case_decide as Hc; [done|].
        destruct Hc. by left.
      * rewrite lookup_delete_ne by done. case_decide as Hc; [|done].
        apply elem_of_cons in Hc as [?|?]; congruence.
Qed.

Lemma addProfiles_list (toAdd : list string) : ∀ old : list string,
  ∃ added,
    foldl (λ (profiles : list string) (profile : string),
             if decide (profile ∈ profiles) then profiles
             else profiles ++ [profile]) old toAdd
    = old ++ added ∧
    (∀ p, p ∈ added ↔ p ∈ toAdd ∧ p ∉ old) ∧
    NoDup added.
Proof.
  induction toAdd as [|a toAdd IH]; intros old; simpl.
  - exists []. rewrite app_nil_r. split; [done|]. split; [|constructor].
    intros p. split; [intros H; by apply elem_of_nil in H|].
    intros [H _]. by apply elem_of_nil in H.
  - destruct (decide (a ∈ old)) as [Hin|Hout].
    + destruct (IH old) as (added & -> & Hadded & Hnodup).
      exists added. split; [done|]. split; [|done]. intros p.
      rewrite Hadded, elem_of_cons. split; [tauto|].
      intros [[->|?] ?]; [done|tauto].
    + destruct (IH (old ++ [a])) as (added & -> & Hadded & Hnodup).
      exists (a :: added). rewrite <- app_assoc. split; [done|].
      split.
      * intros p. rewrite !elem_of_cons, Hadded, elem_of_app, list_elem_of_singleton.
        split.
        -- intros [->|[? ?]]; [tauto|]. split; [tauto|]. tauto.
        -- intros [[->|?] ?]; [by left|]. destruct (decide (p = a)); [by left|].
           right. tauto.
      * constructor; [|done]. rewrite Hadded, elem_of_app, list_elem_of_singleton.
        tauto.
Qed.

(* ===================================================================== *)
(** ** The commands *)
(* ===================================================================== *)

Lemma profileExists_present store name :
  profileExists store name = true ↔ ¬ missing store name.
Proof.
  unfold profileExists. rewrite bool_decide_eq_true, <- loadProfile_None. done.
Qed.

Lemma validateProfiles_present store names :
  Forall (λ n, ¬ missing store n) names → validateProfiles store names = Ok tt.
Proof.
  induction 1 as [|name names Hname _ IH]; simpl; [done|].
  apply profileExists_present in Hname. by rewrite Hname.
Qed.

Lemma validateProfiles_missing store names name :
  name ∈ names → missing store name →
  validateProfiles store names = Throw EmptyString.
Proof.
  intros Hin Hmissing. induction names as [|n names IH]; simpl.
  - by apply elem_of_nil in Hin.
  - destruct (profileExists store n) eqn:Hn; [|done].
    apply elem_of_cons in Hin as [->|Hin]; [|by apply IH].
    apply profileExists_present in Hn. done.
Qed.

Lemma resolveLoop_Ok store names : ∀ acc acc',
  resolveLoop store names acc = Ok acc' →
  Forall (λ n, ¬ missing store n) names.
Proof.
  induction names as [|name names IH]; intros acc acc' H; simpl in H.
  - constructor.
  - destruct (loadProfile store name) as [p|] eqn:Hp; [|done].
    constructor; [|by eapply IH].
    rewrite <- loadProfile_None. congruence.
Qed.

Lemma resolve_Ok store names env :
  resolve store names = Ok env →
  ∃ ps, mapM (loadProfile store) names = Some ps ∧ env = resolveProfiles ps.
Proof.
  intros H. unfold resolve in H.
  destruct (resolveLoop store names (∅, [])) as [acc|] eqn:Hloop; [|done].
  pose proof (resolveLoop_Ok _ _ _ _ Hloop) as Hall.
  destruct (loadAll_present _ _ Hall) as [ps Hps]. exists ps. split; [done|].
  pose proof (resolve_loaded _ _ _ Hps) as H'.
  unfold resolve in H'. rewrite Hloop in H'. congruence.
Qed.

Lemma resolve_present store names :
  Forall (λ n, ¬ missing store n) names →
  ∃ env, resolve store names = Ok env.
Proof.
  intros H. destruct (loadAll_present _ _ H) as [ps Hps].
  exists (resolveProfiles ps). by apply resolve_loaded.
Qed.

Lemma lastWins_origin key ps ev :
  lastWins key ps = Some ev →
  ∃ p, p ∈ ps ∧ source ev = Profile.name p
       ∧ Profile.variables p !! key = Some (value ev).
Proof.
  unfold lastWins. intros H.
  destruct (last (setters key ps)) as [p|] eqn:Hlast; [|done]. simpl in H.
  destruct (Profile.variables p !! key) as [v|] eqn:Hv; [|done].
  simpl in H. injection H as <-. exists p. split; [|done].
  apply last_Some in Hlast as [l Hl].
  assert (Hin : p ∈ setters key ps).
  { rewrite Hl. apply elem_of_app. right. by left. }
  unfold setters in Hin. by apply list_elem_of_filter in Hin as [_ ?].
Qed.

(** Where a resolved variable comes from: its source is one of the requested
    names, and the profile of that name defines the variable with the
    resolved value. *)
Lemma resolve_origin store names env key ev :
  resolve store names = Ok env →
  ResolvedEnv.variables env !! key = Some ev →
  source ev ∈ names ∧
  ∃ p, loadProfile store (source ev) = Some p
       ∧ Profile.variables p !! key = Some (value ev).
Proof.
  intros Hres Hkey. apply resolve_Ok in Hres as (ps & Hps & ->).
  pose proof (loadAll_wellFormed _ _ _ Hps) as Hwf.
  destruct (resolveProfiles_spec ps Hwf) as [Hvars _].
  rewrite Hvars in Hkey. apply lastWins_origin in Hkey as (p & Hin & Hsrc & Hv).
  apply mapM_Some in Hps.
  apply list_elem_of_lookup in Hin as [i Hi].
  destruct (Forall2_lookup_r _ _ _ _ _ Hps Hi) as (n & Hn & Hload).
  pose proof (loadProfile_Some _ _ _ Hload) as [_ Hname].
  rewrite Hsrc, Hname. split.
  - by eapply list_elem_of_lookup_2.
  - by exists p.
Qed.

Lemma resolve_no_proto store names env :
  resolve store names = Ok env →
  ResolvedEnv.variables env !! "__proto__" = None.
Proof.
  intros Hres. destruct (ResolvedEnv.variables env !! "__proto__") as [ev|] eqn:H;
    [|done].
  destruct (resolve_origin _ _ _ _ _ Hres H) as (_ & p & Hload & Hv).
  apply loadProfile_Some in Hload as [Hwf _]. unfold wellFormed in Hwf.
  congruence.
Qed.


Lemma values_fold (l : list (string * EnvVariable)) :
  NoDup l.*1 → "__proto__" ∉ l.*1 → ∀ (init : gmap string string) key,
  foldl (λ (toSet : gmap string string) (entry : string * EnvVariable),
           JsObject.assign toSet entry.1 (value entry.2)) init l !! key
  = match (list_to_map l : gmap string EnvVariable) !! key with
    | Some ev => Some (value ev)
    | None => init !! key
    end.
Proof.
  induction l as [|[k ev] l IH]; intros Hnodup Hproto init key; simpl.
  - by rewrite lookup_empty.
  - apply NoDup_cons in Hnodup as [Hk Hnodup].
    apply not_elem_of_cons in Hproto as [Hne Hproto].
    rewrite IH by done. rewrite lookup_insert.
    destruct (decide (k = key)) as [->|Hkey].
    + rewrite (not_elem_of_list_to_map_1 _ _ Hk).
      rewrite assign_lookup by done. by rewrite decide_True.
    + destruct (list_to_map l !! key); [done|].
      rewrite assign_lookup by done. by rewrite decide_False.
Qed.

Lemma values_of_record (m : gmap string EnvVariable) :
  m !! "__proto__" = None →
  foldl (λ (toSet : gmap string string) (entry : string * EnvVariable),
           JsObject.assign toSet entry.1 (value entry.2))
        ∅ (JsObject.entries m)
  = value <$> m.
Proof.
  intros Hproto. apply map_eq. intros key. unfold JsObject.entries.
  rewrite values_fold.
  - rewrite list_to_map_to_list, lookup_fmap, lookup_empty.
    by destruct (m !! key).
  - apply NoDup_fst_map_to_list.
  - intros Hin. apply list_elem_of_fmap in Hin as ([k v] & Heq & Hin).
    simpl in Heq. subst. apply elem_of_map_to_list in Hin. congruence.
Qed.

Lemma keys_elem {V} (m : gmap string V) key :
  key ∈ JsObject.keys m ↔ is_Some (m !! key).
Proof.
  unfold JsObject.keys. split.
  - intros Hin. apply list_elem_of_fmap in Hin as ([k v] & Heq & Hin).
    simpl in Heq. subst. apply elem_of_map_to_list in Hin. by eexists.
  - intros [v Hv]. apply list_elem_of_fmap. exists (key, v). split; [done|].
    by apply elem_of_map_to_list.
Qed.

Lemma applyPlan_lookup toSet toUnset environment key :
  applyPlan toSet toUnset environment !! key
  = match toSet !! key with
    | Some v => Some v
    | None => if decide (key ∈ toUnset) then None else environment !! key
    end.
Proof.
  unfold applyPlan. destruct (toSet !! key) as [v|] eqn:Hv.
  - by apply lookup_union_Some_l.
  - rewrite lookup_union_r by done. apply foldl_delete_lookup.
Qed.

Lemma bind_Ok {A B} (a : A) (f : A → result B) : (x ← Ok a; f x) = f a.
Proof. reflexivity. Qed.

Lemma bind_Throw {A B} message (f : A → result B) :
  (x ← Throw message; f x) = Throw message.
Proof. reflexivity. Qed.

Lemma use_toUnset (currentVars resolved : gmap string EnvVariable) key :
  key ∈ filter (λ key, JsObject.truthy resolved key = false)
               (JsObject.keys currentVars)
  ↔ is_Some (currentVars !! key) ∧ resolved !! key = None
    ∧ JsObject.inherited key = false.
Proof.
  rewrite list_elem_of_filter, truthy_false, keys_elem. tauto.
Qed.

(** What [use] does when every profile exists: it exports every resolved
    variable, unsets the tracked variables that are no longer resolved, and
    records the profiles and the resolved variables. *)
Lemma useCommand_spec shell store now env file names resolved :
  Forall (λ n, ¬ missing store n) names →
  resolve store names = Ok resolved →
  ∃ toUnset,
    useCommand shell store now env file names
    = Ok (Emission.make
            (value <$> ResolvedEnv.variables resolved) toUnset
            (generateCommands shell
               (value <$> ResolvedEnv.variables resolved) toUnset)
            (save (StateData.make names (ResolvedEnv.variables resolved)
                     (captureSnapshot env (snapshotOf file)
                        (JsObject.keys (ResolvedEnv.variables resolved)))
                     now))) ∧
    ∀ key, key ∈ toUnset ↔
           is_Some (variablesOf file !! key)
           ∧ ResolvedEnv.variables resolved !! key = None
           ∧ JsObject.inherited key = false.
Proof.
  intros Hall Hres. unfold useCommand.
  rewrite (validateProfiles_present _ _ Hall), bind_Ok, Hres, bind_Ok.
  unfold update. destruct (load_total now file) as [current Hload].
  rewrite Hload, !bind_Ok. cbn [fst].
  rewrite (values_of_record _ (resolve_no_proto _ _ _ Hres)).
  rewrite (load_snapshot _ _ _ Hload), (load_variables _ _ _ Hload).
  eexists. split; [reflexivity|]. intros key. apply use_toUnset.
Qed.

Lemma add_toSet (current next : gmap string EnvVariable) key :
  next !! "__proto__" = None →
  foldl (diffSetStep current) ∅ (JsObject.entries next) !! key
  = expectedToSet current next key.
Proof.
  intros Hproto. unfold JsObject.entries, expectedToSet.
  rewrite diffSet_fold by apply NoDup_fst_map_to_list.
  rewrite list_to_map_to_list, lookup_empty.
  destruct (next !! key) as [nv|] eqn:Hnext; [|done].
  rewrite decide_False by congruence.
  unfold JsObject.get. destruct (current !! key) as [cv|]; simpl.
  - destruct (decide (value cv = value nv)) as [Heq|Hne].
    + by rewrite bool_decide_eq_false_2 by tauto.
    + by rewrite bool_decide_eq_true_2.
  - by destruct (JsObject.inherited key).
Qed.

Lemma filter_length_0 {A} (P : A → Prop) `{∀ x, Decision (P x)} (l : list A) :
  length (filter P l) = 0 ↔ ∀ x, x ∈ l → ¬ P x.
Proof.
  split.
  - intros Hlen x Hin HP. apply length_zero_iff_nil in Hlen.
    assert (Hx : x ∈ filter P l) by (apply list_elem_of_filter; done).
    rewrite Hlen in Hx. by apply elem_of_nil in Hx.
  - intros Hall. by rewrite filter_none.
Qed.

(** [add] when every profile exists and one of them at least is not active
    yet. *)
Lemma addCommand_spec shell store now env file names resolved :
  Forall (λ n, ¬ missing store n) names →
  length (filter (λ p, p ∉ activeOf file) names) ≠ 0 →
  resolve store (activeOf file ++ filter (λ p, p ∉ activeOf file) names)
  = Ok resolved →
  ∃ toSet active,
    addCommand shell store now env file names
    = Ok (Emission.make toSet [] (generateExports shell toSet)
            (save (StateData.make active
                     (ResolvedEnv.variables resolved ∪ variablesOf file)
                     (captureSnapshot env (snapshotOf file)
                        (JsObject.keys (ResolvedEnv.variables resolved)))
                     now))) ∧
    (∀ key, toSet !! key
            = expectedToSet (variablesOf file)
                            (ResolvedEnv.variables resolved) key) ∧
    ∃ added, active = activeOf file ++ added ∧
      ∀ p, p ∈ added ↔ p ∈ names ∧ p ∉ activeOf file.
Proof.
  intros Hall Hnew Hres. unfold addCommand.
  rewrite (validateProfiles_present _ _ Hall), bind_Ok.
  unfold addProfiles. destruct (load_total now file) as [current Hload].
  rewrite Hload, !bind_Ok.
  rewrite (load_active _ _ _ Hload), (load_snapshot _ _ _ Hload),
    (load_variables _ _ _ Hload).
  rewrite decide_False by done. rewrite Hres, !bind_Ok. cbn [fst].
  eexists _, _. split; [reflexivity|]. split.
  - intros key. apply add_toSet. by eapply resolve_no_proto.
  - destruct (addProfiles_list (filter (λ p, p ∉ activeOf file) names)
                (activeOf file)) as (added & Heq & Hadded & _).
    exists added. split; [exact Heq|]. intros p. rewrite Hadded.
    rewrite list_elem_of_filter. tauto.
Qed.

(** [add] when every named profile is active already: nothing is printed
    and the state file is not written. *)
Lemma addCommand_nothing shell store now env file names :
  Forall (λ n, ¬ missing store n) names →
  (∀ p, p ∈ names → p ∈ activeOf file) →
  addCommand shell store now env file names
  = Ok (Emission.make ∅ [] EmptyString file).
Proof.
  intros Hall Hactive. unfold addCommand.
  rewrite (validateProfiles_present _ _ Hall), bind_Ok.
  destruct (load_total now file) as [current Hload].
  rewrite Hload, !bind_Ok, (load_active _ _ _ Hload).
  rewrite decide_True; [done|]. apply filter_length_0. intros p Hin Hout.
  by apply Hout, Hactive.
Qed.

Lemma removal_no_proto (remaining : gmap string EnvVariable)
    (l : list (string * EnvVariable)) : ∀ acc : Removal.t,
  Removal.toKeep acc !! "__proto__" = None →
  Removal.toKeep (foldl (removalStep remaining) acc l) !! "__proto__" = None.
Proof.
  induction l as [|[k ev] l IH]; intros acc Hacc; simpl; [done|].
  apply IH. unfold removalStep. simpl.
  destruct (JsObject.get remaining k); simpl; [|done].
  by apply assign_no_proto.
Qed.

(** What [computeRemoval] returns, in terms of the reads
    [remaining.variables[key]]. *)
Lemma computeRemoval_reads store current names remaining :
  resolveRemaining store names = Ok remaining →
  ∃ removal,
    computeRemoval store current names = Ok removal ∧
    (∀ key, Removal.toKeep removal !! key =
            if decide (key = "__proto__") then None
            else match current !! key with
                 | Some _ => JsObject.get remaining key
                 | None => None
                 end) ∧
    (∀ key, key ∈ Removal.toUnset removal ↔
            is_Some (current !! key) ∧ JsObject.get remaining key = None).
Proof.
  intros Hrem. unfold computeRemoval. rewrite Hrem. eexists.
  split; [reflexivity|]. unfold JsObject.entries.
  destruct (removal_fold remaining (map_to_list current)
              (NoDup_fst_map_to_list _) (Removal.make [] ∅)) as [Hkeep Hunset].
  split.
  - intros key. destruct (decide (key = "__proto__")) as [->|Hne].
    + by apply removal_no_proto.
    + rewrite (Hkeep key Hne), list_to_map_to_list. simpl.
      rewrite lookup_empty. destruct (current !! key); [|done].
      by destruct (JsObject.get remaining key).
  - intros key. rewrite Hunset. simpl. rewrite list_elem_of_filter.
    change ((map_to_list current).*1) with (JsObject.keys current).
    rewrite keys_elem. tauto.
Qed.

Lemma removeSet_fold (currentVars : gmap string EnvVariable)
    (l : list (string * JsObject.fetched EnvVariable)) :
  NoDup l.*1 → "__proto__" ∉ l.*1 →
  ∀ (init : gmap string (option string)) key,
  foldl (removeSetStep currentVars) init l !! key
  = match (list_to_map l : gmap string (JsObject.fetched EnvVariable)) !! key
    with
    | Some found =>
        match JsObject.get currentVars key with
        | Some current =>
            if decide (fetchedValue current ≠ fetchedValue found)
            then Some (fetchedValue found) else init !! key
        | None => init !! key
        end
    | None => init !! key
    end.
Proof.
  induction l as [|[k found] l IH]; intros Hnodup Hproto init key; simpl.
  - by rewrite lookup_empty.
  - apply NoDup_cons in Hnodup as [Hk Hnodup].
    apply not_elem_of_cons in Hproto as [Hne Hproto].
    rewrite IH by done. rewrite lookup_insert.
    assert (Hstep : ∀ key', key' ≠ k →
              removeSetStep currentVars init (k, found) !! key' = init !! key').
    { intros key' Hkey'. unfold removeSetStep. simpl.
      destruct (JsObject.get currentVars k); [|done].
      case_decide; [|done]. rewrite assign_lookup by done.
      by rewrite decide_False. }
    destruct (decide (k = key)) as [->|Hkey].
    + rewrite (not_elem_of_list_to_map_1 _ _ Hk).
      unfold removeSetStep. simpl.
      destruct (JsObject.get currentVars key); [|done].
      case_decide; [|done]. rewrite assign_lookup by done.
      by rewrite decide_True.
    + destruct (list_to_map l !! key) as [found'|]; [|by apply Hstep].
      destruct (JsObject.get currentVars key); [|by apply Hstep].
      case_decide; [done|]. by apply Hstep.
Qed.

Lemma stringValues_Ok {V} (asString : V → option string) message
    (record : gmap string V) :
  (∀ key v, record !! key = Some v → is_Some (asString v)) →
  stringValues asString message record = Ok (omap asString record).
Proof.
  intros Hall. unfold stringValues. by rewrite decide_True.
Qed.

Lemma stringValues_inv {V} (asString : V → option string) message
    (record : gmap string V) strings :
  stringValues asString message record = Ok strings →
  strings = omap asString record ∧
  ∀ key v, record !! key = Some v → is_Some (asString v).
Proof.
  unfold stringValues. case_decide as Hall; [|done]. intros [= <-]. done.
Qed.

(** What [remove] computes once the removal is known. *)
Lemma removeCommand_reads shell store now file names remaining :
  length (filter (λ p, p ∈ activeOf file) names) ≠ 0 →
  resolveRemaining store
    (filter (λ p, p ∉ filter (λ p, p ∈ activeOf file) names) (activeOf file))
  = Ok remaining →
  ∃ removal toSet,
    (∀ key, Removal.toKeep removal !! key =
            if decide (key = "__proto__") then None
            else match variablesOf file !! key with
                 | Some _ => JsObject.get remaining key
                 | None => None
                 end) ∧
    (∀ key, key ∈ Removal.toUnset removal ↔
            is_Some (variablesOf file !! key)
            ∧ JsObject.get remaining key = None) ∧
    (∀ key, toSet !! key =
            match Removal.toKeep removal !! key with
            | Some found =>
                match variablesOf file !! key with
                | Some current =>
                    if decide (Some (value current) ≠ fetchedValue found)
                    then Some (fetchedValue found) else None
                | None => None
                end
            | None => None
            end) ∧
    removeCommand shell store now file names
    = exported ← stringValues id undefinedValue toSet;
      Ok (Emission.make exported (Removal.toUnset removal)
            (generateCommands shell exported (Removal.toUnset removal))
            (save (StateData.make
                     (filter (λ p, p ∉ filter (λ p, p ∈ activeOf file) names)
                             (activeOf file))
                     (stringified (Removal.toKeep removal))
                     (foldl (λ (snapshot : gmap string (option string))
                               (key : string), delete key snapshot)
                            (snapshotOf file) (Removal.toUnset removal))
                     now))).
Proof.
  intros Hsome Hrem. unfold removeCommand, removeProfiles.
  destruct (load_total now file) as [current Hload].
  rewrite Hload, !bind_Ok.
  rewrite (load_active _ _ _ Hload), (load_snapshot _ _ _ Hload),
    (load_variables _ _ _ Hload).
  rewrite decide_False by done.
  destruct (computeRemoval_reads store (variablesOf file) _ _ Hrem)
    as (removal & -> & Hkeep & Hunset).
  rewrite bind_Ok. eexists removal, _. split; [exact Hkeep|].
  split; [exact Hunset|]. split; [|reflexivity].
  intros key. unfold JsObject.entries. rewrite removeSet_fold.
  - rewrite list_to_map_to_list, lookup_empty.
    destruct (Removal.toKeep removal !! key) as [found|] eqn:Hfound; [|done].
    rewrite Hkeep in Hfound. case_decide; [done|].
    unfold JsObject.get at 1.
    destruct (variablesOf file !! key) as [cv|]; [|done]. done.
  - apply NoDup_fst_map_to_list.
  - intros Hin. apply list_elem_of_fmap in Hin as ([k v] & Heq & Hin).
    simpl in Heq. subst. apply elem_of_map_to_list in Hin.
    rewrite Hkeep in Hin. by rewrite decide_True in Hin.
Qed.

(** [remove] when none of the named profiles is active: nothing is printed
    and the state file is not written. *)
Lemma removeCommand_nothing shell store now file names :
  (∀ p, p ∈ names → p ∉ activeOf file) →
  removeCommand shell store now file names
  = Ok (Emission.make ∅ [] EmptyString file).
Proof.
  intros Hnone. unfold removeCommand.
  destruct (load_total now file) as [current Hload].
  rewrite Hload, !bind_Ok, (load_active _ _ _ Hload).
  rewrite decide_True; [done|]. apply filter_length_0. intros p Hin Hactive.
  by apply (Hnone p).
Qed.

Lemma reset_fold (snapshot : gmap string (option string))
    (l : list (string * EnvVariable)) :
  NoDup l.*1 →
  ∀ acc : list string * gmap string (JsObject.fetched string),
  (∀ key, key ≠ "__proto__" →
     (foldl (resetStep snapshot) acc l).2 !! key =
     match (list_to_map l : gmap string EnvVariable) !! key with
     | Some _ =>
         match JsObject.get snapshot key with
         | Some (JsObject.Own (Some s)) => Some (JsObject.Own s)
         | Some (JsObject.Member k) => Some (JsObject.Member k)
         | _ => acc.2 !! key
         end
     | None => acc.2 !! key
     end) ∧
  (acc.2 !! "__proto__" = None →
   (foldl (resetStep snapshot) acc l).2 !! "__proto__" = None) ∧
  (foldl (resetStep snapshot) acc l).1 =
  acc.1 ++ filter (λ key, JsObject.get snapshot key = None
                          ∨ JsObject.get snapshot key
                            = Some (JsObject.Own None)) l.*1.
Proof.
  induction l as [|[k ev] l IH]; intros Hnodup acc; simpl.
  - split; [|split; [done|by rewrite app_nil_r]].
    intros key _. by rewrite lookup_empty.
  - apply NoDup_cons in Hnodup as [Hk Hnodup].
    destruct (IH Hnodup (resetStep snapshot acc (k, ev)))
      as (IH1 & IH2 & IH3).
    split; [|split].
    + intros key Hne. rewrite (IH1 key Hne), lookup_insert.
      assert (Hstep : ∀ key', key' ≠ k →
                (resetStep snapshot acc (k, ev)).2 !! key' = acc.2 !! key').
      { intros key' Hkey'. unfold resetStep. simpl.
        destruct (JsObject.get snapshot k) as [[[s|]|m]|]; simpl; try done;
          unfold JsObject.assign; case_decide; try done;
          by rewrite lookup_insert_ne. }
      destruct (decide (k = key)) as [->|Hkey].
      * rewrite (not_elem_of_list_to_map_1 _ _ Hk).
        unfold resetStep. simpl.
        destruct (JsObject.get snapshot key) as [[[s|]|m]|]; simpl; try done;
          rewrite assign_lookup by done; by rewrite decide_True.
      * destruct (list_to_map l !! key); [|by apply Hstep].
        destruct (JsObject.get snapshot key) as [[[s|]|m]|]; try done;
          by apply Hstep.
    + intros Hacc. apply IH2. unfold resetStep. simpl.
      destruct (JsObject.get snapshot k) as [[[s|]|m]|]; simpl; try done;
        by apply assign_no_proto.
    + rewrite IH3. unfold resetStep. simpl. rewrite filter_cons.
      destruct (JsObject.get snapshot k) as [[[s|]|m]|] eqn:Hget;
        case_decide as Hc; cbn [fst snd];
        try (destruct Hc as [Hc|Hc]; congruence);
        try (destruct Hc; auto; fail);
        by rewrite <- ?app_assoc.
Qed.

Lemma hasActiveProfiles_spec now file :
  hasActiveProfiles now file = Ok (bool_decide (0 < length (activeOf file))).
Proof.
  unfold hasActiveProfiles, getActiveProfiles.
  destruct (load_total now file) as [current Hload].
  by rewrite Hload, (load_active _ _ _ Hload).
Qed.

(** [reset] without active profiles: nothing is printed and the state file
    is not written. *)
Lemma resetCommand_nothing shell now file :
  activeOf file = [] →
  resetCommand shell now file = Ok (Emission.make ∅ [] EmptyString file).
Proof.
  intros Hactive. unfold resetCommand.
  destruct (load_total now file) as [current Hload].
  rewrite Hload, bind_Ok, hasActiveProfiles_spec, bind_Ok, Hactive. done.
Qed.

(** What [reset] computes when profiles are active. *)
Lemma resetCommand_reads shell now file :
  activeOf file ≠ [] →
  ∃ toUnset toRestore,
    (∀ key, toRestore !! key =
            if decide (key = "__proto__") then None
            else match variablesOf file !! key with
                 | Some _ =>
                     match JsObject.get (snapshotOf file) key with
                     | Some (JsObject.Own (Some s)) => Some (JsObject.Own s)
                     | Some (JsObject.Member k) => Some (JsObject.Member k)
                     | _ => None
                     end
                 | None => None
                 end) ∧
    (∀ key, key ∈ toUnset ↔
            is_Some (variablesOf file !! key)
            ∧ (JsObject.get (snapshotOf file) key = None
               ∨ JsObject.get (snapshotOf file) key
                 = Some (JsObject.Own None))) ∧
    resetCommand shell now file
    = restored ← stringValues ownString notAString toRestore;
      Ok (Emission.make restored toUnset
            (join_lines (filter (λ part, isEmpty part = false)
                           [generateUnsets shell toUnset;
                            generateExports shell restored]))
            (save (getEmptyState now))).
Proof.
  intros Hactive. unfold resetCommand.
  destruct (load_total now file) as [current Hload].
  rewrite Hload, bind_Ok, hasActiveProfiles_spec, bind_Ok.
  rewrite (load_snapshot _ _ _ Hload), (load_variables _ _ _ Hload).
  rewrite bool_decide_eq_true_2
    by (destruct (activeOf file); [done|simpl; lia]).
  cbn [negb]. unfold JsObject.entries.
  destruct (reset_fold (snapshotOf file) (map_to_list (variablesOf file))
              (NoDup_fst_map_to_list _) ([], ∅)) as (H2 & Hproto & H1).
  eexists _, _. split; [|split; [|reflexivity]].
  - intros key. destruct (decide (key = "__proto__")) as [->|Hne].
    + by apply Hproto.
    + rewrite (H2 key Hne), list_to_map_to_list. simpl. rewrite lookup_empty.
      destruct (variablesOf file !! key); [|done].
      by destruct (JsObject.get (snapshotOf file) key) as [[[s|]|m]|].
  - intros key. rewrite H1. simpl. rewrite list_elem_of_filter.
    change ((map_to_list (variablesOf file)).*1)
      with (JsObject.keys (variablesOf file)).
    rewrite keys_elem. tauto.
Qed.

Lemma validateProfiles_inv store names u :
  validateProfiles store names = Ok u → Forall (λ n, ¬ missing store n) names.
Proof.
  induction names as [|name names IH]; simpl; [constructor|].
  destruct (profileExists store name) eqn:Hname; [|done].
  intros H. constructor; [by apply profileExists_present|by apply IH].
Qed.

Lemma applyPlan_nothing environment : applyPlan ∅ [] environment = environment.
Proof. unfold applyPlan. simpl. apply (left_id_L ∅ (∪)). Qed.

(** The ways in which [use] ends with status 0. *)
Lemma useCommand_inv shell store now env file names e :
  useCommand shell store now env file names = Ok e →
  Forall (λ n, ¬ missing store n) names ∧
  ∃ resolved, resolve store names = Ok resolved.
Proof.
  unfold useCommand.
  destruct (validateProfiles store names) as [u|] eqn:Hvalid; [|done].
  destruct (resolve store names) as [resolved|] eqn:Hres; [|done].
  intros _. split; [by eapply validateProfiles_inv|by eexists].
Qed.

(** The ways in which [add] ends with status 0. *)
Lemma addCommand_inv shell store now env file names e :
  addCommand shell store now env file names = Ok e →
  Forall (λ n, ¬ missing store n) names ∧
  ((∀ p, p ∈ names → p ∈ activeOf file) ∨
   (length (filter (λ p, p ∉ activeOf file) names) ≠ 0 ∧
    ∃ resolved,
      resolve store (activeOf file ++ filter (λ p, p ∉ activeOf file) names)
      = Ok resolved)).
Proof.
  unfold addCommand.
  destruct (validateProfiles store names) as [u|] eqn:Hvalid; [|done].
  apply validateProfiles_inv in Hvalid.
  destruct (load_total now file) as [current Hload].
  rewrite Hload, !bind_Ok, (load_active _ _ _ Hload).
  case_decide as Hnew; intros H; (split; [done|]).
  - left. intros p Hin. destruct (decide (p ∈ activeOf file)); [done|].
    exfalso. by eapply (proj1 (filter_length_0 _ _) Hnew p).
  - right. split; [done|].
    destruct (resolve store _) as [resolved|] eqn:Hres; [|done]. by eexists.
Qed.

(** The ways in which [remove] ends with status 0. *)
Lemma removeCommand_inv shell store now file names e :
  removeCommand shell store now file names = Ok e →
  (∀ p, p ∈ names → p ∉ activeOf file) ∨
  (length (filter (λ p, p ∈ activeOf file) names) ≠ 0 ∧
   ∃ remaining,
     resolveRemaining store
       (filter (λ p, p ∉ filter (λ p, p ∈ activeOf file) names)
               (activeOf file))
     = Ok remaining).
Proof.
  unfold removeCommand.
  destruct (load_total now file) as [current Hload].
  rewrite Hload, !bind_Ok, (load_active _ _ _ Hload).
  case_decide as Hsome; intros H.
  - left. intros p Hin Hactive.
    by eapply (proj1 (filter_length_0 _ _) Hsome p).
  - right. split; [done|]. unfold computeRemoval in H.
    destruct (resolveRemaining store _) as [remaining|] eqn:Hrem; [|done].
    by eexists.
Qed.

Lemma use_consistent shell store now session names session' :
  invoke shell store session (Use now names) = Some session' →
  consistent session'.
Proof.
  unfold invoke, emit. intros H.
  destruct (useCommand _ _ _ _ _ _) as [e|] eqn:He; [|done].
  injection H as <-.
  destruct (useCommand_inv _ _ _ _ _ _ _ He) as (Hvalid & resolved & Hres).
  destruct (useCommand_spec shell store now
              (λ key, environment session !! key) (sessionFile session)
              names resolved Hvalid Hres) as (toUnset & Huse & _).
  rewrite Huse in He. injection He as <-.
  intros key ev. simpl. intros Hkey.
  by rewrite applyPlan_lookup, lookup_fmap, Hkey.
Qed.

Lemma add_consistent shell store now session names session' :
  consistent session →
  invoke shell store session (Add now names) = Some session' →
  consistent session'.
Proof.
  unfold invoke, emit. intros Hcons H.
  destruct (addCommand _ _ _ _ _ _) as [e|] eqn:He; [|done].
  injection H as <-.
  destruct (addCommand_inv _ _ _ _ _ _ _ He)
    as (Hvalid & [Hactive|(Hnew & resolved & Hres)]).
  - rewrite addCommand_nothing in He by done. injection He as <-. simpl.
    rewrite applyPlan_nothing. by destruct session.
  - destruct (addCommand_spec shell store now
                (λ key, environment session !! key) (sessionFile session)
                names resolved Hvalid Hnew Hres)
      as (toSet & active & Hadd & HtoSet & _).
    rewrite Hadd in He. injection He as <-.
    intros key ev. simpl. intros Hkey.
    rewrite applyPlan_lookup, HtoSet. unfold expectedToSet.
    rewrite decide_False by apply not_elem_of_nil.
    apply lookup_union_Some_raw in Hkey as [Hkey|[Hnone Hkey]].
    + rewrite Hkey.
      destruct (variablesOf (sessionFile session) !! key) as [cv|] eqn:Hcv;
        [|done].
      case_decide as Heq; [|done]. rewrite <- Heq. by apply Hcons.
    + rewrite Hnone. by apply Hcons.
Qed.

Lemma remove_consistent shell store now session names session' :
  consistent session →
  invoke shell store session (Remove now names) = Some session' →
  consistent session'.
Proof.
  unfold invoke, emit. intros Hcons H.
  destruct (removeCommand _ _ _ _ _) as [e|] eqn:He; [|done].
  injection H as <-.
  destruct (removeCommand_inv _ _ _ _ _ _ He)
    as [Hnone|(Hsome & remaining & Hrem)].
  - rewrite removeCommand_nothing in He by done. injection He as <-. simpl.
    rewrite applyPlan_nothing. by destruct session.
  - destruct (removeCommand_reads shell store now (sessionFile session)
                names remaining Hsome Hrem)
      as (removal & toSet & Hkeep & Hunset & HtoSet & Hremove).
    rewrite Hremove in He.
    destruct (stringValues id undefinedValue toSet) as [exported|] eqn:Hexp; [|done].
    rewrite bind_Ok in He. injection He as <-.
    apply stringValues_inv in Hexp as [-> _].
    intros key ev. simpl. unfold stringified. rewrite lookup_omap.
    destruct (Removal.toKeep removal !! key) as [[kept|m]|] eqn:Hkept;
      [|done|done].
    simpl. intros [= ->].
    rewrite applyPlan_lookup, lookup_omap, HtoSet, Hkept.
    rewrite Hkeep in Hkept. case_decide; [done|].
    destruct (variablesOf (sessionFile session) !! key) as [cv|] eqn:Hcv;
      [|done].
    simpl. case_decide as Hne; [done|]. simpl.
    rewrite decide_False.
    + rewrite (Hcons _ _ Hcv). f_equal.
      destruct (decide (value cv = value ev)); [done|]. congruence.
    + rewrite Hunset, Hkept. intros [_ ?]. done.
Qed.

Lemma reset_consistent shell now store session session' :
  consistent session →
  invoke shell store session (Reset now) = Some session' →
  consistent session'.
Proof.
  unfold invoke, emit. intros Hcons H.
  destruct (resetCommand _ _ _) as [e|] eqn:He; [|done].
  injection H as <-.
  destruct (decide (activeOf (sessionFile session) = [])) as [Hnone|Hsome].
  - rewrite resetCommand_nothing in He by done. injection He as <-. simpl.
    rewrite applyPlan_nothing. by destruct session.
  - destruct (resetCommand_reads shell now (sessionFile session) Hsome)
      as (toUnset & toRestore & _ & _ & Hreset).
    rewrite Hreset in He.
    destruct (stringValues ownString notAString toRestore) as [restored|]; [|done].
    rewrite bind_Ok in He. injection He as <-.
    intros key ev. simpl. by rewrite lookup_empty.
Qed.






Lemma exampleStore_p1 : ¬ missing exampleStore "p1".
Proof. intros [Hlocal _]. vm_compute in Hlocal. congruence. Qed.

Lemma exampleStore_p2 : ¬ missing exampleStore "p2".
Proof. intros [_ Hglobal]. vm_compute in Hglobal. congruence. Qed.

Lemma exampleStore_present :
  Forall (λ n, ¬ missing exampleStore n) ["p1"; "p2"].
Proof. repeat constructor; [exact exampleStore_p1|exact exampleStore_p2]. Qed.



(** X1.  [use --emit-shell], for a state file that is absent, not JSON or
    the JSON of a state, at a path that can be written, and profile files
    that can be read.  When every named profile exists the run ends with
    status 0: it exports every resolved variable, unsets the tracked
    variables that are no longer resolved and are not named like a member
    of [Object.prototype], prints the text of these statements, and records
    the names and the resolved variables in the state file.  When a named
    profile is missing the run ends silently with status 1, whatever the
    state file is. *)
Theorem useCommand_outcome (shell : ShellType) (store : ProfileStore)
    (now : string) (env : string → option string) (file : Backing)
    (names : list string) :
  (regular file → Forall (λ n, ¬ missing store n) names →
   ∃ resolved e,
     resolve store names = Ok resolved ∧
     useCommand shell store now env file names = Ok e ∧
     Emission.toSet e = value <$> ResolvedEnv.variables resolved ∧
     (∀ key, key ∈ Emission.toUnset e ↔
             is_Some (variablesOf file !! key)
             ∧ ResolvedEnv.variables resolved !! key = None
             ∧ JsObject.inherited key = false) ∧
     Emission.commands e
     = generateCommands shell (Emission.toSet e) (Emission.toUnset e) ∧
     activeOf (Emission.stateFile e) = names ∧
     variablesOf (Emission.stateFile e) = ResolvedEnv.variables resolved) ∧
  (∀ name, name ∈ names → missing store name →
     useCommand shell store now env file names = Throw EmptyString).
Proof.
  split.
  - intros _ Hall. destruct (resolve_present _ _ Hall) as [resolved Hres].
    destruct (useCommand_spec shell store now env file names resolved
                Hall Hres) as (toUnset & Huse & HtoUnset).
    exists resolved. eexists. split; [done|]. split; [exact Huse|].
    simpl. split; [done|]. split; [exact HtoUnset|]. by split.
  - intros name Hin Hmissing. unfold useCommand.
    by rewrite (validateProfiles_missing _ _ _ Hin Hmissing).
Qed.

Lemma useCommand_outcome_witness :
  ∃ resolved e,
    resolve exampleStore ["p1"; "p2"] = Ok resolved ∧
    useCommand bash exampleStore "t" (λ _, None) Absent ["p1"; "p2"] = Ok e ∧
    Emission.toSet e = value <$> ResolvedEnv.variables resolved ∧
    (∀ key, key ∈ Emission.toUnset e ↔
            is_Some (variablesOf Absent !! key)
            ∧ ResolvedEnv.variables resolved !! key = None
            ∧ JsObject.inherited key = false) ∧
    Emission.commands e
    = generateCommands bash (Emission.toSet e) (Emission.toUnset e) ∧
    activeOf (Emission.stateFile e) = ["p1"; "p2"] ∧
    variablesOf (Emission.stateFile e) = ResolvedEnv.variables resolved.
Proof.
  apply (proj1 (useCommand_outcome bash exampleStore "t" (λ _, None) Absent
                  ["p1"; "p2"])).
  - discriminate.
  - exact exampleStore_present.
Defined.

(** X2.  Each of [use], [add], [remove] and [reset], when its run with
    [--emit-shell] ends with status 0 and the shell carries out the printed
    plan, leaves a session in which every variable tracked by the state file
    is exported with the value the file records, provided this held
    before. *)
Theorem invoke_consistent (shell : ShellType) (store : ProfileStore)
    (session session' : Session) (invocation : Invocation) :
  consistent session →
  invoke shell store session invocation = Some session' →
  consistent session'.
Proof.
  destruct invocation as [now names|now names|now names|now].
  - intros _. apply use_consistent.
  - apply add_consistent.
  - apply remove_consistent.
  - apply reset_consistent.
Qed.

Lemma invoke_consistent_witness :
  consistent
    (mkSession
       (save (StateData.make ["p1"; "p2"]
                {[ "KEY1" := mkEnvVariable "b" "p2";
                   "KEY2" := mkEnvVariable "c" "p2" ]}
                {[ "KEY1" := Some "orig"; "KEY2" := None ]} "t2"))
       {[ "KEY1" := "b"; "KEY2" := "c" ]}).
Proof.
  apply (invoke_consistent bash exampleStore
           (mkSession
              (save (StateData.make ["p1"] {[ "KEY1" := mkEnvVariable "a" "p1" ]}
                       {[ "KEY1" := Some "orig" ]} "t1"))
              {[ "KEY1" := "a" ]})
           _ (Add "t2" ["p2"])).
  - intros key envVar Hkey. simpl in Hkey.
    apply lookup_singleton_Some in Hkey as [<- <-]. reflexivity.
  - vm_compute. reflexivity.
Defined.

(** X4.  [add], [remove] and [reset] are idempotent: after a run with
    [--emit-shell] that ended with status 0, a second run of the same
    command, at any later time and in any environment, prints nothing and
    does not write the state file. *)
Theorem second_run_emits_nothing (shell : ShellType) (store : ProfileStore)
    (now now' : string) (env env' : string → option string) (file : Backing)
    (names : list string) (e : Emission.t) :
  (addCommand shell store now env file names = Ok e →
   addCommand shell store now' env' (Emission.stateFile e) names
   = Ok (Emission.make ∅ [] EmptyString (Emission.stateFile e))) ∧
  (removeCommand shell store now file names = Ok e →
   removeCommand shell store now' (Emission.stateFile e) names
   = Ok (Emission.make ∅ [] EmptyString (Emission.stateFile e))) ∧
  (resetCommand shell now file = Ok e →
   resetCommand shell now' (Emission.stateFile e)
   = Ok (Emission.make ∅ [] EmptyString (Emission.stateFile e))).
Proof.
  split; [|split].
  - intros He.
    destruct (addCommand_inv _ _ _ _ _ _ _ He)
      as (Hvalid & [Hactive|(Hnew & resolved & Hres)]).
    + rewrite addCommand_nothing in He by done. injection He as <-.
      by apply addCommand_nothing.
    + destruct (addCommand_spec shell store now env file names resolved
                  Hvalid Hnew Hres)
        as (toSet & active & Hadd & _ & added & -> & Hadded).
      rewrite Hadd in He. injection He as <-.
      apply addCommand_nothing; [done|]. simpl. intros p Hin.
      apply elem_of_app. destruct (decide (p ∈ activeOf file)); [by left|].
      right. by apply Hadded.
  - intros He.
    destruct (removeCommand_inv _ _ _ _ _ _ He)
      as [Hnone|(Hsome & remaining & Hrem)].
    + rewrite removeCommand_nothing in He by done. injection He as <-.
      by apply removeCommand_nothing.
    + destruct (removeCommand_reads shell store now file names remaining
                  Hsome Hrem) as (removal & toSet & _ & _ & _ & Hremove).
      rewrite Hremove in He.
      destruct (stringValues id undefinedValue toSet) as [exported|]; [|done].
      rewrite bind_Ok in He. injection He as <-.
      apply removeCommand_nothing. simpl. intros p Hin Hleft.
      apply list_elem_of_filter in Hleft as [Hout Hactive].
      apply Hout. by apply list_elem_of_filter.
  - intros He.
    destruct (decide (activeOf file = [])) as [Hnone|Hsome].
    + rewrite resetCommand_nothing in He by done. injection He as <-.
      by apply resetCommand_nothing.
    + destruct (resetCommand_reads shell now file Hsome)
        as (toUnset & toRestore & _ & _ & Hreset).
      rewrite Hreset in He.
      destruct (stringValues ownString notAString toRestore) as [restored|]; [|done].
      rewrite bind_Ok in He. injection He as <-.
      by apply resetCommand_nothing.
Qed.

Lemma second_run_emits_nothing_witness :
  resetCommand bash "t2"
    (save (getEmptyState "t1"))
  = Ok (Emission.make ∅ [] EmptyString (save (getEmptyState "t1"))).
Proof.
  apply (proj2 (proj2 (second_run_emits_nothing bash exampleStore "t1" "t2"
                         (λ _, None) (λ _, None)
                         (save (StateData.make ["p1"]
                                  {[ "KEY1" := mkEnvVariable "a" "p1" ]}
                                  {[ "KEY1" := None ]} "t0"))
                         []
                         (Emission.make (∅ : gmap string string) ["KEY1"]
                            "unset KEY1" (save (getEmptyState "t1")))))).
  vm_compute. reflexivity.
Defined.

(** X5.  [remove --emit-shell], when no tracked variable is named like a
    member of [Object.prototype] and one of the named profiles at least is
    active: it unsets the tracked variables that no remaining profile
    provides and forgets their snapshot values, exports the tracked
    variables whose value the remaining profiles change, and keeps in the
    state file what the remaining profiles resolve to for the tracked
    variables.  The previous value of an unset variable is not restored. *)
Theorem removeCommand_effect (shell : ShellType) (store : ProfileStore)
    (now : string) (file : Backing) (names : list string)
    (remaining : gmap string EnvVariable) :
  (∀ key, is_Some (variablesOf file !! key) →
          JsObject.inherited key = false) →
  length (filter (λ p, p ∈ activeOf file) names) ≠ 0 →
  resolveRemaining store
    (filter (λ p, p ∉ filter (λ p, p ∈ activeOf file) names) (activeOf file))
  = Ok remaining →
  ∃ e,
    removeCommand shell store now file names = Ok e ∧
    (∀ key, Emission.toSet e !! key =
            match variablesOf file !! key, remaining !! key with
            | Some current, Some kept =>
                if decide (value current = value kept) then None
                else Some (value kept)
            | _, _ => None
            end) ∧
    (∀ key, key ∈ Emission.toUnset e ↔
            is_Some (variablesOf file !! key) ∧ remaining !! key = None) ∧
    Emission.commands e
    = generateCommands shell (Emission.toSet e) (Emission.toUnset e) ∧
    (∀ p, p ∈ activeOf (Emission.stateFile e) ↔
          p ∈ activeOf file ∧ p ∉ names) ∧
    (∀ key, variablesOf (Emission.stateFile e) !! key =
            match variablesOf file !! key with
            | Some _ => remaining !! key
            | None => None
            end) ∧
    (∀ key, snapshotOf (Emission.stateFile e) !! key =
            if decide (key ∈ Emission.toUnset e) then None
            else snapshotOf file !! key).
Proof.
  intros Hord Hsome Hrem.
  destruct (removeCommand_reads shell store now file names remaining
              Hsome Hrem)
    as (removal & toSet & Hkeep & Hunset & HtoSet & Hremove).
  assert (Hkept : ∀ key, Removal.toKeep removal !! key =
            match variablesOf file !! key with
            | Some _ => JsObject.Own <$> remaining !! key
            | None => None
            end).
  { intros key. rewrite Hkeep.
    destruct (variablesOf file !! key) as [cv|] eqn:Hcv; [|by case_decide].
    assert (Hinh : JsObject.inherited key = false)
      by (apply Hord; by eexists).
    rewrite decide_False by (intros ->; by rewrite inherited_proto in Hinh).
    unfold JsObject.get. rewrite Hinh. by destruct (remaining !! key). }
  assert (Hget : ∀ key, is_Some (variablesOf file !! key) →
            (JsObject.get remaining key = None ↔ remaining !! key = None)).
  { intros key Hkey. rewrite get_None. pose proof (Hord key Hkey). tauto. }
  rewrite Hremove, stringValues_Ok, bind_Ok.
  - eexists. split; [reflexivity|]. simpl.
    split; [|split; [|split; [done|split; [|split]]]].
    + intros key. rewrite lookup_omap, HtoSet, Hkept.
      destruct (variablesOf file !! key) as [cv|]; [|done].
      destruct (remaining !! key) as [ev|]; simpl; [|done].
      case_decide as Hne; simpl.
      * rewrite decide_False; [done|]. congruence.
      * rewrite decide_True; [done|]. congruence.
    + intros key. rewrite Hunset. split.
      * intros [Hkey Hnone]. split; [done|]. by apply Hget.
      * intros [Hkey Hnone]. split; [done|]. by apply Hget.
    + intros p. rewrite list_elem_of_filter, list_elem_of_filter. tauto.
    + intros key. unfold stringified. rewrite lookup_omap, Hkept.
      destruct (variablesOf file !! key); [|done].
      by destruct (remaining !! key).
    + intros key. apply foldl_delete_lookup.
  - intros key v. rewrite HtoSet, Hkept.
    destruct (variablesOf file !! key) as [cv|]; [|done].
    destruct (remaining !! key) as [ev|]; simpl; [|done].
    case_decide; [|done]. intros [= <-]. by eexists.
Qed.

Lemma removeCommand_effect_witness :
  ∃ e,
    removeCommand bash sharedStore "t2" sharedFile ["p2"] = Ok e ∧
    Emission.toSet e !! "SHARED" = Some "a" ∧
    activeOf (Emission.stateFile e) = ["p1"].
Proof.
  destruct (removeCommand_effect bash sharedStore "t2" sharedFile ["p2"]
              {[ "KEY1" := mkEnvVariable "1" "p1";
                 "SHARED" := mkEnvVariable "a" "p1" ]})
    as (e & He & HtoSet & _).
  - intros key [v Hv]. simpl in Hv.
    apply lookup_insert_Some in Hv as [[<- _]|[_ Hv]]; [reflexivity|].
    apply lookup_singleton_Some in Hv as [<- _]. reflexivity.
  - vm_compute. lia.
  - vm_compute. reflexivity.
  - exists e. split; [exact He|]. split.
    + rewrite HtoSet. vm_compute. reflexivity.
    + revert He. vm_compute. by intros [= <-].
Defined.

(** X6.  A tracked variable named like a member of [Object.prototype]
    makes the runs with [--emit-shell] fail before anything is printed or
    written: [remove] throws when no remaining profile provides the
    variable, and [reset] throws when the snapshot has no entry for it. *)
Theorem inherited_name_stops_remove_and_reset (shell : ShellType)
    (store : ProfileStore) (now : string) (file : Backing)
    (names : list string) (remaining : gmap string EnvVariable)
    (key : string) :
  is_Some (variablesOf file !! key) →
  JsObject.inherited key = true → key ≠ "__proto__" →
  (length (filter (λ p, p ∈ activeOf file) names) ≠ 0 →
   resolveRemaining store
     (filter (λ p, p ∉ filter (λ p, p ∈ activeOf file) names)
             (activeOf file))
   = Ok remaining →
   remaining !! key = None →
   removeCommand shell store now file names = Throw undefinedValue) ∧
  (activeOf file ≠ [] → snapshotOf file !! key = None →
   resetCommand shell now file = Throw notAString).
Proof.
  intros [cv Hcv] Hinh Hne. split.
  - intros Hsome Hrem Hnone.
    destruct (removeCommand_reads shell store now file names remaining
                Hsome Hrem)
      as (removal & toSet & Hkeep & _ & HtoSet & ->).
    assert (Hkey : toSet !! key = Some None).
    { rewrite HtoSet, Hkeep, decide_False, Hcv by done.
      unfold JsObject.get. by rewrite Hnone, Hinh. }
    unfold stringValues. rewrite decide_False; [done|].
    intros Hall. by destruct (Hall _ _ Hkey).
  - intros Hactive Hnone.
    destruct (resetCommand_reads shell now file Hactive)
      as (toUnset & toRestore & HtoRestore & _ & ->).
    assert (Hkey : toRestore !! key = Some (JsObject.Member key)).
    { rewrite HtoRestore, decide_False, Hcv by done.
      unfold JsObject.get. by rewrite Hnone, Hinh. }
    unfold stringValues. rewrite decide_False; [done|].
    intros Hall. by destruct (Hall _ _ Hkey).
Qed.

Lemma inherited_name_stops_remove_and_reset_witness :
  removeCommand bash exampleStore "t2" inheritedFile ["p"]
  = Throw undefinedValue ∧
  resetCommand bash "t2" inheritedFile = Throw notAString.
Proof.
  destruct (inherited_name_stops_remove_and_reset bash exampleStore "t2"
              inheritedFile ["p"] ∅ "constructor") as [Hremove Hreset].
  - vm_compute. by eexists.
  - reflexivity.
  - discriminate.
  - split.
    + apply Hremove; [vm_compute; lia|vm_compute; reflexivity|reflexivity].
    + apply Hreset; [discriminate|reflexivity].
Defined.

(* ===================================================================== *)
(** ** The printed text as a script *)
(* ===================================================================== *)

Lemma noLineFeed_app s t :
  noLineFeed (s +:+ t) = noLineFeed s && noLineFeed t.
Proof.
  induction s as [|c s IH]; [done|]. rewrite str_app_cons. simpl.
  by destruct (decide (c = LF)).
Qed.

Lemma split_lines_line s : noLineFeed s = true → split_lines s = [s].
Proof.
  induction s as [|c s IH]; [done|]. simpl.
  destruct (decide (c = LF)); [done|]. intros Hs. by rewrite (IH Hs).
Qed.

Lemma split_lines_app_LF s t :
  noLineFeed s = true →
  split_lines (s +:+ String LF t) = s :: split_lines t.
Proof.
  induction s as [|c s IH].
  - intros _. by rewrite str_app_nil.
  - rewrite str_app_cons. cbn [noLineFeed split_lines].
    destruct (decide (c = LF)); [done|]. intros Hs. by rewrite (IH Hs).
Qed.

Lemma split_join_lines (ls : list string) :
  Forall (λ line, noLineFeed line = true) ls → ls ≠ [] →
  split_lines (join_lines ls) = ls.
Proof.
  induction 1 as [|line ls Hline Hls IH]; [done|]. intros _.
  destruct ls as [|line' ls].
  - by apply split_lines_line.
  - change (join_lines (line :: line' :: ls))
      with (line +:+ String LF (join_lines (line' :: ls))).
    rewrite split_lines_app_LF by done. by rewrite IH.
Qed.

Lemma join_lines_app (l1 l2 : list string) :
  l1 ≠ [] → l2 ≠ [] →
  join_lines (l1 ++ l2) = join_lines l1 +:+ chr LF +:+ join_lines l2.
Proof.
  intros H1 H2. induction l1 as [|a l1 IH]; [done|].
  destruct l1 as [|b l1].
  - simpl. by destruct l2.
  - change (join_lines ((a :: b :: l1) ++ l2))
      with (a +:+ chr LF +:+ join_lines ((b :: l1) ++ l2)).
    rewrite IH by done.
    change (join_lines (a :: b :: l1))
      with (a +:+ chr LF +:+ join_lines (b :: l1)).
    by rewrite !str_app_assoc.
Qed.

Lemma join_lines_empty (ls : list string) :
  Forall (λ line, isEmpty line = false) ls →
  isEmpty (join_lines ls) = bool_decide (ls = []).
Proof.
  intros Hls. destruct ls as [|line ls]; [done|].
  apply Forall_cons in Hls as [Hline _].
  rewrite bool_decide_eq_false_2 by done.
  destruct line as [|c line]; [done|]. by destruct ls.
Qed.

Lemma sanitizeForShell_noLineFeed v :
  noLineFeed v = true → noLineFeed (sanitizeForShell v) = true.
Proof.
  induction v as [|c v IH]; [done|]. simpl.
  destruct (decide (c = LF)) as [|Hc]; [done|]. intros Hv.
  destruct (decide (c = APOSTROPHE)) as [->|].
  - rewrite noLineFeed_app. by rewrite IH.
  - simpl. rewrite decide_False by done. by apply IH.
Qed.

Lemma allNameChars_noLineFeed key :
  Shell.allNameChars key = true → noLineFeed key = true.
Proof.
  induction key as [|c key IH]; [done|]. simpl.
  intros [Hc Hkey]%andb_true_iff. destruct (decide (c = LF)) as [->|]; [|auto].
  by vm_compute in Hc.
Qed.

Lemma isName_noLineFeed key :
  Shell.isName key = true → noLineFeed key = true.
Proof. intros H. by apply allNameChars_noLineFeed, isName_allNameChars. Qed.

Lemma generateExport_noLineFeed shell key v :
  Shell.isName key = true → noLineFeed v = true →
  noLineFeed (generateExport shell key v) = true.
Proof.
  intros Hkey Hv. apply isName_noLineFeed in Hkey.
  apply sanitizeForShell_noLineFeed in Hv.
  destruct shell; unfold generateExport; rewrite !noLineFeed_app, Hkey, Hv;
    reflexivity.
Qed.

Lemma generateUnset_noLineFeed shell key :
  Shell.isName key = true → noLineFeed (generateUnset shell key) = true.
Proof.
  intros Hkey. apply isName_noLineFeed in Hkey.
  destruct shell; unfold generateUnset; rewrite !noLineFeed_app, Hkey;
    reflexivity.
Qed.

Lemma read_generateExport shell key v :
  shell ≠ unknown → Shell.isName key = true → readsBack shell v →
  Script.read shell (generateExport shell key v) = Some (Script.Assign key v).
Proof.
  intros Hshell Hkey Hv. unfold Script.read.
  assert (Hline : isEmpty (generateExport shell key v) = false)
    by (by destruct shell).
  rewrite Hline.
  assert (Heval : Shell.evaluate shell (generateExport shell key v)
                  = Some (key, v)).
  { destruct shell; simpl; [..|done].
    - by apply posixExport_round_trip.
    - by apply posixExport_round_trip.
    - destruct Hv as [?|[?|[_ Hv]]]; [done|done|].
      by apply fishSet_round_trip. }
  by rewrite Heval.
Qed.

Lemma read_generateUnset shell key :
  shell ≠ unknown → Shell.isName key = true →
  Script.read shell (generateUnset shell key) = Some (Script.Erase key).
Proof.
  intros Hshell Hkey. unfold Script.read.
  assert (Hline : isEmpty (generateUnset shell key) = false)
    by (by destruct shell).
  rewrite Hline.
  destruct shell; [| | |done]; unfold generateUnset, Shell.evaluate; simpl;
    by rewrite !str_app_nil, Hkey.
Qed.

Lemma evalLines_app shell (l1 : list string) : ∀ environment l2,
  Script.evalLines shell (l1 ++ l2) environment
  = match Script.evalLines shell l1 environment with
    | Some environment' => Script.evalLines shell l2 environment'
    | None => None
    end.
Proof.
  induction l1 as [|line l1 IH]; intros environment l2; simpl; [done|].
  destruct (Script.read shell line); [apply IH|done].
Qed.

Lemma evalLines_unsets shell (keys : list string) : ∀ environment,
  shell ≠ unknown → Forall (λ key, Shell.isName key = true) keys →
  Script.evalLines shell (generateUnset shell <$> keys) environment
  = Some (foldl (λ (environment : gmap string string) (key : string),
                   delete key environment) environment keys).
Proof.
  induction keys as [|key keys IH]; intros environment Hshell Hkeys; [done|].
  apply Forall_cons in Hkeys as [Hkey Hkeys]. simpl.
  rewrite read_generateUnset by done. simpl. by apply IH.
Qed.

Lemma evalLines_exports shell (l : list (string * string)) : ∀ environment,
  shell ≠ unknown →
  Forall (λ entry, Shell.isName entry.1 = true ∧ readsBack shell entry.2) l →
  Script.evalLines shell
    ((λ entry : string * string, generateExport shell entry.1 entry.2) <$> l)
    environment
  = Some (foldl (λ (environment : gmap string string)
                   (entry : string * string),
                   <[entry.1 := entry.2]> environment) environment l).
Proof.
  induction l as [|[key v] l IH]; intros environment Hshell Hl; [done|].
  apply Forall_cons in Hl as [[Hkey Hv] Hl]. simpl in *.
  rewrite read_generateExport by done. simpl. by apply IH.
Qed.

Lemma foldl_insert_lookup (l : list (string * string)) :
  NoDup l.*1 → ∀ (environment : gmap string string) key,
  foldl (λ (environment : gmap string string) (entry : string * string),
           <[entry.1 := entry.2]> environment) environment l !! key
  = match (list_to_map l : gmap string string) !! key with
    | Some v => Some v
    | None => environment !! key
    end.
Proof.
  induction l as [|[k v] l IH]; intros Hnodup environment key; simpl.
  - by rewrite lookup_empty.
  - apply NoDup_cons in Hnodup as [Hk Hnodup]. rewrite IH by done.
    rewrite !lookup_insert. destruct (decide (k = key)) as [->|Hne].
    + by rewrite (not_elem_of_list_to_map_1 _ _ Hk).
    + done.
Qed.

Lemma foldl_insert_union (toSet environment : gmap string string) :
  foldl (λ (environment : gmap string string) (entry : string * string),
           <[entry.1 := entry.2]> environment)
        environment (JsObject.entries toSet)
  = toSet ∪ environment.
Proof.
  apply map_eq. intros key. unfold JsObject.entries.
  rewrite foldl_insert_lookup by apply NoDup_fst_map_to_list.
  rewrite list_to_map_to_list. destruct (toSet !! key) as [v|] eqn:Hv.
  - symmetry. by apply lookup_union_Some_l.
  - by rewrite lookup_union_r.
Qed.

Lemma keys_length {V} (m : gmap string V) :
  length (JsObject.keys m) = length (JsObject.entries m).
Proof. unfold JsObject.keys. apply length_fmap. Qed.

(** The text of [generateCommands] is the lines of the unset statements
    followed by the lines of the assignments. *)
Lemma generateCommands_lines shell toSet toUnset :
  generateCommands shell toSet toUnset
  = join_lines ((generateUnset shell <$> toUnset)
                ++ ((λ entry : string * string,
                       generateExport shell entry.1 entry.2)
                    <$> JsObject.entries toSet)).
Proof.
  unfold generateCommands, generateUnsets, generateExports.
  rewrite keys_length.
  rewrite <- (length_fmap (generateUnset shell) toUnset).
  rewrite <- (length_fmap (λ entry : string * string,
                             generateExport shell entry.1 entry.2)
                          (JsObject.entries toSet)).
  set (unsets := generateUnset shell <$> toUnset).
  set (exports := (λ entry : string * string,
                     generateExport shell entry.1 entry.2)
                  <$> JsObject.entries toSet).
  destruct unsets as [|u unsets]; destruct exports as [|e exports].
  - done.
  - done.
  - cbn [length]. rewrite decide_True by lia.
    rewrite decide_False by (cbn [length]; lia). by rewrite !app_nil_r.
  - cbn [length]. rewrite !decide_True by lia.
    by rewrite (join_lines_app (u :: unsets) (e :: exports)).
Qed.

Lemma eval_join_lines shell (ls : list string) environment :
  Forall (λ line, noLineFeed line = true) ls →
  Script.eval shell (join_lines ls) environment
  = Script.evalLines shell ls environment.
Proof.
  intros Hls. unfold Script.eval. destruct ls as [|line ls]; [done|].
  by rewrite split_join_lines.
Qed.

Lemma entries_Forall {V} (P : string → V → Prop) (m : gmap string V) :
  map_Forall P m → Forall (λ entry, P entry.1 entry.2) (JsObject.entries m).
Proof.
  intros Hm. apply Forall_forall. intros [k v] Hin.
  apply elem_of_map_to_list in Hin. by apply Hm.
Qed.

Lemma generateCommands_eval shell toSet toUnset environment :
  renderable shell toSet toUnset →
  Script.eval shell (generateCommands shell toSet toUnset) environment
  = Some (applyPlan toSet toUnset environment).
Proof.
  intros (Hshell & HtoSet & HtoUnset).
  apply (entries_Forall
           (λ key v, Shell.isName key = true ∧ noLineFeed v = true
                     ∧ readsBack shell v)) in HtoSet.
  rewrite generateCommands_lines, eval_join_lines.
  - rewrite evalLines_app, evalLines_unsets by done.
    rewrite evalLines_exports.
    + unfold applyPlan. by rewrite foldl_insert_union.
    + done.
    + eapply Forall_impl; [exact HtoSet|]. simpl. tauto.
  - apply Forall_app. split.
    + apply Forall_fmap. eapply Forall_impl; [exact HtoUnset|].
      intros key. simpl. apply generateUnset_noLineFeed.
    + apply Forall_fmap. eapply Forall_impl; [exact HtoSet|].
      intros [key v] (Hkey & Hv & _). simpl.
      by apply generateExport_noLineFeed.
Qed.

Lemma generateCommands_exports shell toSet :
  generateCommands shell toSet [] = generateExports shell toSet.
Proof.
  rewrite generateCommands_lines. by unfold generateExports.
Qed.

Lemma generateCommands_unsets shell toUnset :
  generateCommands shell ∅ toUnset = generateUnsets shell toUnset.
Proof.
  rewrite generateCommands_lines. unfold generateUnsets, JsObject.entries.
  rewrite map_to_list_empty. simpl. by rewrite app_nil_r.
Qed.

Lemma generateUnsets_empty shell toUnset :
  isEmpty (generateUnsets shell toUnset) = bool_decide (toUnset = []).
Proof.
  unfold generateUnsets. rewrite join_lines_empty.
  - by destruct toUnset.
  - apply Forall_fmap, Forall_forall. intros key _. by destruct shell.
Qed.

Lemma generateExports_empty shell toSet :
  isEmpty (generateExports shell toSet)
  = bool_decide (JsObject.entries toSet = []).
Proof.
  unfold generateExports. rewrite join_lines_empty.
  - by destruct (JsObject.entries toSet).
  - apply Forall_fmap, Forall_forall. intros entry _. by destruct shell.
Qed.

(** The text [reset] prints is the text [generateCommands] renders for
    [toRestore] and [toUnset]. *)
Lemma reset_text shell toRestore toUnset :
  join_lines (filter (λ part, isEmpty part = false)
                     [generateUnsets shell toUnset;
                      generateExports shell toRestore])
  = generateCommands shell toRestore toUnset.
Proof.
  rewrite !filter_cons, filter_nil.
  rewrite generateUnsets_empty, generateExports_empty.
  unfold generateCommands. rewrite keys_length.
  destruct toUnset as [|key toUnset];
    destruct (JsObject.entries toRestore) as [|entry entries] eqn:Hentries;
    cbn [length]; repeat case_decide; try done; try lia.
Qed.

(** Whatever a run with [--emit-shell] prints is the text
    [generateCommands] renders for its plan. *)
Lemma emit_commands shell store session invocation e :
  emit shell store session invocation = Ok e →
  Emission.commands e
  = generateCommands shell (Emission.toSet e) (Emission.toUnset e).
Proof.
  destruct invocation as [now names|now names|now names|now]; simpl;
    intros He.
  - destruct (useCommand_inv _ _ _ _ _ _ _ He) as (Hvalid & resolved & Hres).
    destruct (useCommand_spec shell store now
                (λ key, environment session !! key) (sessionFile session)
                names resolved Hvalid Hres) as (toUnset & Huse & _).
    rewrite Huse in He. by injection He as <-.
  - destruct (addCommand_inv _ _ _ _ _ _ _ He)
      as (Hvalid & [Hactive|(Hnew & resolved & Hres)]).
    + rewrite addCommand_nothing in He by done. by injection He as <-.
    + destruct (addCommand_spec shell store now
                  (λ key, environment session !! key) (sessionFile session)
                  names resolved Hvalid Hnew Hres)
        as (toSet & active & Hadd & _).
      rewrite Hadd in He. injection He as <-. simpl.
      by rewrite generateCommands_exports.
  - destruct (removeCommand_inv _ _ _ _ _ _ He)
      as [Hnone|(Hsome & remaining & Hrem)].
    + rewrite removeCommand_nothing in He by done. by injection He as <-.
    + destruct (removeCommand_reads shell store now (sessionFile session)
                  names remaining Hsome Hrem)
        as (removal & toSet & _ & _ & _ & Hremove).
      rewrite Hremove in He.
      destruct (stringValues id undefinedValue toSet) as [exported|]; [|done].
      rewrite bind_Ok in He. by injection He as <-.
  - destruct (decide (activeOf (sessionFile session) = [])) as [Hnone|Hsome].
    + rewrite resetCommand_nothing in He by done. by injection He as <-.
    + destruct (resetCommand_reads shell now (sessionFile session) Hsome)
        as (toUnset & toRestore & _ & _ & Hreset).
      rewrite Hreset in He.
      destruct (stringValues ownString notAString toRestore) as [restored|]; [|done].
      rewrite bind_Ok in He. injection He as <-. simpl. apply reset_text.
Qed.

(** X7.  The text the shell adapter renders, read as a script one line at a
    time by the quoting rules of the dialect, does what it was rendered for
    when the variables are shell names and the values fit on a line (in
    fish, hold no backslash): the text of [generateCommands] removes the
    variables to unset and then assigns the variables to set, the text of
    [generateExports] assigns, and the text of [generateUnsets] removes. *)
Theorem generated_text_is_carried_out (shell : ShellType)
    (toSet : gmap string string) (toUnset : list string)
    (environment : gmap string string) :
  renderable shell toSet toUnset →
  Script.eval shell (generateCommands shell toSet toUnset) environment
  = Some (applyPlan toSet toUnset environment) ∧
  Script.eval shell (generateExports shell toSet) environment
  = Some (toSet ∪ environment) ∧
  Script.eval shell (generateUnsets shell toUnset) environment
  = Some (foldl (λ (environment : gmap string string) (key : string),
                   delete key environment) environment toUnset).
Proof.
  intros Hplan. pose proof Hplan as (Hshell & HtoSet & HtoUnset).
  split; [by apply generateCommands_eval|]. split.
  - rewrite <- generateCommands_exports, generateCommands_eval; [done|].
    split; [done|]. split; [done|constructor].
  - rewrite <- generateCommands_unsets, generateCommands_eval.
    + unfold applyPlan. by rewrite (left_id_L ∅ (∪)).
    + split; [done|]. split; [apply map_Forall_empty|done].
Qed.

Lemma example_renderable :
  renderable fish {[ "API_KEY" := "it's `id` $(id)" ]} ["OLD"].
Proof.
  split; [discriminate|]. split.
  - apply map_Forall_singleton. split; [reflexivity|]. split; [reflexivity|].
    right. right. by split.
  - repeat constructor.
Qed.

Lemma generated_text_is_carried_out_witness :
  Script.eval fish
    (generateCommands fish {[ "API_KEY" := "it's `id` $(id)" ]} ["OLD"])
    {[ "OLD" := "1"; "HOME" := "/root" ]}
  = Some (applyPlan {[ "API_KEY" := "it's `id` $(id)" ]} ["OLD"]
            {[ "OLD" := "1"; "HOME" := "/root" ]}).
Proof.
  exact (proj1 (generated_text_is_carried_out fish
                  {[ "API_KEY" := "it's `id` $(id)" ]} ["OLD"]
                  {[ "OLD" := "1"; "HOME" := "/root" ]} example_renderable)).
Defined.

(** X8.  Whatever [use], [add], [remove] or [reset] prints in a run with
    [--emit-shell] that ends with status 0 is a script that carries out the
    plan of that run, when the variables of the plan are shell names and
    its values fit on a line (in fish, hold no backslash). *)
Theorem emitted_text_carries_out_plan (shell : ShellType)
    (store : ProfileStore) (session : Session) (invocation : Invocation)
    (e : Emission.t) :
  emit shell store session invocation = Ok e →
  renderable shell (Emission.toSet e) (Emission.toUnset e) →
  Script.eval shell (Emission.commands e) (environment session)
  = Some (applyPlan (Emission.toSet e) (Emission.toUnset e)
            (environment session)).
Proof.
  intros He Hplan. rewrite (emit_commands _ _ _ _ _ He).
  by apply generateCommands_eval.
Qed.

Lemma emitted_text_carries_out_plan_witness :
  Script.eval bash (Emission.commands exampleEmission)
    (environment exampleSession)
  = Some (applyPlan (Emission.toSet exampleEmission)
            (Emission.toUnset exampleEmission) (environment exampleSession)).
Proof.
  apply (emitted_text_carries_out_plan bash exampleStore exampleSession
           (Use "t1" ["p1"; "p2"]) exampleEmission).
  - vm_compute. reflexivity.
  - split; [discriminate|]. split; [|constructor].
    apply map_Forall_insert_2.
    + split; [reflexivity|]. split; [reflexivity|]. by left.
    + apply map_Forall_singleton.
      split; [reflexivity|]. split; [reflexivity|]. by left.
Defined.

(* ===================================================================== *)
(** ** Installing and removing the wrapper *)
(* ===================================================================== *)

Lemma startsWith_app needle : ∀ rest, startsWith (needle +:+ rest) needle = true.
Proof.
  induction needle as [|c needle IH]; intros rest; [done|].
  rewrite str_app_cons. simpl. by rewrite decide_True.
Qed.

Lemma indexOf_app needle rest : ∀ before,
  is_Some (indexOf (before +:+ needle +:+ rest) needle).
Proof.
  induction before as [|c before IH].
  - rewrite str_app_nil. destruct (needle +:+ rest) eqn:Heq;
      simpl; rewrite <- ?Heq, startsWith_app; by eexists.
  - rewrite str_app_cons. simpl.
    destruct (startsWith _ needle); [by eexists|].
    destruct IH as [i ->]. by eexists.
Qed.

Lemma includes_app before needle rest :
  includes (before +:+ needle +:+ rest) needle = true.
Proof. unfold includes. apply bool_decide_eq_true, indexOf_app. Qed.

Lemma not_included s needle :
  occurrences s needle = 0 → includes s needle = false.
Proof.
  intros H. unfold includes. rewrite (occurrences_none _ _ H).
  apply bool_decide_eq_false. by intros [? ?].
Qed.

(** X9.  After [addWrapper] the wrapper is found installed, whatever the
    content was.  When the content, once cleaned by [removeWrapper], holds
    no marker, removing the wrapper again gives back the cleaned content
    without its final line feeds, in which no wrapper is found; in
    particular a content without markers comes back unchanged up to its
    final line feeds. *)
Theorem addWrapper_then_removeWrapper (shell : ShellType) (content : string) :
  isWrapperInstalled (addWrapper shell content) = true ∧
  (markerFree (removeWrapper content) →
   removeWrapper (addWrapper shell content)
   = stripTrailingNewlines (removeWrapper content) ∧
   isWrapperInstalled (removeWrapper (addWrapper shell content)) = false) ∧
  (markerFree content →
   removeWrapper (addWrapper shell content) = stripTrailingNewlines content).
Proof.
  assert (Hround : markerFree (removeWrapper content) →
            removeWrapper (addWrapper shell content)
            = stripTrailingNewlines (removeWrapper content)).
  { intros Hfree. rewrite addWrapper_form.
    destruct (endsWith (removeWrapper content) (chr LF)).
    - by apply (installed_after_free shell _ false).
    - by apply (installed_after_free shell _ true). }
  split; [|split].
  - rewrite addWrapper_form. unfold isWrapperInstalled, installed.
    unfold getFullWrapperBlock.
    rewrite !str_app_assoc.
    rewrite <- (str_app_assoc (removeWrapper content)). apply includes_app.
  - intros Hfree. split; [by apply Hround|]. rewrite Hround by done.
    unfold isWrapperInstalled. apply not_included.
    rewrite occurrences_stripped by apply markers_lineText. apply Hfree.
  - intros Hfree. pose proof Hfree as [Hstart _].
    rewrite Hround; rewrite (removeWrapper_free _ Hstart); done.
Qed.

Lemma addWrapper_then_removeWrapper_witness :
  removeWrapper (addWrapper zsh ("export PATH=/bin" +:+ chr LF))
  = stripTrailingNewlines ("export PATH=/bin" +:+ chr LF).
Proof.
  apply (proj2 (proj2 (addWrapper_then_removeWrapper zsh
                         ("export PATH=/bin" +:+ chr LF)))).
  split; vm_compute; reflexivity.
Defined.

(* ===================================================================== *)
(** ** The resolver and the state manager, continued *)
(* ===================================================================== *)

Lemma setters_elem key ps p :
  p ∈ setters key ps ↔ p ∈ ps ∧ is_Some (Profile.variables p !! key).
Proof. unfold setters. rewrite list_elem_of_filter. tauto. Qed.

Lemma lastWins_Some key ps p :
  p ∈ ps → is_Some (Profile.variables p !! key) → is_Some (lastWins key ps).
Proof.
  intros Hin Hkey. unfold lastWins.
  assert (Hp : p ∈ setters key ps) by (by apply setters_elem).
  destruct (last (setters key ps)) as [q|] eqn:Hlast.
  - apply last_Some in Hlast as [l Hl].
    assert (Hq : q ∈ setters key ps).
    { rewrite Hl. apply elem_of_app. right. by left. }
    apply setters_elem in Hq as [_ [v Hv]]. simpl. rewrite Hv. by eexists.
  - apply last_None in Hlast. rewrite Hlast in Hp. by apply elem_of_nil in Hp.
Qed.

Lemma conflict_elem (env : ResolvedEnv.t) c :
  c ∈ ResolvedEnv.conflicts env → c ∈ conflictsOn (variable c) env.
Proof. intros Hc. unfold conflictsOn. by apply list_elem_of_filter. Qed.

(** X10.  What [resolve] returns is accounted for by the profiles it was
    asked for.  The source of a resolved variable is one of the requested
    names, and the profile of that name defines the variable with the
    resolved value; every variable of every requested profile is resolved;
    and each reported conflict names at least two profiles, all of them
    requested, and ends with its winner, which is the source of the resolved
    variable. *)
Theorem resolve_provenance (store : ProfileStore) (names : list string)
    (env : ResolvedEnv.t) :
  resolve store names = Ok env →
  (∀ key ev,
     ResolvedEnv.variables env !! key = Some ev →
     source ev ∈ names ∧
     ∃ p, loadProfile store (source ev) = Some p
          ∧ Profile.variables p !! key = Some (value ev)) ∧
  (∀ name p key,
     name ∈ names → loadProfile store name = Some p →
     is_Some (Profile.variables p !! key) →
     is_Some (ResolvedEnv.variables env !! key)) ∧
  (∀ c, c ∈ ResolvedEnv.conflicts env →
     2 ≤ length (profiles c) ∧ last (profiles c) = Some (winner c) ∧
     (∀ name, name ∈ profiles c → name ∈ names) ∧
     ∃ ev, ResolvedEnv.variables env !! variable c = Some ev
           ∧ source ev = winner c).
Proof.
  intros Hres. split; [|split].
  - intros key ev. by apply resolve_origin.
  - intros name p key Hin Hload Hkey.
    destruct (resolve_Ok _ _ _ Hres) as (ps & Hps & ->).
    pose proof (loadAll_wellFormed _ _ _ Hps) as Hwf.
    destruct (resolveProfiles_spec ps Hwf) as [Hvars _]. rewrite Hvars.
    apply mapM_Some in Hps. apply list_elem_of_lookup in Hin as [i Hi].
    destruct (Forall2_lookup_l _ _ _ _ _ Hps Hi) as (p' & Hp' & Hload').
    assert (p' = p) as -> by congruence.
    apply (lastWins_Some key ps p); [|done]. by eapply list_elem_of_lookup_2.
  - intros c Hc.
    destruct (resolve_Ok _ _ _ Hres) as (ps & Hps & ->).
    pose proof (loadAll_wellFormed _ _ _ Hps) as Hwf.
    destruct (resolveProfiles_spec ps Hwf) as [Hvars Hconflicts].
    apply conflict_elem in Hc. rewrite Hconflicts in Hc.
    unfold expectedConflicts in Hc. case_decide as Hlen; [|by apply elem_of_nil in Hc].
    apply list_elem_of_singleton in Hc. rewrite Hc. simpl.
    set (key := variable c) in *. clearbody key. clear Hc c.
    rewrite length_fmap in Hlen.
    destruct (last (setters key ps)) as [q|] eqn:Hlast.
    2:{ apply last_None in Hlast. rewrite Hlast in Hlen. simpl in Hlen. lia. }
    rewrite length_fmap, fmap_last, Hlast. simpl.
    split; [lia|]. split; [done|]. split.
    + intros name Hname. apply list_elem_of_fmap in Hname as (p & -> & Hp).
      apply setters_elem in Hp as [Hp _]. apply mapM_Some in Hps.
      apply list_elem_of_lookup in Hp as [i Hi].
      destruct (Forall2_lookup_r _ _ _ _ _ Hps Hi) as (n & Hn & Hload).
      apply loadProfile_Some in Hload as [_ ->].
      by eapply list_elem_of_lookup_2.
    + rewrite Hvars. unfold lastWins. rewrite Hlast. simpl.
      apply last_Some in Hlast as [l Hl].
      assert (Hq : q ∈ setters key ps).
      { rewrite Hl. apply elem_of_app. right. by left. }
      apply setters_elem in Hq as [_ [v Hv]]. rewrite Hv. simpl.
      by eexists.
Qed.

Lemma resolve_provenance_witness :
  is_Some (ResolvedEnv.variables (resolveProfiles exampleProfiles) !! "KEY2").
Proof.
  apply (proj1 (proj2 (resolve_provenance exampleStore ["p1"; "p2"]
                         (resolveProfiles exampleProfiles)
                         ltac:(vm_compute; reflexivity)))
           "p2" (Profile.make "p2" false {[ "KEY1" := "b"; "KEY2" := "c" ]})
           "KEY2").
  - right. left.
  - vm_compute. reflexivity.
  - vm_compute. by eexists.
Defined.

Lemma diff_toSet_proto (current next : gmap string EnvVariable) :
  Diff.toSet (diff current next) !! "__proto__" = None.
Proof.
  unfold diff. simpl. unfold JsObject.entries.
  rewrite diffSet_fold by apply NoDup_fst_map_to_list.
  rewrite lookup_empty. by destruct (list_to_map _ !! "__proto__").
Qed.

(** X11.  [diff] is a correct incremental update.  In an environment where
    every variable of [current] holds its recorded value, carrying out the
    plan of [diff current next] leaves every variable of [next], other than
    [__proto__], with the value [next] records, removes the variables of
    [current] that [next] lacks and that are not named like a member of
    [Object.prototype], and touches nothing else; and the plan between a
    record and itself is empty. *)
Theorem diff_carries_current_to_next (current next : gmap string EnvVariable)
    (environment : gmap string string) :
  (∀ key cv, current !! key = Some cv →
             environment !! key = Some (value cv)) →
  let after :=
    applyPlan (Diff.toSet (diff current next))
              (Diff.toUnset (diff current next)) environment in
  (∀ key nv, next !! key = Some nv → key ≠ "__proto__" →
             after !! key = Some (value nv)) ∧
  (∀ key, is_Some (current !! key) → next !! key = None →
          JsObject.inherited key = false → after !! key = None) ∧
  (∀ key, current !! key = None → next !! key = None →
          after !! key = environment !! key) ∧
  diff current current = Diff.make ∅ [].
Proof.
  intros Hcons after. unfold after. split; [|split; [|split]].
  - intros key nv Hnext Hne.
    rewrite applyPlan_lookup, diff_toSet by done. unfold expectedToSet.
    rewrite Hnext. destruct (current !! key) as [cv|] eqn:Hcv; [|done].
    case_decide as Heq; [|done].
    rewrite decide_False.
    + rewrite <- Heq. by apply Hcons.
    + rewrite diff_toUnset, Hnext. intros (_ & ? & _). done.
  - intros key Hcur Hnext Hinh.
    assert (Hne : key ≠ "__proto__")
      by (intros ->; by rewrite inherited_proto in Hinh).
    rewrite applyPlan_lookup, diff_toSet by done. unfold expectedToSet.
    rewrite Hnext. rewrite decide_True; [done|]. by apply diff_toUnset.
  - intros key Hcur Hnext. rewrite applyPlan_lookup.
    assert (HtoSet : Diff.toSet (diff current next) !! key = None).
    { destruct (decide (key = "__proto__")) as [->|Hne].
      - apply diff_toSet_proto.
      - rewrite diff_toSet by done. unfold expectedToSet. by rewrite Hnext. }
    rewrite HtoSet, decide_False; [done|].
    rewrite diff_toUnset, Hcur. intros [[? ?] _]. done.
  - apply diff_same.
Qed.

Lemma diff_carries_current_to_next_witness :
  applyPlan
    (Diff.toSet (diff {[ "KEEP" := mkEnvVariable "keep" "p1";
                         "CHANGE" := mkEnvVariable "old" "p1" ]}
                      {[ "KEEP" := mkEnvVariable "keep" "p1";
                         "CHANGE" := mkEnvVariable "new" "p2" ]}))
    (Diff.toUnset (diff {[ "KEEP" := mkEnvVariable "keep" "p1";
                           "CHANGE" := mkEnvVariable "old" "p1" ]}
                        {[ "KEEP" := mkEnvVariable "keep" "p1";
                           "CHANGE" := mkEnvVariable "new" "p2" ]}))
    {[ "KEEP" := "keep"; "CHANGE" := "old" ]} !! "CHANGE"
  = Some "new".
Proof.
  apply (proj1 (diff_carries_current_to_next
                  {[ "KEEP" := mkEnvVariable "keep" "p1";
                     "CHANGE" := mkEnvVariable "old" "p1" ]}
                  {[ "KEEP" := mkEnvVariable "keep" "p1";
                     "CHANGE" := mkEnvVariable "new" "p2" ]}
                  {[ "KEEP" := "keep"; "CHANGE" := "old" ]}
                  ltac:(intros key cv Hkey;
                        apply lookup_insert_Some in Hkey
                          as [[<- <-]|[_ Hkey]]; [reflexivity|];
                        apply lookup_singleton_Some in Hkey as [<- <-];
                        reflexivity))
           "CHANGE" (mkEnvVariable "new" "p2")).
  - vm_compute. reflexivity.
  - discriminate.
Defined.

(** X12.  [computeRemoval] when no tracked variable is named like a member
    of [Object.prototype] and the remaining profiles resolve: the tracked
    variables that the remaining profiles provide are kept, with the value
    and source the remaining profiles give them, and exactly the others are
    to be unset. *)
Theorem computeRemoval_ordinary (store : ProfileStore)
    (current : gmap string EnvVariable) (names : list string)
    (remaining : gmap string EnvVariable) :
  (∀ key, is_Some (current !! key) → JsObject.inherited key = false) →
  resolveRemaining store names = Ok remaining →
  ∃ removal,
    computeRemoval store current names = Ok removal ∧
    (∀ key, Removal.toKeep removal !! key =
            match current !! key with
            | Some _ => JsObject.Own <$> remaining !! key
            | None => None
            end) ∧
    (∀ key, key ∈ Removal.toUnset removal ↔
            is_Some (current !! key) ∧ remaining !! key = None) ∧
    NoDup (Removal.toUnset removal).
Proof.
  intros Hord Hrem.
  destruct (computeRemoval_reads store current names remaining Hrem)
    as (removal & Hremoval & Hkeep & Hunset).
  exists removal. split; [done|]. split; [|split].
  - intros key. rewrite Hkeep.
    destruct (current !! key) as [cv|] eqn:Hcv; [|by case_decide].
    assert (Hinh : JsObject.inherited key = false)
      by (apply Hord; by eexists).
    rewrite decide_False by (intros ->; by rewrite inherited_proto in Hinh).
    unfold JsObject.get. rewrite Hinh. by destruct (remaining !! key).
  - intros key. rewrite Hunset. split.
    + intros [Hkey Hnone]. split; [done|]. by apply get_None in Hnone as [? _].
    + intros [Hkey Hnone]. split; [done|]. apply get_None. split; [done|].
      by apply Hord.
  - unfold computeRemoval in Hremoval. rewrite Hrem in Hremoval.
    injection Hremoval as <-. unfold JsObject.entries.
    destruct (removal_fold remaining (map_to_list current)
                (NoDup_fst_map_to_list _) (Removal.make [] ∅)) as [_ ->].
    simpl. apply NoDup_filter, NoDup_fst_map_to_list.
Qed.

Lemma computeRemoval_ordinary_witness :
  ∃ removal,
    computeRemoval sharedStore (variablesOf sharedFile) ["p1"] = Ok removal ∧
    Removal.toKeep removal !! "SHARED"
    = Some (JsObject.Own (mkEnvVariable "a" "p1")).
Proof.
  destruct (computeRemoval_ordinary sharedStore (variablesOf sharedFile)
              ["p1"]
              {[ "KEY1" := mkEnvVariable "1" "p1";
                 "SHARED" := mkEnvVariable "a" "p1" ]})
    as (removal & Hremoval & Hkeep & _).
  - intros key [v Hv]. simpl in Hv.
    apply lookup_insert_Some in Hv as [[<- _]|[_ Hv]]; [reflexivity|].
    apply lookup_singleton_Some in Hv as [<- _]. reflexivity.
  - vm_compute. reflexivity.
  - exists removal. split; [exact Hremoval|]. rewrite Hkeep.
    vm_compute. reflexivity.
Defined.

(** X13.  [addProfiles], on a state file that is absent, not JSON or the
    JSON of a state, at a path that can be written: the call returns and
    leaves in the file the state it returns.  The active list keeps the
    profiles that were active, in their order, followed by the added
    profiles that were not active, each once; the new variables override
    the tracked ones of the same name and the other tracked variables
    stay. *)
Theorem addProfiles_effect (now : string) (env : string → option string)
    (file : Backing) (profilesToAdd : list string)
    (newVariables : gmap string EnvVariable) :
  regular file →
  ∃ state added,
    addProfiles now env file profilesToAdd newVariables
    = Ok (save state, state) ∧
    load now (save state) = Ok state ∧
    StateData.active_profiles state = activeOf file ++ added ∧
    (∀ p, p ∈ added ↔ p ∈ profilesToAdd ∧ p ∉ activeOf file) ∧
    NoDup added ∧
    (NoDup (activeOf file) → NoDup (StateData.active_profiles state)) ∧
    (∀ key, StateData.variables state !! key =
            match newVariables !! key with
            | Some envVar => Some envVar
            | None => variablesOf file !! key
            end).
Proof.
  intros _.
  unfold addProfiles. destruct (load_total now file) as [current Hload].
  rewrite Hload, (load_active _ _ _ Hload), (load_variables _ _ _ Hload).
  destruct (addProfiles_list profilesToAdd (activeOf file))
    as (added & Heq & Hadded & Hnodup).
  eexists _, added. split; [reflexivity|]. simpl.
  split; [done|]. split; [exact Heq|]. split; [exact Hadded|].
  split; [exact Hnodup|]. split.
  - intros Hold. rewrite Heq. apply NoDup_app. split; [done|].
    split; [|done]. intros p Hp Hp'. apply Hadded in Hp'. tauto.
  - intros key. destruct (newVariables !! key) as [envVar|] eqn:Hnew.
    + by apply lookup_union_Some_l.
    + by rewrite lookup_union_r.
Qed.

Lemma addProfiles_effect_witness :
  ∃ state added,
    addProfiles "t2" (λ _, None) sharedFile ["p2"; "p3"; "p3"] ∅
    = Ok (save state, state) ∧
    StateData.active_profiles state = ["p1"; "p2"] ++ added ∧
    NoDup (StateData.active_profiles state).
Proof.
  destruct (addProfiles_effect "t2" (λ _, None) sharedFile
              ["p2"; "p3"; "p3"] ∅)
    as (state & added & Hadd & _ & Hactive & _ & _ & Hnodup & _).
  - discriminate.
  - exists state, added. split; [exact Hadd|]. split; [exact Hactive|].
    apply Hnodup. apply NoDup_cons. split; [|apply NoDup_singleton].
    intros Hin. apply list_elem_of_singleton in Hin. discriminate.
Defined.

(** X14.  The snapshot across calls of [update] and [addProfiles]: a
    snapshot value that is in the state file is never changed by a later
    call, and if every tracked variable that is not named like a member of
    [Object.prototype] has a snapshot entry, this still holds after any
    sequence of calls. *)
Theorem snapshot_kept_and_complete (file : Backing) (calls : list Call) :
  (∀ key v, snapshotOf file !! key = Some v →
            snapshotOf (run file calls) !! key = Some v) ∧
  ((∀ key, is_Some (variablesOf file !! key) →
           JsObject.inherited key = false →
           is_Some (snapshotOf file !! key)) →
   ∀ key, is_Some (variablesOf (run file calls) !! key) →
          JsObject.inherited key = false →
          is_Some (snapshotOf (run file calls) !! key)).
Proof.
  split.
  - intros key v. apply snapshot_first_capture_wins.
  - apply snapshot_covers_ordinary_keys.
Qed.

Lemma snapshot_kept_and_complete_witness :
  snapshotOf
    (run sharedFile
       [CallUpdate "t2" (λ _, Some "later") ["p1"]
          {[ "SHARED" := mkEnvVariable "a" "p1" ]}])
  !! "SHARED" = Some (Some "orig").
Proof.
  apply (proj1 (snapshot_kept_and_complete sharedFile
                  [CallUpdate "t2" (λ _, Some "later") ["p1"]
                     {[ "SHARED" := mkEnvVariable "a" "p1" ]}])
           "SHARED" (Some "orig")).
  vm_compute. reflexivity.
Defined.

(* ===================================================================== *)
(** ** Writing a profile and reading it back *)
(* ===================================================================== *)

Lemma trimEnd_length s : String.length (trimEnd s) ≤ String.length s.
Proof.
  induction s as [|c s IH]; [done|]. simpl.
  destruct (isWhiteSpace c && isEmpty (trimEnd s)); simpl; lia.
Qed.

Lemma trimStart_length s : String.length (trimStart s) ≤ String.length s.
Proof.
  induction s as [|c s IH]; [done|]. simpl.
  destruct (isWhiteSpace c); simpl; lia.
Qed.

(** A non-empty text that [trim] leaves alone starts with a character that
    is not white space, and [trimEnd] leaves it alone. *)
Lemma trim_fixed c s :
  trim (String c s) = String c s →
  isWhiteSpace c = false ∧ trimEnd (String c s) = String c s.
Proof.
  unfold trim. simpl. destruct (isWhiteSpace c) eqn:Hc.
  - intros H. exfalso.
    pose proof (trimEnd_length (trimStart s)) as H1.
    pose proof (trimStart_length s) as H2.
    rewrite H in H1. simpl in H1. lia.
  - intros H. split; [done|]. simpl in H. rewrite Hc in H.
    simpl. exact H.
Qed.

Lemma trimEnd_app a b :
  isEmpty (trimEnd b) = false → trimEnd (a +:+ b) = a +:+ trimEnd b.
Proof.
  intros Hb. induction a as [|c a IH]; [by rewrite !str_app_nil|].
  rewrite !str_app_cons. simpl. rewrite IH.
  assert (Hne : isEmpty (a +:+ trimEnd b) = false).
  { destruct a; [by rewrite str_app_nil|by rewrite str_app_cons]. }
  by rewrite Hne, andb_false_r.
Qed.

Lemma trim_app c a b :
  isWhiteSpace c = false → isEmpty b = false → trimEnd b = b →
  trim (String c a +:+ b) = String c a +:+ b.
Proof.
  intros Hc Hb Hend. unfold trim. rewrite str_app_cons. simpl. rewrite Hc.
  rewrite <- str_app_cons, trimEnd_app; rewrite Hend; done.
Qed.

Lemma trimEnd_cons c s :
  isWhiteSpace c = false → trimEnd (String c s) = String c (trimEnd s).
Proof. intros Hc. simpl. by rewrite Hc. Qed.

Lemma includes_cons c s q :
  includes (String c s) (chr q) = false →
  c ≠ q ∧ includes s (chr q) = false.
Proof.
  unfold includes. rewrite !bool_decide_eq_false. simpl.
  destruct (decide (q = c)) as [->|Hne].
  - intros H. exfalso. apply H. by eexists.
  - intros H. split; [done|]. intros [i Hi]. apply H. rewrite Hi. by eexists.
Qed.

Lemma startsWith_includes s q :
  includes s (chr q) = false → startsWith s (chr q) = false.
Proof.
  destruct s as [|c s]; [done|]. intros [Hne _]%includes_cons. simpl.
  by rewrite decide_False.
Qed.

Lemma indexOf_first key q rest :
  includes key (chr q) = false →
  indexOf (key +:+ String q rest) (chr q) = Some (String.length key).
Proof.
  induction key as [|c key IH]; intros Hkey.
  - rewrite str_app_nil. simpl. by rewrite decide_True.
  - apply includes_cons in Hkey as [Hne Hkey]. rewrite str_app_cons. simpl.
    rewrite decide_False by done. by rewrite (IH Hkey).
Qed.

Lemma escapeQuotes_plain v :
  includes v (chr QUOTATION) = false → escapeQuotes v = v.
Proof.
  induction v as [|c v IH]; [done|]. intros [Hne Hv]%includes_cons. simpl.
  rewrite decide_False by done. by rewrite IH.
Qed.

Lemma take_all s rest : take (String.length s) (s +:+ rest) = s.
Proof.
  rewrite <- (Nat.add_0_r (String.length s)), take_app.
  destruct rest; simpl; by rewrite str_app_nil_end.
Qed.

Lemma drop_all s rest : drop (String.length s) (s +:+ rest) = rest.
Proof.
  rewrite <- (Nat.add_0_r (String.length s)), drop_app. by destruct rest.
Qed.

Lemma stripQuotes_plain v :
  includes v (chr QUOTATION) = false → includes v "'" = false →
  stripQuotes v = v.
Proof.
  intros H1 H2. unfold stripQuotes.
  rewrite (startsWith_includes _ _ H1).
  change "'" with (chr APOSTROPHE) in *.
  by rewrite (startsWith_includes _ _ H2).
Qed.

Lemma stripQuotes_quoted v : stripQuotes (quoted v) = v.
Proof.
  unfold stripQuotes, quoted.
  assert (Hstart : startsWith (chr QUOTATION +:+ v +:+ chr QUOTATION)
                              (chr QUOTATION) = true) by done.
  assert (Hend : endsWith (chr QUOTATION +:+ v +:+ chr QUOTATION)
                          (chr QUOTATION) = true).
  { rewrite <- str_app_assoc. apply endsWith_app. }
  rewrite Hstart, Hend. simpl. unfold slice, chr.
  rewrite !str_app_cons, str_app_nil. simpl.
  rewrite str_length_app. simpl.
  replace (String.length v + 1 - 0 - 1) with (String.length v) by lia.
  apply take_all.
Qed.

Lemma trim_quoted v : trim (quoted v) = quoted v.
Proof.
  unfold quoted, chr. rewrite str_app_cons, str_app_nil.
  rewrite <- (str_app_cons QUOTATION v). by apply trim_app.
Qed.

Lemma trimEnd_of_trimmed s : trim s = s → trimEnd s = s.
Proof.
  destruct s as [|c s]; [done|]. intros H. by apply trim_fixed in H as [_ ?].
Qed.

(** Reading one [KEY=value] line whose key and value need no trimming. *)
Lemma parseLine_assignment acc key w :
  plainKey key → trimEnd w = w →
  parseLine acc (key +:+ "=" +:+ w)
  = <[key := stripQuotes (trim w)]> acc.
Proof.
  intros (Hne & Htrim & Heq & Hhash & _ & Hproto) Hw.
  destruct key as [|c key]; [done|].
  destruct (trim_fixed _ _ Htrim) as [Hc _].
  assert (Hline : trim (String c key +:+ "=" +:+ w)
                  = String c key +:+ "=" +:+ w).
  { apply trim_app; [done|done|].
    change ("=" +:+ w) with (String EQUALS w).
    rewrite trimEnd_cons by done. by rewrite Hw. }
  unfold parseLine. rewrite Hline.
  assert (Hstart : isEmpty (String c key +:+ "=" +:+ w)
                   || startsWith (String c key +:+ "=" +:+ w) "#" = false).
  { rewrite str_app_cons. simpl. simpl in Hhash.
    by destruct (decide ("#"%char = c)). }
  rewrite Hstart.
  change ("=" +:+ w) with (String EQUALS w).
  change "=" with (chr EQUALS).
  rewrite (indexOf_first (String c key) EQUALS w Heq).
  unfold slice, sliceFrom. rewrite Nat.sub_0_r.
  change (drop 0 (String c key +:+ String EQUALS w))
    with (String c key +:+ String EQUALS w).
  rewrite take_all, Htrim.
  rewrite (drop_app (String c key) (String EQUALS w) 1).
  change (drop 1 (String EQUALS w)) with w.
  cbn [isEmpty]. unfold JsObject.assign. by rewrite decide_False.
Qed.

Lemma renderVariable_read acc key v :
  plainKey key → plainValue v →
  parseLine acc (renderVariable (key, v)) = <[key := v]> acc.
Proof.
  intros Hkey (Hline & Hquote & Hform). unfold renderVariable. cbn [fst snd].
  rewrite Hquote, orb_false_r.
  destruct (includes v " " || includes v "'") eqn:Hcond.
  - rewrite (escapeQuotes_plain _ Hquote).
    rewrite parseLine_assignment; [|done|].
    + by rewrite trim_quoted, stripQuotes_quoted.
    + apply trimEnd_of_trimmed, trim_quoted.
  - apply orb_false_iff in Hcond as [Hspace Hapostrophe].
    destruct Hform as [?|[?|Htrim]]; [congruence|congruence|].
    rewrite parseLine_assignment; [|done|by apply trimEnd_of_trimmed].
    by rewrite Htrim, stripQuotes_plain.
Qed.

Lemma parseLine_comment acc rest : parseLine acc ("#" +:+ rest) = acc.
Proof.
  unfold parseLine, trim. rewrite str_app_cons, str_app_nil.
  change (trimStart (String "#" rest)) with (String "#"%char rest).
  by rewrite trimEnd_cons.
Qed.

Lemma parseLine_blank acc : parseLine acc EmptyString = acc.
Proof. reflexivity. Qed.

Lemma renderVariable_noLineFeed key v :
  plainKey key → plainValue v →
  noLineFeed (renderVariable (key, v)) = true.
Proof.
  intros (_ & _ & _ & _ & Hkey & _) (Hv & Hquote & _).
  unfold renderVariable, quoted. cbn [fst snd].
  rewrite (escapeQuotes_plain _ Hquote).
  destruct (_ || _); rewrite !noLineFeed_app, Hkey, Hv; reflexivity.
Qed.

Lemma join_noLineFeed separator (parts : list string) :
  noLineFeed separator = true →
  Forall (λ part, noLineFeed part = true) parts →
  noLineFeed (join separator parts) = true.
Proof.
  intros Hsep. induction 1 as [|part parts Hpart _ IH]; [done|].
  destruct parts as [|part' parts]; [done|].
  change (join separator (part :: part' :: parts))
    with (part +:+ separator +:+ join separator (part' :: parts)).
  by rewrite !noLineFeed_app, Hpart, Hsep, IH.
Qed.

(** The text of [generateProfileContent] is read line by line. *)
Lemma parse_written (lines : list string) :
  Forall (λ line, noLineFeed line = true) lines →
  parseVariables (join_lines lines +:+ chr LF) = foldl parseLine ∅ lines.
Proof.
  intros Hlines. unfold parseVariables.
  destruct lines as [|line lines]; [done|].
  rewrite <- (str_app_nil_end (chr LF)).
  change (chr LF +:+ EmptyString)
    with (chr LF +:+ join_lines [EmptyString]).
  rewrite <- join_lines_app by done.
  rewrite split_join_lines.
  - by rewrite foldl_app.
  - apply Forall_app. split; [done|]. by repeat constructor.
  - by destruct lines.
Qed.

Lemma foldl_comments (header : list string) acc :
  Forall (λ line, line = EmptyString ∨ ∃ rest, line = "#" +:+ rest) header →
  foldl parseLine acc header = acc.
Proof.
  induction 1 as [|line header Hline _ IH]; [done|]. simpl.
  destruct Hline as [->|[rest ->]].
  - by rewrite parseLine_blank.
  - by rewrite parseLine_comment.
Qed.

Lemma foldl_rendered (entries : list (string * string)) : ∀ acc,
  Forall (λ entry, plainKey entry.1 ∧ plainValue entry.2) entries →
  foldl parseLine acc (renderVariable <$> entries)
  = foldl (λ (acc : gmap string string) (entry : string * string),
             <[entry.1 := entry.2]> acc) acc entries.
Proof.
  induction entries as [|[key v] entries IH]; intros acc Hall; [done|].
  apply Forall_cons in Hall as [[Hkey Hv] Hall]. simpl in *.
  rewrite renderVariable_read by done. by apply IH.
Qed.

(** X15.  A profile written by [generateProfileContent] is read back by
    [parseVariables] as the record it was written from, whatever the
    description and the tags are as long as they hold no line feed, when
    every variable name is not empty, has no surrounding white space, no
    equals sign and no line feed, does not start with a hash and is not
    [__proto__], and every value is on one line, holds no double quote, and
    either holds a space or an apostrophe or has no surrounding white
    space. *)
Theorem written_profile_reads_back (metadata : ProfileMetadata)
    (variables : gmap string string) :
  noLineFeed (description metadata) = true →
  Forall (λ tag, noLineFeed tag = true) (tags metadata) →
  map_Forall (λ key v, plainKey key ∧ plainValue v) variables →
  parseVariables (generateProfileContent metadata variables) = variables.
Proof.
  intros Hdescription Htags Hvariables.
  apply (entries_Forall (λ key v, plainKey key ∧ plainValue v)) in Hvariables.
  unfold generateProfileContent.
  set (header := (if isEmpty (description metadata) then []
                  else ["# @description: " +:+ description metadata])
                 ++ (if decide (0 < length (tags metadata))
                     then ["# @tags: " +:+ join ", " (tags metadata)]
                     else [])).
  set (gap := if decide (0 < length header) then [EmptyString] else []).
  assert (Hheader : Forall (λ line, line = EmptyString
                                    ∨ ∃ rest, line = "#" +:+ rest)
                           (header ++ gap)).
  { apply Forall_app. split.
    - apply Forall_app. split.
      + destruct (isEmpty (description metadata)); [constructor|].
        constructor; [|constructor]. right. by eexists.
      + case_decide; [|constructor].
        constructor; [|constructor]. right. by eexists.
    - unfold gap. case_decide; [|constructor].
      constructor; [by left|constructor]. }
  assert (Hlines : Forall (λ line, noLineFeed line = true) (header ++ gap)).
  { apply Forall_app. split.
    - apply Forall_app. split.
      + destruct (isEmpty (description metadata)); [constructor|].
        constructor; [|constructor].
        by rewrite noLineFeed_app, Hdescription.
      + case_decide; [|constructor]. constructor; [|constructor].
        rewrite noLineFeed_app, join_noLineFeed; done.
    - unfold gap. case_decide; [|constructor].
      constructor; [done|constructor]. }
  rewrite (app_assoc header gap), parse_written.
  - rewrite foldl_app, (foldl_comments _ _ Hheader), foldl_rendered by done.
    rewrite foldl_insert_union. apply (right_id_L ∅ (∪)).
  - apply Forall_app. split; [done|]. apply Forall_fmap.
    eapply Forall_impl; [exact Hvariables|]. intros [key v] [Hkey Hv].
    by apply renderVariable_noLineFeed.
Qed.

Lemma written_profile_reads_back_witness :
  parseVariables (generateProfileContent exampleMetadata exampleVariables)
  = exampleVariables.
Proof.
  apply written_profile_reads_back.
  - reflexivity.
  - repeat constructor.
  - unfold exampleVariables. apply map_Forall_insert_2.
    + split; [|split; [reflexivity|split; [reflexivity|]]].
      * unfold plainKey. repeat split; try reflexivity. discriminate.
      * right. right. reflexivity.
    + apply map_Forall_singleton.
      split; [|split; [reflexivity|split; [reflexivity|]]].
      * unfold plainKey. repeat split; try reflexivity. discriminate.
      * left. reflexivity.
Defined.

(* ===================================================================== *)
(** ** What [parseVariables] can return *)
(* ===================================================================== *)

Lemma noLineFeed_includes s :
  noLineFeed s = true ↔ includes s (chr LF) = false.
Proof.
  induction s as [|c s IH]; [done|]. simpl. split.
  - destruct (decide (c = LF)) as [|Hne]; [done|]. intros Hs.
    unfold includes. apply bool_decide_eq_false. simpl.
    rewrite decide_False by done. intros [i Hi].
    apply IH in Hs. unfold includes in Hs.
    apply bool_decide_eq_false in Hs. apply Hs.
    destruct (indexOf s (chr LF)); [by eexists|done].
  - intros [Hne Hs]%includes_cons. rewrite decide_False by done.
    by apply IH.
Qed.

Lemma includes_cons_false c s q :
  c ≠ q → includes s (chr q) = false → includes (String c s) (chr q) = false.
Proof.
  intros Hne Hs. unfold includes in *. apply bool_decide_eq_false in Hs.
  apply bool_decide_eq_false. simpl. rewrite decide_False by done.
  intros [i Hi]. apply Hs. destruct (indexOf s (chr q)); [by eexists|done].
Qed.

Lemma includes_nil q : includes EmptyString (chr q) = false.
Proof. reflexivity. Qed.

Lemma take_free q s : ∀ n,
  includes s (chr q) = false → includes (take n s) (chr q) = false.
Proof.
  induction s as [|c s IH]; intros n Hs; [by destruct n|].
  apply includes_cons in Hs as [Hne Hs]. destruct n as [|n]; [done|]. simpl.
  apply includes_cons_false; [done|by apply IH].
Qed.

Lemma drop_free q s : ∀ n,
  includes s (chr q) = false → includes (drop n s) (chr q) = false.
Proof.
  induction s as [|c s IH]; intros n Hs; [by destruct n|].
  destruct n as [|n]; [done|]. simpl.
  apply includes_cons in Hs as [_ Hs]. by apply IH.
Qed.

Lemma trimStart_free q s :
  includes s (chr q) = false → includes (trimStart s) (chr q) = false.
Proof.
  induction s as [|c s IH]; [done|]. intros Hs. simpl.
  destruct (isWhiteSpace c); [|done].
  apply includes_cons in Hs as [_ Hs]. by apply IH.
Qed.

Lemma trimEnd_free q s :
  includes s (chr q) = false → includes (trimEnd s) (chr q) = false.
Proof.
  induction s as [|c s IH]; [done|]. intros [Hne Hs]%includes_cons. simpl.
  destruct (isWhiteSpace c && isEmpty (trimEnd s)); [done|].
  apply includes_cons_false; [done|by apply IH].
Qed.

Lemma trim_free q s :
  includes s (chr q) = false → includes (trim s) (chr q) = false.
Proof. intros Hs. by apply trimEnd_free, trimStart_free. Qed.

Lemma stripQuotes_free q s :
  includes s (chr q) = false → includes (stripQuotes s) (chr q) = false.
Proof.
  intros Hs. unfold stripQuotes, slice. destruct (_ || _); [|done].
  by apply take_free, drop_free.
Qed.

Lemma take_before q s : ∀ i,
  indexOf s (chr q) = Some i → includes (take i s) (chr q) = false.
Proof.
  induction s as [|c s IH]; intros i; [done|]. simpl.
  destruct (decide (q = c)) as [->|Hne].
  - by intros [= <-].
  - destruct (indexOf s (chr q)) as [j|] eqn:Hj; [|done].
    intros [= <-]. simpl. apply includes_cons_false; [done|by apply IH].
Qed.

Lemma trimEnd_idemp s : trimEnd (trimEnd s) = trimEnd s.
Proof.
  induction s as [|c s IH]; [done|]. simpl.
  destruct (isWhiteSpace c && isEmpty (trimEnd s)) eqn:Hcond; [done|].
  simpl. by rewrite IH, Hcond.
Qed.

Lemma trimStart_trimEnd c s :
  isWhiteSpace c = false →
  trimStart (trimEnd (String c s)) = trimEnd (String c s).
Proof. intros Hc. rewrite trimEnd_cons by done. simpl. by rewrite Hc. Qed.

Lemma trimStart_head s :
  trimStart s = EmptyString
  ∨ ∃ c rest, trimStart s = String c rest ∧ isWhiteSpace c = false.
Proof.
  induction s as [|c s IH]; [by left|]. simpl.
  destruct (isWhiteSpace c) eqn:Hc; [done|]. right. by eexists _, _.
Qed.

Lemma trim_head s :
  trim s = EmptyString
  ∨ ∃ c rest, trim s = String c rest ∧ isWhiteSpace c = false.
Proof.
  unfold trim. destruct (trimStart_head s) as [->|(c & rest & -> & Hc)].
  - by left.
  - right. rewrite trimEnd_cons by done. by eexists _, _.
Qed.

Lemma trim_idemp s : trim (trim s) = trim s.
Proof.
  unfold trim at 2 3. destruct (trimStart_head s) as [->|(c & rest & -> & Hc)].
  - done.
  - unfold trim. by rewrite trimStart_trimEnd, trimEnd_idemp.
Qed.

Lemma split_lines_noLineFeed s :
  Forall (λ line, noLineFeed line = true) (split_lines s).
Proof.
  induction s as [|c s IH]; [by repeat constructor|]. simpl.
  destruct (decide (c = LF)) as [|Hne]; [by constructor|].
  destruct (split_lines s) as [|line rest].
  - constructor; [|constructor]. simpl. by rewrite decide_False.
  - apply Forall_cons in IH as [Hline Hrest]. constructor; [|done]. simpl.
    by rewrite decide_False.
Qed.

(** What one line can add to the record. *)
Lemma parseLine_entries acc line key v :
  noLineFeed line = true →
  parseLine acc line !! key = Some v →
  acc !! key = Some v ∨ (plainKey key ∧ noLineFeed v = true).
Proof.
  intros Hline. unfold parseLine.
  destruct (isEmpty (trim line) || startsWith (trim line) "#") eqn:Hskip;
    [by left|].
  apply orb_false_iff in Hskip as [Hempty Hhash].
  change "=" with (chr EQUALS).
  destruct (indexOf (trim line) (chr EQUALS)) as [i|] eqn:Hi; [|by left].
  destruct (isEmpty (trim (slice (trim line) 0 i))) eqn:Hkey; [by left|].
  unfold JsObject.assign. case_decide as Hproto; [by left|].
  rewrite lookup_insert. case_decide as Heq; [|by left].
  intros [= <-]. right. subst key.
  apply noLineFeed_includes in Hline.
  pose proof (trim_free _ _ Hline) as Htrimmed.
  unfold slice, sliceFrom in *. rewrite Nat.sub_0_r in *.
  change (drop 0 (trim line)) with (trim line) in *.
  split.
  - split; [done|]. split; [apply trim_idemp|].
    split; [by apply trim_free, take_before|].
    split; [|split; [|done]].
    + destruct (trim_head line) as [Hnil|(c & rest & Hhead & Hc)].
      * by rewrite Hnil in Hempty.
      * rewrite Hhead in *. destruct i as [|i]; [done|]. simpl.
        unfold trim. simpl. rewrite Hc. rewrite trimEnd_cons by done.
        simpl. simpl in Hhash. by destruct (decide ("#"%char = c)).
    + by apply noLineFeed_includes, trim_free, take_free.
  - by apply noLineFeed_includes, stripQuotes_free, trim_free, drop_free.
Qed.

(** X16.  Every variable that [parseVariables] returns has a name that is
    not empty, has no surrounding white space, holds no equals sign and no
    line feed, does not start with a hash and is not [__proto__]; and its
    value holds no line feed. *)
Theorem parseVariables_entries (content key v : string) :
  parseVariables content !! key = Some v →
  plainKey key ∧ noLineFeed v = true.
Proof.
  unfold parseVariables.
  assert (Hfold : ∀ lines acc,
            Forall (λ line, noLineFeed line = true) lines →
            foldl parseLine acc lines !! key = Some v →
            acc !! key = Some v ∨ (plainKey key ∧ noLineFeed v = true)).
  { induction lines as [|line lines IH]; intros acc Hlines; [by left|].
    apply Forall_cons in Hlines as [Hline Hlines]. simpl. intros Hkey.
    destruct (IH _ Hlines Hkey) as [Hacc|?]; [|by right].
    by apply (parseLine_entries acc line). }
  intros Hkey.
  destruct (Hfold _ ∅ (split_lines_noLineFeed content) Hkey) as [Hnil|?];
    [|done].
  by rewrite lookup_empty in Hnil.
Qed.

Lemma parseVariables_entries_witness :
  plainKey "KEY2" ∧ noLineFeed "c" = true.
Proof.
  apply (parseVariables_entries
           ("KEY1=b" +:+ chr LF +:+ "  KEY2 = c  ") "KEY2" "c").
  vm_compute. reflexivity.
Defined.



(** X18.  [reset --emit-shell] when profiles are active and every tracked
    variable has a snapshot entry of its own and is not [__proto__]: the
    run exports the tracked variables whose snapshot value is a string,
    with that value, unsets the tracked variables whose snapshot value is
    [null], prints the text of these statements, and leaves the empty state
    in the state file. *)
Theorem resetCommand_effect (shell : ShellType) (now : string)
    (file : Backing) :
  activeOf file ≠ [] →
  (∀ key, is_Some (variablesOf file !! key) →
          is_Some (snapshotOf file !! key) ∧ key ≠ "__proto__") →
  ∃ e,
    resetCommand shell now file = Ok e ∧
    (∀ key, Emission.toSet e !! key =
            match variablesOf file !! key, snapshotOf file !! key with
            | Some _, Some (Some previous) => Some previous
            | _, _ => None
            end) ∧
    (∀ key, key ∈ Emission.toUnset e ↔
            is_Some (variablesOf file !! key)
            ∧ snapshotOf file !! key = Some None) ∧
    Emission.commands e
    = generateCommands shell (Emission.toSet e) (Emission.toUnset e) ∧
    Emission.stateFile e = save (getEmptyState now).
Proof.
  intros Hactive Hsnap.
  destruct (resetCommand_reads shell now file Hactive)
    as (toUnset & toRestore & HtoRestore & HtoUnset & Hreset).
  assert (Hrestore : ∀ key, toRestore !! key =
            match variablesOf file !! key, snapshotOf file !! key with
            | Some _, Some (Some previous) => Some (JsObject.Own previous)
            | _, _ => None
            end).
  { intros key. rewrite HtoRestore.
    destruct (variablesOf file !! key) as [cv|] eqn:Hcv; [|by case_decide].
    destruct (Hsnap key) as [[v Hv] Hne]; [by eexists|].
    rewrite decide_False by done. rewrite (get_own _ _ _ Hv), Hv.
    by destruct v. }
  rewrite Hreset, stringValues_Ok, bind_Ok.
  - eexists. split; [reflexivity|]. simpl.
    split; [|split; [|split; [apply reset_text|done]]].
    + intros key. rewrite lookup_omap, Hrestore.
      destruct (variablesOf file !! key); [|done].
      by destruct (snapshotOf file !! key) as [[?|]|].
    + intros key. rewrite HtoUnset. split.
      * intros [Hkey Hget]. split; [done|].
        destruct (Hsnap key Hkey) as [[v Hv] _].
        rewrite (get_own _ _ _ Hv) in Hget.
        destruct Hget as [?|Hget]; [done|]. congruence.
      * intros [Hkey Hv]. split; [done|]. right. by apply get_own.
  - intros key found. rewrite Hrestore.
    destruct (variablesOf file !! key); [|done].
    destruct (snapshotOf file !! key) as [[?|]|]; [|done|done].
    intros [= <-]. by eexists.
Qed.

Lemma resetCommand_effect_witness :
  ∃ e,
    resetCommand bash "t2" sharedFile = Ok e ∧
    Emission.toSet e !! "SHARED" = Some "orig" ∧
    Emission.stateFile e = save (getEmptyState "t2").
Proof.
  destruct (resetCommand_effect bash "t2" sharedFile)
    as (e & He & HtoSet & _ & _ & Hfile).
  - discriminate.
  - intros key [v Hv]. simpl in Hv.
    apply lookup_insert_Some in Hv as [[<- _]|[_ Hv]].
    + split; [by eexists|discriminate].
    + apply lookup_singleton_Some in Hv as [<- _].
      split; [by eexists|discriminate].
  - exists e. split; [exact He|]. split; [|exact Hfile].
    rewrite HtoSet. reflexivity.
Defined.
(* ===================================================================== *)
(** ** A session through the wrapper *)
(* ===================================================================== *)
















